(** * Unreal Pixel Streaming to RTP bridge: a shallow embedding of [main.go]

    The development follows the program: the command-line flags, the RTP
    relay of [setupMediaForwarding] with its RTCP feedback ticker, the
    signaling control loop ([startControlLoop], [handleRemoteAnswer],
    [sendAnswer], [createAnswer]), the candidate callback registered in
    [main], and an interleaving semantics of that callback against the answer
    handler.  Sample values for the examples follow, then the properties.

    The transport engine (Pion), the websocket, the network and
    [encoding/json] are code the program only calls; they appear as
    interfaces (type classes) and the theorems hold for every implementation
    of them.  The RTP packet codec, which decides what a forwarded frame
    looks like, is modelled in [Rtp]. *)

From Stdlib Require Import ZArith Lia.
From Stdlib.Strings Require Import Byte Ascii.
From stdpp Require Import base option list strings gmap pretty.

Local Open Scope Z_scope.

(** ** Go values *)

(** Go's [error] values as the program inspects them: the relay loop tells a
    [net.OpError] from every other error and reads the text of the wrapped
    error. *)
Inductive goError :=
| ErrorString (text : string)
| OpError (Op : string) (Err : string).

(** [err.Error()]; for a [net.OpError] the network and the addresses are left
    out of the text. *)
Definition Error (e : goError) : string :=
  match e with
  | ErrorString s => s
  | OpError op inner => op +:+ ": " +:+ inner
  end.

(** [fmt.Println] and [log.Println] put a space between two operands. *)
Definition sprintln2 (a b : string) : string := a +:+ " " +:+ b.

(** The terminal colour codes the control loop prints around a received
    message. *)
Definition colorGreen : string := String "027"%char "[32m".
Definition colorReset : string := String "027"%char "[0m".

Inductive result (A : Type) :=
| Ok (a : A)
| Fail (e : goError).
Arguments Ok {A} a.
Arguments Fail {A} e.

(** A byte read as the unsigned number Go's [uint8] holds. *)
Definition u8 (b : byte) : Z := Z.of_N (Byte.to_N b).

(** Conversion to [uint8]: the low eight bits are kept. *)
Definition uint8 (z : Z) : Z := Z.land z 255.

Definition byte_of (z : Z) : byte :=
  match Byte.of_N (Z.to_N (uint8 z)) with
  | Some b => b
  | None => x00
  end.

(** ** Process configuration: the flags of [main.go] *)

Record Config := {
  CirrusPort : Z;
  CirrusAddress : string;
  ForwardingAddress : string;
  RTPVideoForwardingPort : Z;
  RTPAudioForwardingPort : Z;
  RTPAudioPayloadType : Z;   (* flag.Uint *)
  RTPVideoPayloadType : Z;   (* flag.Uint *)
  RTCPIntervalMs : Z;
  RTCPSendPLI : bool;
  RTCPSendREMB : bool;
  REMB : Z                   (* flag.Uint64 *)
}.

Definition defaultConfig : Config := {|
  CirrusPort := 80;
  CirrusAddress := "localhost";
  ForwardingAddress := "127.0.0.1";
  RTPVideoForwardingPort := 4002;
  RTPAudioForwardingPort := 4000;
  RTPAudioPayloadType := 111;
  RTPVideoPayloadType := 125;
  RTCPIntervalMs := 2000;
  RTCPSendPLI := true;
  RTCPSendREMB := true;
  REMB := 400000000
|}.

(** ** The RTP packet codec *)

Module Rtp.

(** Modelled from the spec: [rtp.Packet] with its [Unmarshal] and [MarshalTo]
    belongs to the RTP library the program imports and is not part of the
    program's sources.  The spec describes the codec as decoding a
    fixed-format header to locate the payload-type field, with no parse of
    extension data, and re-encoding into a buffer sized to the original
    frame.  The fixed-format header is the twelve-byte RTP header followed by
    the contributing-source list; whatever follows (extension block, payload,
    padding) stays opaque.  The field names are those the program uses
    ([PayloadType]) or the library's. *)
Record Header := {
  Version : Z;
  Padding : bool;
  Extension : bool;
  Marker : bool;
  PayloadType : Z;          (* uint8, as [udpConn.payloadType] is assigned to it *)
  SequenceNumber : Z;
  Timestamp : Z;
  SSRC : Z;
  CSRC : list Z
}.

Record Packet := {
  header : Header;
  Payload : list byte
}.

Definition setPayloadType (p : Packet) (pt : Z) : Packet :=
  {| header := {| Version := Version (header p);
                  Padding := Padding (header p);
                  Extension := Extension (header p);
                  Marker := Marker (header p);
                  PayloadType := pt;
                  SequenceNumber := SequenceNumber (header p);
                  Timestamp := Timestamp (header p);
                  SSRC := SSRC (header p);
                  CSRC := CSRC (header p) |};
     Payload := Payload p |}.

(** [binary.BigEndian] *)
Definition beUint16 (b0 b1 : byte) : Z :=
  Z.lor (u8 b1) (Z.shiftl (u8 b0) 8).

Definition beUint32 (b0 b1 b2 b3 : byte) : Z :=
  Z.lor (Z.lor (Z.lor (u8 b3) (Z.shiftl (u8 b2) 8)) (Z.shiftl (u8 b1) 16))
        (Z.shiftl (u8 b0) 24).

Definition putUint16 (v : Z) : list byte :=
  [byte_of (Z.shiftr v 8); byte_of v].

Definition putUint32 (v : Z) : list byte :=
  [byte_of (Z.shiftr v 24); byte_of (Z.shiftr v 16); byte_of (Z.shiftr v 8); byte_of v].

Definition bit (b : bool) (shift : Z) : Z :=
  if b then Z.shiftl 1 shift else 0.

(** Modelled from the spec: reads [n] contributing-source identifiers, four
    bytes each; fails when the buffer ends first. *)
Fixpoint readCSRC (n : nat) (buf : list byte) : option (list Z * list byte) :=
  match n with
  | O => Some ([], buf)
  | S n' =>
      match buf with
      | c0 :: c1 :: c2 :: c3 :: buf' =>
          match readCSRC n' buf' with
          | Some (cs, rest) => Some (beUint32 c0 c1 c2 c3 :: cs, rest)
          | None => None
          end
      | _ => None
      end
  end.

(** Modelled from the spec: header decode ([Packet.Unmarshal]).  The payload
    type is the low seven bits of the second byte, the marker its top bit. *)
Definition Unmarshal (buf : list byte) : result Packet :=
  match buf with
  | b0 :: b1 :: s0 :: s1 :: t0 :: t1 :: t2 :: t3 :: r0 :: r1 :: r2 :: r3 :: after =>
      let nCSRC := Z.to_nat (Z.land (u8 b0) 15) in
      match readCSRC nCSRC after with
      | Some (cs, rest) =>
          Ok {| header := {| Version := Z.land (Z.shiftr (u8 b0) 6) 3;
                             Padding := 0 <? Z.land (Z.shiftr (u8 b0) 5) 1;
                             Extension := 0 <? Z.land (Z.shiftr (u8 b0) 4) 1;
                             Marker := 0 <? Z.land (Z.shiftr (u8 b1) 7) 1;
                             PayloadType := Z.land (u8 b1) 127;
                             SequenceNumber := beUint16 s0 s1;
                             Timestamp := beUint32 t0 t1 t2 t3;
                             SSRC := beUint32 r0 r1 r2 r3;
                             CSRC := cs |};
                Payload := rest |}
      | None => Fail (ErrorString "RTP header size insufficient")
      end
  | _ => Fail (ErrorString "RTP header size insufficient")
  end.

(** Modelled from the spec: the bytes of the re-encoded header.  The second
    byte is the payload type with the marker bit set on top of it. *)
Definition headerBytes (h : Header) : list byte :=
  byte_of (Z.lor (Z.lor (Z.lor (Z.shiftl (Version h) 6) (Z.of_nat (length (CSRC h))))
                        (bit (Padding h) 5))
                 (bit (Extension h) 4))
  :: byte_of (Z.lor (PayloadType h) (bit (Marker h) 7))
  :: putUint16 (SequenceNumber h)
  ++ putUint32 (Timestamp h)
  ++ putUint32 (SSRC h)
  ++ flat_map putUint32 (CSRC h).

Definition packetBytes (p : Packet) : list byte :=
  headerBytes (header p) ++ Payload p.

(** Modelled from the spec: re-encode into the caller's buffer
    ([Packet.MarshalTo]).  Returns the buffer with the packet written at its
    start and the number of bytes written; fails when the buffer is too
    small. *)
Definition MarshalTo (p : Packet) (buf : list byte) : result (list byte * nat) :=
  let bytes := packetBytes p in
  if (length buf <? length bytes)%nat
  then Fail (ErrorString "buffer too small")
  else Ok (bytes ++ drop (length bytes) buf, length bytes).

End Rtp.

(** ** The relay of [setupMediaForwarding] *)

(** [udpConn]: the destination of one media kind.  The socket itself is the
    operating system's; the value keeps what the program stores. *)
Record udpConn := {
  port : Z;
  payloadType : Z    (* uint8 *)
}.

(** What [net.ResolveUDPAddr] and [net.DialUDP] answer for an address. *)
Class Net := {
  ResolveUDPAddr : string -> Z -> option goError;
  DialUDP : string -> Z -> option goError
}.

(** [createUDPConnection] *)
Definition createUDPConnection `{Net} (address : string) (port : Z) (payloadType : Z)
  : result udpConn :=
  let udpConnection := {| port := port; payloadType := payloadType |} in
  match ResolveUDPAddr address port with
  | Some resolveRemoteErr => Fail resolveRemoteErr
  | None =>
      match DialUDP address port with
      | Some udpConnErr => Fail udpConnErr
      | None => Ok udpConnection
      end
  end.

(** A failed [createUDPConnection] leaves a nil pointer. *)
Definition connOrNil (r : result udpConn) : option udpConn :=
  match r with
  | Ok c => Some c
  | Fail _ => None
  end.

(** [setupMediaForwarding], the part before [OnTrack]: the video and the audio
    destination, each with the configured payload type converted to [uint8]. *)
Definition setupMediaForwarding `{Net} (cfg : Config) : option udpConn * option udpConn :=
  let videoUDPConn :=
    connOrNil (createUDPConnection (ForwardingAddress cfg) (RTPVideoForwardingPort cfg)
                                   (uint8 (RTPVideoPayloadType cfg))) in
  let audioUDPConn :=
    connOrNil (createUDPConnection (ForwardingAddress cfg) (RTPAudioForwardingPort cfg)
                                   (uint8 (RTPAudioPayloadType cfg))) in
  (videoUDPConn, audioUDPConn).

Inductive Kind := Audio | Video | OtherKind.

(** The [switch trackType] of the [OnTrack] handler; an unsupported kind
    leaves [udpConnection] nil. *)
Definition selectConn (trackType : Kind) (videoUDPConn audioUDPConn : option udpConn)
  : option udpConn :=
  match trackType with
  | Audio => audioUDPConn
  | Video => videoUDPConn
  | OtherKind => None
  end.

(** One turn of the relay's [for] loop meets the environment twice: the
    outcome of [track.Read] and, if the turn gets that far, the outcome of
    [conn.Write]. *)
Inductive ReadResult :=
| ReadOk (frame : list byte)
| ReadErr (e : goError).

Record Turn := {
  readResult : ReadResult;
  writeError : option goError
}.

(** The relay's state: the reusable buffer [b] and what was handed to
    [conn.Write], oldest first, each with what the write returned. *)
Record Relay := {
  b : list byte;
  written : list (list byte * option goError)
}.

Definition newRelay : Relay :=
  {| b := replicate 1500 x00; written := [] |}.

Inductive Control :=
| Continue
| Panic (e : goError).

(** The test of the write error: a [net.OpError] whose wrapped error reads
    [write: connection refused]. *)
Definition isConnectionRefused (e : goError) : bool :=
  match e with
  | OpError _ inner => bool_decide (inner = "write: connection refused")
  | ErrorString _ => false
  end.

(** [track.Read(b)]: the frame is copied to the start of [b]; a frame larger
    than the buffer is a read error. *)
Definition trackRead (r : ReadResult) (buf : list byte) : result (list byte * nat) :=
  match r with
  | ReadErr e => Fail e
  | ReadOk frame =>
      if (length buf <? length frame)%nat
      then Fail (ErrorString "short buffer")
      else Ok (frame ++ drop (length frame) buf, length frame)
  end.

(** The body of the relay's [for] loop.  The variable [err] the loop assigns
    is the one of [setupMediaForwarding], which the handlers of all tracks
    share; a turn is taken here as one step, so that each test reads the
    error assigned just before it. *)
Definition relayTurn (udpConnection : option udpConn) (t : Turn) (r : Relay)
  : Relay * Control :=
  match trackRead (readResult t) (b r) with
  | Fail readErr => (r, Panic readErr)
  | Ok (b1, n) =>
      let r1 := {| b := b1; written := written r |} in
      match Rtp.Unmarshal (take n b1) with
      | Fail err => (r1, Panic err)
      | Ok rtpPacket =>
          match udpConnection with
          | None => (r1, Panic (ErrorString "invalid memory address or nil pointer dereference"))
          | Some conn =>
              let rtpPacket := Rtp.setPayloadType rtpPacket (payloadType conn) in
              match Rtp.MarshalTo rtpPacket b1 with
              | Fail err => (r1, Panic err)
              | Ok (b2, n) =>
                  let r2 := {| b := b2; written := written r ++ [(take n b2, writeError t)] |} in
                  match writeError t with
                  | None => (r2, Continue)
                  | Some err =>
                      if isConnectionRefused err then (r2, Continue) else (r2, Panic err)
                  end
              end
          end
      end
  end.

(** How a relay loop stands once the given turns are used up. *)
Inductive LoopEnd :=
| AwaitingRead
| Panicked (e : goError).

(** The relay's [for] loop over the turns the environment offers. *)
Fixpoint relayLoop (udpConnection : option udpConn) (turns : list Turn) (r : Relay)
  : Relay * LoopEnd :=
  match turns with
  | [] => (r, AwaitingRead)
  | t :: turns' =>
      match relayTurn udpConnection t r with
      | (r', Continue) => relayLoop udpConnection turns' r'
      | (r', Panic e) => (r', Panicked e)
      end
  end.

(** The relay goroutines of one process.  [OnTrack] runs its handler in a
    goroutine per track; the handler never recovers from a panic, and no
    other code of the program does, so a panic in any of them ends the
    program: from then on no goroutine takes a turn. *)
Record Goroutine := {
  udpConnection : option udpConn;
  relay : Relay;
  turns : list Turn          (* what the environment still holds for this track *)
}.

Record Process := {
  tracks : list Goroutine;
  crashed : option goError
}.

(** The goroutine at index [i] runs one turn of its loop. *)
Definition processStep (i : nat) (p : Process) : Process :=
  match crashed p with
  | Some _ => p
  | None =>
      match tracks p !! i with
      | None => p
      | Some g =>
          match turns g with
          | [] => p
          | t :: rest =>
              let (r', c) := relayTurn (udpConnection g) t (relay g) in
              let g' := {| udpConnection := udpConnection g; relay := r'; turns := rest |} in
              {| tracks := <[i := g']> (tracks p);
                 crashed := match c with Continue => None | Panic e => Some e end |}
          end
      end
  end.

(** The process under a schedule: which goroutine takes the next turn. *)
Definition processRun (schedule : list nat) (p : Process) : Process :=
  foldl (fun p i => processStep i p) p schedule.

(** ** The RTCP feedback ticker of [setupMediaForwarding] *)

(** [time.Duration] counts nanoseconds. *)
Definition Millisecond : Z := 1000000.

(** The period handed to [time.NewTicker]. *)
Definition tickerPeriod (cfg : Config) : Z := Millisecond * 2000.

Definition uint32 (z : Z) : Z := Z.land z (Z.ones 32).

(** Conversion of an unsigned integer to [float32], the result read back as
    the integer it denotes: 24 significant bits, ties to even. *)
Definition float32 (n : Z) : Z :=
  let e := Z.log2 n - 23 in
  if e <=? 0 then n
  else
    let q := Z.shiftr n e in
    let r := Z.land n (Z.ones e) in
    let half := Z.shiftl 1 (e - 1) in
    let q' := if r <? half then q
              else if half <? r then q + 1
              else if Z.even q then q else q + 1 in
    Z.shiftl q' e.

Inductive rtcpPacket :=
| PictureLossIndication (MediaSSRC : Z)
| ReceiverEstimatedMaximumBitrate (Bitrate : Z) (SSRCs : list Z).

(** The body of [for range ticker.C]: the packet slices handed to
    [WriteRTCP], in order.  A failed [WriteRTCP] is printed and changes
    nothing else. *)
Definition feedbackTick (cfg : Config) (ssrc : Z) : list (list rtcpPacket) :=
  (if RTCPSendPLI cfg then [[PictureLossIndication (uint32 ssrc)]] else [])
  ++ (if RTCPSendREMB cfg
      then [[ReceiverEstimatedMaximumBitrate (float32 (REMB cfg)) [uint32 ssrc]]]
      else []).

(** The feedback sent during the first [elapsed] nanoseconds after the ticker
    started, each slice with the time of its tick. *)
Definition feedbackUntil (cfg : Config) (ssrc : Z) (elapsed : Z)
  : list (Z * list rtcpPacket) :=
  flat_map (fun k => map (pair (Z.of_nat k * tickerPeriod cfg)) (feedbackTick cfg ssrc))
           (seq 1 (Z.to_nat (elapsed / tickerPeriod cfg))).

(** ** Signaling *)

Inductive SDPType := SDPTypeOffer | SDPTypePranswer | SDPTypeAnswer | SDPTypeRollback.

(** [webrtc.SessionDescription] *)
Record SessionDescription := {
  sdpType : SDPType;
  SDP : string
}.

(** [webrtc.ICECandidateInit] *)
Record ICECandidateInit := {
  candidateLine : string;
  SDPMid : option string;
  SDPMLineIndex : option Z;
  UsernameFragment : option string
}.

(** [ueICECandidateResp] *)
Record ueICECandidateResp := {
  respType : string;
  respCandidate : ICECandidateInit
}.

(** The transport engine, as far as the program calls it.  A call returns the
    engine's next state with its answer. *)
Class Engine := {
  PeerConnection : Type;
  ICECandidate : Type;
  SetLocalDescription : PeerConnection -> SessionDescription -> PeerConnection * option goError;
  SetRemoteDescription : PeerConnection -> SessionDescription -> PeerConnection * option goError;
  RemoteDescription : PeerConnection -> option SessionDescription;
  CreateAnswer : PeerConnection -> PeerConnection * result SessionDescription;
  AddICECandidate : PeerConnection -> ICECandidateInit -> PeerConnection * option goError;
  ToJSON : ICECandidate -> ICECandidateInit;
  candidateString : option ICECandidate -> string
}.

(** The websocket connection's write side. *)
Class Websocket := {
  Conn : Type;
  WriteMessage : Conn -> string -> Conn * option goError
}.

(** [encoding/json] at the types the program decodes and encodes.  A
    [json.RawMessage] is kept as its text; a key absent from the decoded
    object reads as the empty text. *)
Class Json := {
  unmarshalObject : string -> result (gmap string string);
  unmarshalString : string -> result string;
  unmarshalInt : string -> result Z;
  unmarshalSessionDescription : string -> result SessionDescription;
  unmarshalICECandidateInit : string -> result ICECandidateInit;
  marshalSessionDescription : SessionDescription -> result string;
  marshalICECandidateResp : ueICECandidateResp -> result string
}.

(** What the program does that can be observed from outside, in order. *)
Inductive Event :=
| Log (line : string)
| Print (line : string)
| CallSetLocalDescription (sdp : SessionDescription)
| CallSetRemoteDescription (sdp : SessionDescription)
| CallCreateAnswer
| CallAddICECandidate (init : ICECandidateInit)
| CallWriteMessage (msg : string)
| CallClose.

Definition isOutput (e : Event) : bool :=
  match e with
  | Log _ | Print _ => true
  | _ => false
  end.

(** The calls made, without the log and the console lines. *)
Definition calls (tr : list Event) : list Event :=
  omap (fun e => if isOutput e then None else Some e) tr.

(** The text messages written to the websocket, oldest first. *)
Definition sent (tr : list Event) : list string :=
  omap (fun e => match e with CallWriteMessage m => Some m | _ => None end) tr.

(** One result of [wsConn.ReadMessage]. *)
Inductive WsRead :=
| Message (messageType : Z) (message : string)
| ReadFailed (e : goError).

(** How one turn of the control loop ends. *)
Inductive Flow := Next | Break | Return.

Inductive LoopExit :=
| AwaitingMessage      (* blocked in [ReadMessage]: nothing more to read yet *)
| Broke                (* left by [break] *)
| Returned.            (* left by [return] *)

Section Program.
Context `{Engine, Websocket, Json}.

(** The state the goroutines of [main] share. *)
Record World := {
  peerConnection : PeerConnection;
  wsConn : Conn;
  pendingCandidates : list ICECandidate;
  trace : list Event
}.

(** A small state monad over [World]. *)
Definition M (A : Type) : Type := World -> A * World.

Definition ret {A} (a : A) : M A := fun w => (a, w).

Definition bind {A B} (m : M A) (k : A -> M B) : M B :=
  fun w => let (a, w') := m w in k a w'.

Notation "x <- m ;; k" := (bind m (fun x => k))
  (at level 100, m at next level, right associativity).
Notation "m ;; k" := (bind m (fun _ => k))
  (at level 100, right associativity).

Definition emit (e : Event) : M unit :=
  fun w => (tt, {| peerConnection := peerConnection w; wsConn := wsConn w;
                   pendingCandidates := pendingCandidates w;
                   trace := trace w ++ [e] |}).

Definition log (line : string) : M unit := emit (Log line).
Definition println (line : string) : M unit := emit (Print line).

(** A call into the engine: the call is recorded and the engine moves on. *)
Definition engine {A} (e : Event) (call : PeerConnection -> PeerConnection * A) : M A :=
  fun w => let (pc, a) := call (peerConnection w) in
           (a, {| peerConnection := pc; wsConn := wsConn w;
                  pendingCandidates := pendingCandidates w;
                  trace := trace w ++ [e] |}).

Definition setLocalDescription (sdp : SessionDescription) : M (option goError) :=
  engine (CallSetLocalDescription sdp) (fun pc => SetLocalDescription pc sdp).

Definition setRemoteDescription (sdp : SessionDescription) : M (option goError) :=
  engine (CallSetRemoteDescription sdp) (fun pc => SetRemoteDescription pc sdp).

Definition remoteDescription : M (option SessionDescription) :=
  fun w => (RemoteDescription (peerConnection w), w).

Definition getPending : M (list ICECandidate) :=
  fun w => (pendingCandidates w, w).

(** [pendingCandidates = append(pendingCandidates, c)] *)
Definition appendPending (c : ICECandidate) : M unit :=
  fun w => (tt, {| peerConnection := peerConnection w; wsConn := wsConn w;
                   pendingCandidates := pendingCandidates w ++ [c];
                   trace := trace w |}).

Definition wsWrite (msg : string) : M (option goError) :=
  fun w => let (c, err) := WriteMessage (wsConn w) msg in
           (err, {| peerConnection := peerConnection w; wsConn := c;
                    pendingCandidates := pendingCandidates w;
                    trace := trace w ++ [CallWriteMessage msg] |}).

(** [writeWSMessage] *)
Definition writeWSMessage (msg : string) : M unit :=
  err <- wsWrite msg ;;
  match err with
  | Some e => log (sprintln2 "Error writing websocket message: " (Error e))
  | None => ret tt
  end.

(** The text [sendLocalIceCandidate] writes for a candidate: its JSON, or the
    empty text when [json.Marshal] fails. *)
Definition candidateMessage (c : ICECandidate) : string :=
  match marshalICECandidateResp {| respType := "iceCandidate"; respCandidate := ToJSON c |} with
  | Ok jsonPayload => jsonPayload
  | Fail _ => ""
  end.

(** [sendLocalIceCandidate] *)
Definition sendLocalIceCandidate (localIceCandidate : ICECandidate) : M unit :=
  let iceCandidateInit := ToJSON localIceCandidate in
  let respPayload := {| respType := "iceCandidate"; respCandidate := iceCandidateInit |} in
  match marshalICECandidateResp respPayload with
  | Fail err =>
      log ("Error turning local ice candidate into JSON. Error: " +:+ Error err) ;;
      writeWSMessage "" ;;
      println "Sending our local ice candidate to UE..."
  | Ok jsonStr =>
      writeWSMessage jsonStr ;;
      println ("Sending our local ice candidate to UE..." +:+ jsonStr)
  end.

(** The [for ... range] over the pending candidates, the slice already read. *)
Fixpoint sendAll (cs : list ICECandidate) : M unit :=
  match cs with
  | [] => ret tt
  | c :: cs' => sendLocalIceCandidate c ;; sendAll cs'
  end.

(** [handleRemoteAnswer] *)
Definition handleRemoteAnswer (message : string) : M unit :=
  match unmarshalSessionDescription message with
  | Fail unmarshalError =>
      log ("Error occured during unmarshaling sdp. Error: " +:+ Error unmarshalError)
  | Ok sdp =>
      sdpErr <- setLocalDescription sdp ;;
      match sdpErr with
      | Some e => log ("Error occured setting local session description. Error: " +:+ Error e)
      | None =>
          log "Success set local session description" ;;
          sdpErr <- setRemoteDescription sdp ;;
          match sdpErr with
          | Some e => log ("Error occured setting remote session description. Error: " +:+ Error e)
          | None =>
              log "Success set remote session description" ;;
              println "Added session description from UE to Pion." ;;
              pending <- getPending ;;
              sendAll pending
          end
      end
  end.

(** [handleRemoteIceCandidate] *)
Definition handleRemoteIceCandidate (message : string) : M unit :=
  match unmarshalICECandidateInit message with
  | Fail jsonErr => log ("Error unmarshaling ice candidate. Error: " +:+ Error jsonErr)
  | Ok iceCandidateInit =>
      candidateErr <- engine (CallAddICECandidate iceCandidateInit)
                             (fun pc => AddICECandidate pc iceCandidateInit) ;;
      match candidateErr with
      | Some e => log ("Error adding remote ice candidate. Error: " +:+ Error e)
      | None => println "Added remote ice candidate from UE"
      end
  end.

(** [createAnswer]: the answer text and the error handed back. *)
Definition createAnswer : M (string * option goError) :=
  r <- engine CallCreateAnswer CreateAnswer ;;
  match r with
  | Fail err =>
      log (sprintln2 "Error creating peer connection answer: " (Error err)) ;;
      ret ("", Some err)
  | Ok answer =>
      err <- setLocalDescription answer ;;
      match err with
      | Some e => log (sprintln2 "Error setting remote description of peer connection: " (Error e))
      | None => ret tt
      end ;;
      match marshalSessionDescription answer with
      | Fail err =>
          log (sprintln2 "Error unmarshalling json from offer object: " (Error err)) ;;
          ret ("", Some err)
      | Ok answerString => ret (answerString, None)
      end
  end.

(** [sendAnswer] *)
Definition sendAnswer : M unit :=
  r <- createAnswer ;;
  match snd r with
  | Some err => log ("Error creating answer. Error: " +:+ Error err)
  | None =>
      writeWSMessage (fst r) ;;
      println "Sending answer..." ;;
      println (fst r)
  end.

(** The [switch pixelStreamingMessageType] of [startControlLoop]. *)
Definition dispatch (pixelStreamingMessageType : string) (message : string)
    (objmap : gmap string string) : M Flow :=
  if String.eqb pixelStreamingMessageType "playerCount" then
    match unmarshalInt (objmap !!! "count") with
    | Fail err =>
        log ("Error unmarshaling player count. Error: " +:+ Error err) ;;
        println ("Player count is: " +:+ pretty 0) ;;
        ret Next
    | Ok playerCount =>
        println ("Player count is: " +:+ pretty playerCount) ;;
        ret Next
    end
  else if String.eqb pixelStreamingMessageType "config" then
    println "Got config message, ToDO: react based on config that was passed." ;;
    ret Next
  else if String.eqb pixelStreamingMessageType "answer" then
    handleRemoteAnswer message ;;
    ret Next
  else if String.eqb pixelStreamingMessageType "iceCandidate" then
    handleRemoteIceCandidate (objmap !!! "candidate") ;;
    ret Next
  else if String.eqb pixelStreamingMessageType "offer" then
    match unmarshalSessionDescription message with
    | Fail unmarshalError =>
        log ("Error occured during unmarshaling sdp. Error: " +:+ Error unmarshalError) ;;
        ret Return
    | Ok sdp =>
        err <- setRemoteDescription sdp ;;
        match err with
        | Some e => log (sprintln2 "Error setting remote description of peer connection: " (Error e))
        | None => ret tt
        end ;;
        sendAnswer ;;
        ret Next
    end
  else
    log ("Got message we do not specifically handle, type was: " +:+ pixelStreamingMessageType) ;;
    ret Next.

(** The body of the [for] loop of [startControlLoop], from the result of
    [ReadMessage] on. *)
Definition controlTurn (r : WsRead) : M Flow :=
  match r with
  | ReadFailed err =>
      log ("Websocket read message error: " +:+ Error err) ;;
      log "Closing Pion websocket control loop." ;;
      emit CallClose ;;
      ret Break
  | Message messageType message =>
      println (sprintln2 colorGreen
                 (sprintln2 ("Received message, (type=" +:+ pretty messageType +:+ "): " +:+ message)
                            colorReset)) ;;
      match unmarshalObject message with
      | Fail err =>
          log ("Error unmarshalling bytes from websocket message. Error: " +:+ Error err) ;;
          ret Next
      | Ok objmap =>
          match unmarshalString (objmap !!! "type") with
          | Fail err =>
              log ("Error unmarshaling type from pixel streaming message. Error: " +:+ Error err) ;;
              ret Next
          | Ok pixelStreamingMessageType =>
              dispatch pixelStreamingMessageType message objmap
          end
      end
  end.

(** [startControlLoop] over the results [ReadMessage] yields, in order.  The
    loop hands back how it ended and what it left unread. *)
Fixpoint startControlLoop (inbox : list WsRead) : M (LoopExit * list WsRead) :=
  match inbox with
  | [] => ret (AwaitingMessage, [])
  | r :: inbox' =>
      flow <- controlTurn r ;;
      match flow with
      | Next => startControlLoop inbox'
      | Break => ret (Broke, inbox')
      | Return => ret (Returned, inbox')
      end
  end.

(** The callback [main] registers with [OnICECandidate]; a nil candidate is
    [None]. *)
Definition onICECandidate (localIceCandidate : option ICECandidate) : M unit :=
  log "OnICECandidate" ;;
  log (candidateString localIceCandidate) ;;
  match localIceCandidate with
  | None => ret tt
  | Some c =>
      desc <- remoteDescription ;;
      match desc with
      | None =>
          appendPending c ;;
          log "Added local ICE candidate that we will send off later..."
      | Some _ => sendLocalIceCandidate c
      end
  end.

(** *** Runs in which callbacks and control-loop turns do not overlap *)

Inductive Input :=
| Signal (r : WsRead)
| Discovered (c : option ICECandidate).

(** The inputs in order, each handled to its end before the next.  When the
    control loop ends, [main] returns and the process with it. *)
Fixpoint run (inputs : list Input) : M (option LoopExit) :=
  match inputs with
  | [] => ret None
  | Discovered c :: inputs' => onICECandidate c ;; run inputs'
  | Signal r :: inputs' =>
      flow <- controlTurn r ;;
      match flow with
      | Next => run inputs'
      | Break => ret (Some Broke)
      | Return => ret (Some Returned)
      end
  end.

(** *** Interleaving of the callback with the answer handler

    The callback runs on a goroutine of the engine, [handleRemoteAnswer] on
    the goroutine of [main]; the program takes no lock.  Each of the two is
    cut at its accesses to shared state: the engine calls, the read of the
    remote description, the read of the slice that [range] iterates over, the
    append, and each websocket write. *)

Inductive HandlerPc :=
| HStart (message : string)
| HSetLocal (sdp : SessionDescription)
| HSetRemote (sdp : SessionDescription)
| HRange
| HSend (rest : list ICECandidate)
| HDone.

Inductive CallbackPc :=
| CStart (c : option ICECandidate)
| CReadDesc (c : ICECandidate)
| CAppend (c : ICECandidate)
| CSend (c : ICECandidate)
| CDone.

Definition stepHandler (pc : HandlerPc) : M HandlerPc :=
  match pc with
  | HStart message =>
      match unmarshalSessionDescription message with
      | Fail unmarshalError =>
          log ("Error occured during unmarshaling sdp. Error: " +:+ Error unmarshalError) ;;
          ret HDone
      | Ok sdp => ret (HSetLocal sdp)
      end
  | HSetLocal sdp =>
      sdpErr <- setLocalDescription sdp ;;
      match sdpErr with
      | Some e =>
          log ("Error occured setting local session description. Error: " +:+ Error e) ;;
          ret HDone
      | None =>
          log "Success set local session description" ;;
          ret (HSetRemote sdp)
      end
  | HSetRemote sdp =>
      sdpErr <- setRemoteDescription sdp ;;
      match sdpErr with
      | Some e =>
          log ("Error occured setting remote session description. Error: " +:+ Error e) ;;
          ret HDone
      | None =>
          log "Success set remote session description" ;;
          println "Added session description from UE to Pion." ;;
          ret HRange
      end
  | HRange =>
      pending <- getPending ;;
      ret (HSend pending)
  | HSend [] => ret HDone
  | HSend (c :: rest) =>
      sendLocalIceCandidate c ;;
      ret (HSend rest)
  | HDone => ret HDone
  end.

Definition stepCallback (pc : CallbackPc) : M CallbackPc :=
  match pc with
  | CStart localIceCandidate =>
      log "OnICECandidate" ;;
      log (candidateString localIceCandidate) ;;
      match localIceCandidate with
      | None => ret CDone
      | Some c => ret (CReadDesc c)
      end
  | CReadDesc c =>
      desc <- remoteDescription ;;
      match desc with
      | None => ret (CAppend c)
      | Some _ => ret (CSend c)
      end
  | CAppend c =>
      appendPending c ;;
      log "Added local ICE candidate that we will send off later..." ;;
      ret CDone
  | CSend c =>
      sendLocalIceCandidate c ;;
      ret CDone
  | CDone => ret CDone
  end.

Inductive Tid := Handler | Callback.

Record Threads := {
  handlerPc : HandlerPc;
  callbackPc : CallbackPc;
  shared : World
}.

Definition threadStep (t : Tid) (s : Threads) : Threads :=
  match t with
  | Handler =>
      let (pc, w) := stepHandler (handlerPc s) (shared s) in
      {| handlerPc := pc; callbackPc := callbackPc s; shared := w |}
  | Callback =>
      let (pc, w) := stepCallback (callbackPc s) (shared s) in
      {| handlerPc := handlerPc s; callbackPc := pc; shared := w |}
  end.

(** The two goroutines under a schedule. *)
Definition interleave (schedule : list Tid) (s : Threads) : Threads :=
  foldl (fun s t => threadStep t s) s schedule.

Definition finished (s : Threads) : Prop :=
  handlerPc s = HDone /\ callbackPc s = CDone.

(** A schedule in which one goroutine takes all its steps before the other
    takes its first. *)
Definition nonOverlapping (schedule : list Tid) : Prop :=
  exists n m,
    schedule = replicate n Callback ++ replicate m Handler
    \/ schedule = replicate n Handler ++ replicate m Callback.

(** What is left of [handleRemoteAnswer] at a program point. *)
Definition finishHandler (pc : HandlerPc) : M unit :=
  match pc with
  | HStart message => handleRemoteAnswer message
  | HSetLocal sdp =>
      sdpErr <- setLocalDescription sdp ;;
      match sdpErr with
      | Some e => log ("Error occured setting local session description. Error: " +:+ Error e)
      | None =>
          log "Success set local session description" ;;
          sdpErr <- setRemoteDescription sdp ;;
          match sdpErr with
          | Some e => log ("Error occured setting remote session description. Error: " +:+ Error e)
          | None =>
              log "Success set remote session description" ;;
              println "Added session description from UE to Pion." ;;
              pending <- getPending ;;
              sendAll pending
          end
      end
  | HSetRemote sdp =>
      sdpErr <- setRemoteDescription sdp ;;
      match sdpErr with
      | Some e => log ("Error occured setting remote session description. Error: " +:+ Error e)
      | None =>
          log "Success set remote session description" ;;
          println "Added session description from UE to Pion." ;;
          pending <- getPending ;;
          sendAll pending
      end
  | HRange => pending <- getPending ;; sendAll pending
  | HSend rest => sendAll rest
  | HDone => ret tt
  end.

(** What is left of the candidate callback at a program point. *)
Definition finishCallback (pc : CallbackPc) : M unit :=
  match pc with
  | CStart localIceCandidate => onICECandidate localIceCandidate
  | CReadDesc c =>
      desc <- remoteDescription ;;
      match desc with
      | None =>
          appendPending c ;;
          log "Added local ICE candidate that we will send off later..."
      | Some _ => sendLocalIceCandidate c
      end
  | CAppend c =>
      appendPending c ;;
      log "Added local ICE candidate that we will send off later..."
  | CSend c => sendLocalIceCandidate c
  | CDone => ret tt
  end.

(** [w'] is [w] after the calls [evs], with the engine in state [pc] and the
    buffer as it was. *)
Definition reaches (w : World) (pc : PeerConnection) (evs : list Event) (w' : World) : Prop :=
  peerConnection w' = pc
  /\ pendingCandidates w' = pendingCandidates w
  /\ calls (trace w') = calls (trace w) ++ evs.

(** The same with the engine as it was. *)
Definition after (w : World) (evs : list Event) (w' : World) : Prop :=
  reaches w (peerConnection w) evs w'.

(** A computation that leaves the buffer of pending candidates alone. *)
Definition keepsPending {A} (m : M A) : Prop :=
  forall w, pendingCandidates (snd (m w)) = pendingCandidates w.

End Program.

(** ** Sample values *)

(** The flag value the relay of a kind is configured with. *)
Definition configuredPayloadType (cfg : Config) (trackType : Kind) : Z :=
  match trackType with
  | Video => RTPVideoPayloadType cfg
  | Audio => RTPAudioPayloadType cfg
  | OtherKind => 0
  end.

(** A network on which every destination resolves and dials. *)
Definition openNet : Net :=
  {| ResolveUDPAddr := fun _ _ => None; DialUDP := fun _ _ => None |}.

(** An RTP frame: version 2, no padding, no extension, no contributing
    source, marker clear, payload type 96, then a payload of four bytes. *)
Definition sampleFrame : list byte :=
  [x80; x60; x00; x01; x00; x00; x00; x0a; xde; xad; xbe; xef; x01; x02; x03; x04].

(** The same frame with the marker set. *)
Definition sampleMarkerFrame : list byte :=
  [x80; xe0; x00; x02; x00; x00; x00; x0a; xde; xad; xbe; xef; x05; x06; x07; x08].

Definition connectionRefused : goError :=
  OpError "write" "write: connection refused".

Definition withVideoPayloadType (pt : Z) : Config :=
  {| CirrusPort := 80; CirrusAddress := "localhost"; ForwardingAddress := "127.0.0.1";
     RTPVideoForwardingPort := 4002; RTPAudioForwardingPort := 4000;
     RTPAudioPayloadType := 111; RTPVideoPayloadType := pt;
     RTCPIntervalMs := 2000; RTCPSendPLI := true; RTCPSendREMB := true;
     REMB := 400000000 |}.

Definition withInterval (ms : Z) : Config :=
  {| CirrusPort := 80; CirrusAddress := "localhost"; ForwardingAddress := "127.0.0.1";
     RTPVideoForwardingPort := 4002; RTPAudioForwardingPort := 4000;
     RTPAudioPayloadType := 111; RTPVideoPayloadType := 125;
     RTCPIntervalMs := ms; RTCPSendPLI := true; RTCPSendREMB := true;
     REMB := 400000000 |}.

(** A process with a video relay whose source fails on the first read and an
    audio relay with one good frame waiting. *)
Definition sampleProcess : Process :=
  {| tracks :=
       [ {| udpConnection := Some {| port := 4002; payloadType := 125 |};
            relay := newRelay;
            turns := [ {| readResult := ReadErr (ErrorString "EOF"); writeError := None |} ] |};
         {| udpConnection := Some {| port := 4000; payloadType := 111 |};
            relay := newRelay;
            turns := [ {| readResult := ReadOk sampleFrame; writeError := None |} ] |} ];
     crashed := None |}.

(** What each goroutine of a process has handed to its socket. *)
Definition processWritten (p : Process) : list (list (list byte * option goError)) :=
  map (fun g => written (relay g)) (tracks p).

(** A transport engine for the examples: it keeps the descriptions it is
    given, answers every offer, and can be set to refuse local or remote
    descriptions or to fail at creating an answer.  Candidates are their
    candidate lines. *)
Record SamplePc := {
  localDesc : option SessionDescription;
  remoteDesc : option SessionDescription;
  refuseLocal : bool;
  refuseRemote : bool;
  failCreateAnswer : bool
}.

Definition sampleAnswer : SessionDescription :=
  {| sdpType := SDPTypeAnswer; SDP := "v=0 answer" |}.

Definition sampleEngine : Engine := {|
  PeerConnection := SamplePc;
  ICECandidate := string;
  SetLocalDescription := fun pc sdp =>
    if refuseLocal pc then (pc, Some (ErrorString "InvalidModificationError"))
    else ({| localDesc := Some sdp; remoteDesc := remoteDesc pc;
             refuseLocal := refuseLocal pc; refuseRemote := refuseRemote pc;
             failCreateAnswer := failCreateAnswer pc |}, None);
  SetRemoteDescription := fun pc sdp =>
    if refuseRemote pc then (pc, Some (ErrorString "InvalidModificationError"))
    else ({| localDesc := localDesc pc; remoteDesc := Some sdp;
             refuseLocal := refuseLocal pc; refuseRemote := refuseRemote pc;
             failCreateAnswer := failCreateAnswer pc |}, None);
  RemoteDescription := remoteDesc;
  CreateAnswer := fun pc =>
    if failCreateAnswer pc then (pc, Fail (ErrorString "no remote description"))
    else (pc, Ok sampleAnswer);
  AddICECandidate := fun pc _ => (pc, None);
  ToJSON := fun c =>
    {| candidateLine := c; SDPMid := None; SDPMLineIndex := None; UsernameFragment := None |};
  candidateString := fun c => match c with Some line => line | None => "<nil>" end
|}.

(** A fresh engine that accepts everything. *)
Definition freshPc : SamplePc :=
  {| localDesc := None; remoteDesc := None;
     refuseLocal := false; refuseRemote := false; failCreateAnswer := false |}.

(** A fresh engine that refuses every local description. *)
Definition refusingLocalPc : SamplePc :=
  {| localDesc := None; remoteDesc := None;
     refuseLocal := true; refuseRemote := false; failCreateAnswer := false |}.

(** A websocket whose writes succeed. *)
Definition sampleWebsocket : Websocket :=
  {| Conn := unit; WriteMessage := fun _ _ => (tt, None) |}.

(** Sample message texts. *)
Definition quote : string := String "034"%char EmptyString.

Definition jsonString (s : string) : string := quote +:+ s +:+ quote.

Definition jsonObject2 (k1 v1 k2 v2 : string) : string :=
  "{" +:+ jsonString k1 +:+ ":" +:+ v1 +:+ "," +:+ jsonString k2 +:+ ":" +:+ v2 +:+ "}".

Definition offerText : string :=
  jsonObject2 "type" (jsonString "offer") "sdp" (jsonString "v=0 offer").

Definition malformedOfferText : string :=
  jsonObject2 "type" (jsonString "offer") "sdp" "5".

Definition answerText : string :=
  jsonObject2 "type" (jsonString "answer") "sdp" (jsonString "v=0 remote").

Definition playerCountText : string :=
  jsonObject2 "type" (jsonString "playerCount") "count" "3".

Definition remoteAnswer : SessionDescription :=
  {| sdpType := SDPTypeAnswer; SDP := "v=0 remote" |}.

Definition remoteOffer : SessionDescription :=
  {| sdpType := SDPTypeOffer; SDP := "v=0 offer" |}.

Definition sdpTypeName (t : SDPType) : string :=
  match t with
  | SDPTypeOffer => "offer"
  | SDPTypePranswer => "pranswer"
  | SDPTypeAnswer => "answer"
  | SDPTypeRollback => "rollback"
  end.

Fixpoint decimal (s : string) (acc : Z) : option Z :=
  match s with
  | EmptyString => Some acc
  | String ch s' =>
      let d := Z.of_nat (Ascii.nat_of_ascii ch) - 48 in
      if (0 <=? d) && (d <=? 9) then decimal s' (10 * acc + d) else None
  end.

(** A decoder for the examples.  It knows the sample texts and rejects every
    other text; a raw string value is a text between two quotes, a raw number
    a run of decimal digits. *)
Definition sampleJson : Json := {|
  unmarshalObject := fun message =>
    if String.eqb message offerText
    then Ok {[ "type" := jsonString "offer"; "sdp" := jsonString "v=0 offer" ]}
    else if String.eqb message malformedOfferText
    then Ok {[ "type" := jsonString "offer"; "sdp" := "5" ]}
    else if String.eqb message answerText
    then Ok {[ "type" := jsonString "answer"; "sdp" := jsonString "v=0 remote" ]}
    else if String.eqb message playerCountText
    then Ok {[ "type" := jsonString "playerCount"; "count" := "3" ]}
    else Fail (ErrorString "invalid character looking for beginning of value");
  unmarshalString := fun raw =>
    let n := String.length raw in
    if (2 <=? n)%nat && String.eqb (String.substring 0 1 raw) quote
       && String.eqb (String.substring (n - 1) 1 raw) quote
    then Ok (String.substring 1 (n - 2) raw)
    else Fail (ErrorString "cannot unmarshal into Go value of type string");
  unmarshalInt := fun raw =>
    match raw with
    | EmptyString => Fail (ErrorString "unexpected end of JSON input")
    | _ => match decimal raw 0 with
           | Some n => Ok n
           | None => Fail (ErrorString "cannot unmarshal into Go value of type int")
           end
    end;
  unmarshalSessionDescription := fun message =>
    if String.eqb message offerText then Ok remoteOffer
    else if String.eqb message answerText then Ok remoteAnswer
    else Fail (ErrorString "cannot unmarshal number into Go struct field SessionDescription.sdp of type string");
  unmarshalICECandidateInit := fun raw =>
    Fail (ErrorString "unexpected end of JSON input");
  marshalSessionDescription := fun sdp =>
    Ok (jsonObject2 "type" (jsonString (sdpTypeName (sdpType sdp))) "sdp" (jsonString (SDP sdp)));
  marshalICECandidateResp := fun resp =>
    Ok (jsonObject2 "type" (jsonString (respType resp))
                    "candidate" (jsonString (candidateLine (respCandidate resp))))
|}.

(** The world of the sample instances. *)
Definition sampleWorld (pc : SamplePc) (pending : list string) : @World sampleEngine sampleWebsocket :=
  @Build_World sampleEngine sampleWebsocket pc tt pending [].

Definition sampleCandidateMessage (line : string) : string :=
  jsonObject2 "type" (jsonString "iceCandidate") "candidate" (jsonString line).

(** The answer handler and the callback for one candidate, both about to
    start, on a fresh engine with an empty buffer. *)
Definition sampleThreads : @Threads sampleEngine sampleWebsocket :=
  @Build_Threads sampleEngine sampleWebsocket
    (@HStart sampleEngine answerText) (@CStart sampleEngine (Some "candidate:1"))
    (sampleWorld freshPc []).

(** The handler parses the answer and applies it as local description; the
    callback starts and reads the remote description, still absent; the
    handler applies the remote description and reads the buffer, still
    empty; the callback appends; the handler's loop over the empty slice
    ends. *)
Definition lossySchedule : list Tid :=
  [Handler; Handler; Callback; Callback; Handler; Handler; Callback; Handler].

(** ** Further definitions: the loop's exit, whole runs, the relay over many
    frames, and the start of [main] *)

(** How a turn of the control loop ends, read off the message alone: a failed
    read breaks, an "offer" whose payload does not parse returns, everything
    else goes on. *)
Definition loopExitOf `{Json} (r : WsRead) : Flow :=
  match r with
  | ReadFailed _ => Break
  | Message _ message =>
      match unmarshalObject message with
      | Fail _ => Next
      | Ok objmap =>
          match unmarshalString (objmap !!! "type") with
          | Fail _ => Next
          | Ok pixelStreamingMessageType =>
              if String.eqb pixelStreamingMessageType "offer"
              then match unmarshalSessionDescription message with
                   | Fail _ => Return
                   | Ok _ => Next
                   end
              else Next
          end
      end
  end.

Definition exitOfFlow (f : Flow) : LoopExit :=
  match f with
  | Next => AwaitingMessage
  | Break => Broke
  | Return => Returned
  end.

Section Runs.
Context `{Engine, Websocket, Json}.

(** The non-nil candidates among the inputs, in order. *)
Definition discovered (inputs : list Input) : list ICECandidate :=
  omap (fun i => match i with Discovered (Some c) => Some c | _ => None end) inputs.

(** A run of discoveries only. *)
Definition discoveries (cs : list ICECandidate) : list Input :=
  map (fun c => Discovered (Some c)) cs.

(** A computation that only adds to the trace. *)
Definition extendsTrace {A} (m : M A) : Prop :=
  forall w, exists tr, trace (snd (m w)) = trace w ++ tr.

End Runs.

(** *** The callback overlapping the answer handler, under any schedule *)

Section Overlap.
Context `{Engine, Websocket, Json}.

(** The two goroutines, one in [handleRemoteAnswer] on [message] and one in
    the callback for the candidate [c], started on [w] and run under
    [schedule]. *)
Definition overlapped (message : string) (c : ICECandidate) (w : World)
    (schedule : list Tid) : Threads :=
  interleave schedule
    {| handlerPc := HStart message; callbackPc := CStart (Some c); shared := w |}.

(** What the callback for [c] has done at a program point: [cw] is what it has
    written to the websocket, [appended] whether it has appended [c]. *)
Definition callbackAt (c : ICECandidate) (pc : CallbackPc) (cw : list string)
    (appended : bool) : Prop :=
  match pc with
  | CStart x => x = Some c /\ cw = [] /\ appended = false
  | CReadDesc x | CAppend x | CSend x => x = c /\ cw = [] /\ appended = false
  | CDone =>
      (cw = [candidateMessage c] /\ appended = false) \/ (cw = [] /\ appended = true)
  end.

(** What the handler has done at a program point: [hdone] are the candidates
    it has sent.  Past the read of the slice, [hdone] followed by what is left
    to send is the buffer as it was at the start, or that buffer with [c]
    appended. *)
Definition handlerAt (pending0 : list ICECandidate) (c : ICECandidate) (pc : HandlerPc)
    (hdone : list ICECandidate) (appended : bool) : Prop :=
  match pc with
  | HSend rest =>
      hdone ++ rest = pending0 \/ (hdone ++ rest = pending0 ++ [c] /\ appended = true)
  | HDone =>
      hdone = [] \/ hdone = pending0 \/ (hdone = pending0 ++ [c] /\ appended = true)
  | _ => hdone = []
  end.

(** The invariant of the two goroutines started on [w0]: the messages written
    since are those of the handler and of the callback in some order, and the
    buffer is the one of [w0], with [c] at its end once appended. *)
Definition overlapInv (w0 : World) (c : ICECandidate) (s : Threads) : Prop :=
  exists (hdone : list ICECandidate) (cw : list string) (appended : bool)
         (written : list string),
    sent (trace (shared s)) = sent (trace w0) ++ written
    /\ written ≡ₚ map candidateMessage hdone ++ cw
    /\ pendingCandidates (shared s)
       = pendingCandidates w0 ++ (if appended then [c] else [])
    /\ callbackAt c (callbackPc s) cw appended
    /\ handlerAt (pendingCandidates w0) c (handlerPc s) hdone appended.

(** The same for an "answer" that is applied: [message] parses as [sdp], the
    engine in the state of [w0] accepts [sdp] as local description and goes
    to [pc1], where it accepts it as remote description.  The handler then
    takes no early return, and at its end it has sent all it read. *)
Definition handlerAtApplied (pc0 pc1 : PeerConnection) (message : string)
    (sdp : SessionDescription) (pending0 : list ICECandidate) (c : ICECandidate)
    (w : World) (pc : HandlerPc) (hdone : list ICECandidate) (appended : bool) : Prop :=
  match pc with
  | HStart m => m = message /\ peerConnection w = pc0 /\ hdone = []
  | HSetLocal sdp' => sdp' = sdp /\ peerConnection w = pc0 /\ hdone = []
  | HSetRemote sdp' => sdp' = sdp /\ peerConnection w = pc1 /\ hdone = []
  | HRange => hdone = []
  | HSend rest =>
      hdone ++ rest = pending0 \/ (hdone ++ rest = pending0 ++ [c] /\ appended = true)
  | HDone => hdone = pending0 \/ (hdone = pending0 ++ [c] /\ appended = true)
  end.

Definition appliedInv (w0 : World) (message : string) (sdp : SessionDescription)
    (pc1 : PeerConnection) (c : ICECandidate) (s : Threads) : Prop :=
  exists (hdone : list ICECandidate) (cw : list string) (appended : bool)
         (written : list string),
    sent (trace (shared s)) = sent (trace w0) ++ written
    /\ written ≡ₚ map candidateMessage hdone ++ cw
    /\ pendingCandidates (shared s)
       = pendingCandidates w0 ++ (if appended then [c] else [])
    /\ callbackAt c (callbackPc s) cw appended
    /\ handlerAtApplied (peerConnection w0) pc1 message sdp (pendingCandidates w0) c
                        (shared s) (handlerPc s) hdone appended.

End Overlap.

(** The frame a turn reads; empty when the read fails. *)
Definition frameOf (t : Turn) : list byte :=
  match readResult t with
  | ReadOk frame => frame
  | ReadErr _ => []
  end.

(** The frame as the relay writes it for a target. *)
Definition rewritten (target : udpConn) (frame : list byte) : list byte :=
  match Rtp.Unmarshal frame with
  | Ok p => Rtp.packetBytes (Rtp.setPayloadType p (payloadType target))
  | Fail _ => []
  end.

(** A turn the relay gets through: the frame is read, fits a buffer of [size]
    bytes and decodes, and the write succeeds or is refused. *)
Definition relayable (size : nat) (t : Turn) : Prop :=
  (exists frame p,
     readResult t = ReadOk frame /\ (length frame <= size)%nat
     /\ Rtp.Unmarshal frame = Ok p)
  /\ forall e, writeError t = Some e -> isConnectionRefused e = true.

(** *** The start of [main] *)

Inductive RTPCodecType := RTPCodecTypeAudio | RTPCodecTypeVideo.

(** What [createPeerConnection] asks of the engine: a new connection (default
    codecs, unified plan) and a receive-only transceiver of a kind. *)
Class EngineSetup `{Engine} := {
  NewPeerConnection : result PeerConnection;
  AddTransceiverFromKind : PeerConnection -> RTPCodecType -> PeerConnection * option goError
}.

(** [websocket.DefaultDialer.Dial] *)
Class Dialer `{Websocket} := {
  Dial : string -> result Conn
}.

(** How [main] ends. *)
Inductive MainExit :=
| Fatal (e : goError)       (* [log.Fatal]: the process exits, no deferred call runs *)
| Panics (e : goError)
| Returns (how : LoopExit)  (* the control loop ended and [main] returned *)
| Waits.                    (* the control loop is blocked in [ReadMessage] *)

(** What the deferred calls of [main] close. *)
Inductive Closed :=
| ClosedWebsocket
| ClosedUDP (port : Z).

Section Startup.
Context `{Engine, Websocket, Json, Net}.
Context `{!EngineSetup, !Dialer}.

(** [createPeerConnection]: the log lines and the connection or the error. *)
Definition createPeerConnection : list Event * result PeerConnection :=
  match NewPeerConnection with
  | Fail err =>
      ([Log (sprintln2 "Error making new peer connection: " (Error err))], Fail err)
  | Ok peerConnection =>
      match AddTransceiverFromKind peerConnection RTPCodecTypeAudio with
      | (_, Some err) =>
          ([Log (sprintln2 "Error adding RTP audio transceiver: " (Error err))], Fail err)
      | (peerConnection, None) =>
          match AddTransceiverFromKind peerConnection RTPCodecTypeVideo with
          | (_, Some err) =>
              ([Log (sprintln2 "Error adding RTP video transceiver: " (Error err))], Fail err)
          | (peerConnection, None) => ([], Ok peerConnection)
          end
      end
  end.

(** The lines [setupMediaForwarding] logs for the destinations it could not
    create, video first.  The source hands each line to [fmt.Sprintf] as a
    format without operands; the line is given here as it comes out for an
    error text without a percent sign. *)
Definition setupMediaForwardingLog (cfg : Config) : list Event :=
  match createUDPConnection (ForwardingAddress cfg) (RTPVideoForwardingPort cfg)
                            (uint8 (RTPVideoPayloadType cfg)) with
  | Fail err => [Log ("Error creating udp connection for video: " +:+ Error err)]
  | Ok _ => []
  end
  ++ match createUDPConnection (ForwardingAddress cfg) (RTPAudioForwardingPort cfg)
                               (uint8 (RTPAudioPayloadType cfg)) with
     | Fail err => [Log ("Error creating udp connection for audio: " +:+ Error err)]
     | Ok _ => []
     end.

(** The address [main] dials. *)
Definition serverURL (cfg : Config) : string :=
  "ws://" +:+ CirrusAddress cfg +:+ ":" +:+ pretty (CirrusPort cfg) +:+ "/".

Record MainRun := {
  mainExit : MainExit;
  deferredCalls : list Closed;   (* in the order they run *)
  mainTrace : list Event
}.

Definition nilDereference : goError :=
  ErrorString "invalid memory address or nil pointer dereference".

(** [main] after [flag.Parse], over the inputs that reach the process, each
    handled to its end before the next.  A [defer] evaluates the receiver of
    the deferred call when it is executed, so [defer videoUDP.conn.Close()]
    on a nil [videoUDP] panics there; deferred calls run last in, first out,
    also when [main] panics. *)
Definition main (cfg : Config) (inputs : list Input) : MainRun :=
  match Dial (serverURL cfg) with
  | Fail err =>
      {| mainExit := Fatal err; deferredCalls := [];
         mainTrace := [Log ("Websocket dialing error: " +:+ Error err)] |}
  | Ok wsConn =>
      match createPeerConnection with
      | (logs, Fail err) =>
          {| mainExit := Panics err; deferredCalls := [ClosedWebsocket]; mainTrace := logs |}
      | (logs, Ok peerConnection) =>
          let logs := logs ++ setupMediaForwardingLog cfg in
          let (videoUDP, audioUDP) := setupMediaForwarding cfg in
          match videoUDP with
          | None =>
              {| mainExit := Panics nilDereference; deferredCalls := [ClosedWebsocket];
                 mainTrace := logs |}
          | Some video =>
              match audioUDP with
              | None =>
                  {| mainExit := Panics nilDereference;
                     deferredCalls := [ClosedUDP (port video); ClosedWebsocket];
                     mainTrace := logs |}
              | Some audio =>
                  let (how, w) :=
                    run inputs {| peerConnection := peerConnection; wsConn := wsConn;
                                  pendingCandidates := []; trace := logs |} in
                  match how with
                  | None => {| mainExit := Waits; deferredCalls := []; mainTrace := trace w |}
                  | Some exit =>
                      {| mainExit := Returns exit;
                         deferredCalls := [ClosedUDP (port audio); ClosedUDP (port video);
                                           ClosedWebsocket];
                         mainTrace := trace w |}
                  end
              end
          end
      end
  end.

End Startup.

(** *** More sample values *)

Definition candidateText : string :=
  jsonObject2 "type" (jsonString "iceCandidate") "candidate" (jsonString "candidate:9").

Definition remoteCandidate : ICECandidateInit :=
  {| candidateLine := "candidate:9"; SDPMid := None; SDPMLineIndex := None;
     UsernameFragment := None |}.

(** The sample decoder, knowing a remote candidate message as well, and with
    an encoder that gives up on the candidate line [unencodable]. *)
Definition sampleJsonWithCandidates : Json := {|
  unmarshalObject := fun message =>
    if String.eqb message candidateText
    then Ok {[ "type" := jsonString "iceCandidate"; "candidate" := jsonString "candidate:9" ]}
    else @unmarshalObject sampleJson message;
  unmarshalString := @unmarshalString sampleJson;
  unmarshalInt := @unmarshalInt sampleJson;
  unmarshalSessionDescription := @unmarshalSessionDescription sampleJson;
  unmarshalICECandidateInit := fun raw =>
    if String.eqb raw (jsonString "candidate:9") then Ok remoteCandidate
    else Fail (ErrorString "unexpected end of JSON input");
  marshalSessionDescription := @marshalSessionDescription sampleJson;
  marshalICECandidateResp := fun resp =>
    if String.eqb (candidateLine (respCandidate resp)) "unencodable"
    then Fail (ErrorString "json: unsupported value")
    else @marshalICECandidateResp sampleJson resp
|}.

(** An engine set to fail at creating an answer. *)
Definition noAnswerPc : SamplePc :=
  {| localDesc := None; remoteDesc := None;
     refuseLocal := false; refuseRemote := false; failCreateAnswer := true |}.

(** An engine that refuses remote descriptions. *)
Definition refusingRemotePc : SamplePc :=
  {| localDesc := None; remoteDesc := None;
     refuseLocal := false; refuseRemote := true; failCreateAnswer := false |}.

(** An engine that already holds a remote description. *)
Definition negotiatedPc : SamplePc :=
  {| localDesc := Some sampleAnswer; remoteDesc := Some remoteOffer;
     refuseLocal := false; refuseRemote := false; failCreateAnswer := false |}.

(** A longer frame: the sample frame with a payload of eight bytes. *)
Definition sampleLongFrame : list byte :=
  [x80; x60; x00; x03; x00; x00; x00; x0b; xde; xad; xbe; xef;
   x11; x12; x13; x14; x15; x16; x17; x18].

(** A network on which the audio port cannot be dialled. *)
Definition noAudioNet : Net :=
  {| ResolveUDPAddr := fun _ _ => None;
     DialUDP := fun _ port => if port =? 4000 then Some (ErrorString "dial udp: refused") else None |}.

Definition sampleSetup : @EngineSetup sampleEngine :=
  @Build_EngineSetup sampleEngine (Ok freshPc) (fun pc _ => (pc, None)).

Definition sampleDialer : @Dialer sampleWebsocket :=
  @Build_Dialer sampleWebsocket (fun _ => Ok tt).

(** * Properties *)

(** ** Bytes and big-endian words *)

Lemma u8_range (x : byte) : 0 <= u8 x < 256.
Proof.
  unfold u8. pose proof (Byte.to_N_bounded x). lia.
Qed.

Lemma uint8_mod (z : Z) : uint8 z = z mod 256.
Proof.
  unfold uint8. change 255 with (Z.ones 8). rewrite Z.land_ones by lia. reflexivity.
Qed.

Lemma uint8_small (z : Z) : 0 <= z < 256 -> uint8 z = z.
Proof.
  intros Hz. rewrite uint8_mod. apply Z.mod_small. exact Hz.
Qed.

Lemma byte_of_u8 (x : byte) : byte_of (u8 x) = x.
Proof.
  unfold byte_of. rewrite uint8_small by apply u8_range.
  unfold u8. rewrite N2Z.id, Byte.of_to_N. reflexivity.
Qed.

Lemma u8_byte_of (z : Z) : u8 (byte_of z) = uint8 z.
Proof.
  unfold byte_of, u8.
  assert (Hr : 0 <= uint8 z < 256)
    by (rewrite uint8_mod; apply Z.mod_pos_bound; lia).
  destruct (Byte.of_N (Z.to_N (uint8 z))) as [x|] eqn:E.
  - apply Byte.to_of_N in E. rewrite E. lia.
  - apply Byte.of_N_None_iff in E. lia.
Qed.

Lemma byte_of_uint8 (z z' : Z) : uint8 z = uint8 z' -> byte_of z = byte_of z'.
Proof.
  unfold byte_of. intros ->. reflexivity.
Qed.

(** A low part below [2^k] under a high part shifted by [k] adds up. *)
Lemma lor_shiftl_add (lo hi k : Z) :
  0 <= k -> 0 <= lo < 2 ^ k -> Z.lor lo (Z.shiftl hi k) = lo + hi * 2 ^ k.
Proof.
  intros Hk Hlo.
  rewrite <- Z.shiftl_mul_pow2 by lia.
  symmetry. apply Z.add_nocarry_lor.
  apply Z.bits_inj'. intros n Hn.
  rewrite Z.land_spec, Z.bits_0.
  destruct (Z.lt_ge_cases n k) as [Hlt|Hge].
  - rewrite Z.shiftl_spec_low by lia. apply andb_false_r.
  - destruct (Z.eq_dec lo 0) as [->|Hne].
    + rewrite Z.bits_0. reflexivity.
    + rewrite (Z.bits_above_log2 lo n); [reflexivity | lia |].
      apply Z.lt_le_trans with k; [|lia].
      apply Z.log2_lt_pow2; lia.
Qed.

Lemma beUint16_value (b0 b1 : byte) : Rtp.beUint16 b0 b1 = u8 b1 + u8 b0 * 256.
Proof.
  unfold Rtp.beUint16. pose proof (u8_range b1).
  rewrite lor_shiftl_add; lia.
Qed.

Lemma beUint32_value (b0 b1 b2 b3 : byte) :
  Rtp.beUint32 b0 b1 b2 b3 = u8 b3 + u8 b2 * 256 + u8 b1 * 65536 + u8 b0 * 16777216.
Proof.
  unfold Rtp.beUint32.
  pose proof (u8_range b0). pose proof (u8_range b1).
  pose proof (u8_range b2). pose proof (u8_range b3).
  rewrite (lor_shiftl_add (u8 b3)) by lia.
  rewrite (lor_shiftl_add (u8 b3 + _)) by lia.
  rewrite (lor_shiftl_add (u8 b3 + _ + _)) by lia.
  lia.
Qed.

Lemma byte_of_shiftr (v k : Z) (x : byte) :
  0 <= k -> (v / 2 ^ k) mod 256 = u8 x -> byte_of (Z.shiftr v k) = x.
Proof.
  intros Hk Hv. rewrite <- (byte_of_u8 x). apply byte_of_uint8.
  rewrite !uint8_mod, Z.shiftr_div_pow2 by lia.
  rewrite Hv. symmetry. apply Z.mod_small, u8_range.
Qed.

Lemma byte_of_low (v : Z) (x : byte) : v mod 256 = u8 x -> byte_of v = x.
Proof.
  intros Hv. rewrite <- (byte_of_u8 x). apply byte_of_uint8.
  rewrite !uint8_mod, Hv. symmetry. apply Z.mod_small, u8_range.
Qed.

Lemma putUint16_beUint16 (b0 b1 : byte) :
  Rtp.putUint16 (Rtp.beUint16 b0 b1) = [b0; b1].
Proof.
  unfold Rtp.putUint16. rewrite beUint16_value.
  pose proof (u8_range b0). pose proof (u8_range b1).
  f_equal; [|f_equal].
  - apply byte_of_shiftr; [lia|]. change (2 ^ 8) with 256.
    Z.div_mod_to_equations. lia.
  - apply byte_of_low. Z.div_mod_to_equations. lia.
Qed.

Lemma putUint32_beUint32 (b0 b1 b2 b3 : byte) :
  Rtp.putUint32 (Rtp.beUint32 b0 b1 b2 b3) = [b0; b1; b2; b3].
Proof.
  unfold Rtp.putUint32. rewrite beUint32_value.
  pose proof (u8_range b0). pose proof (u8_range b1).
  pose proof (u8_range b2). pose proof (u8_range b3).
  repeat f_equal.
  - apply byte_of_shiftr; [lia|]. change (2 ^ 24) with 16777216.
    Z.div_mod_to_equations. lia.
  - apply byte_of_shiftr; [lia|]. change (2 ^ 16) with 65536.
    Z.div_mod_to_equations. lia.
  - apply byte_of_shiftr; [lia|]. change (2 ^ 8) with 256.
    Z.div_mod_to_equations. lia.
  - apply byte_of_low. Z.div_mod_to_equations. lia.
Qed.

(** The contributing sources written back are the bytes they were read
    from. *)
Lemma readCSRC_bytes (n : nat) : forall (buf : list byte) (cs : list Z) (rest : list byte),
  Rtp.readCSRC n buf = Some (cs, rest) ->
  flat_map Rtp.putUint32 cs ++ rest = buf /\ length cs = n.
Proof.
  induction n as [|n IH]; intros buf cs rest Hr; simpl in Hr.
  - inversion Hr; subst. split; reflexivity.
  - destruct buf as [|c0 [|c1 [|c2 [|c3 buf']]]]; try discriminate.
    destruct (Rtp.readCSRC n buf') as [[cs' rest']|] eqn:E; [|discriminate].
    inversion Hr; subst. destruct (IH _ _ _ E) as [Hb Hl].
    split.
    + cbn [flat_map]. rewrite putUint32_beUint32. simpl. rewrite Hb. reflexivity.
    + simpl. rewrite Hl. reflexivity.
Qed.

(** The first header byte: version, padding, extension and source count
    put together again give the byte they were taken from. *)
Lemma first_byte_roundtrip (x : byte) :
  byte_of (Z.lor (Z.lor (Z.lor (Z.shiftl (Z.land (Z.shiftr (u8 x) 6) 3) 6)
                               (Z.of_nat (Z.to_nat (Z.land (u8 x) 15))))
                        (Rtp.bit (0 <? Z.land (Z.shiftr (u8 x) 5) 1) 5))
                 (Rtp.bit (0 <? Z.land (Z.shiftr (u8 x) 4) 1) 4)) = x.
Proof.
  destruct x; vm_compute; reflexivity.
Qed.

(** The second header byte after the rewrite, for a payload type of seven
    bits: marker kept, payload type replaced. *)
Lemma second_byte_rewrite (x : byte) (pt : Z) :
  0 <= pt < 128 ->
  u8 (byte_of (Z.lor pt (Rtp.bit (0 <? Z.land (Z.shiftr (u8 x) 7) 1) 7)))
  = pt + Z.land (u8 x) 128.
Proof.
  intros Hpt. rewrite u8_byte_of.
  assert (Hm : Rtp.bit (0 <? Z.land (Z.shiftr (u8 x) 7) 1) 7 = Z.land (u8 x) 128)
    by (destruct x; vm_compute; reflexivity).
  rewrite Hm.
  assert (Hc : Z.land (u8 x) 128 = 0 \/ Z.land (u8 x) 128 = 128)
    by (destruct x; vm_compute; auto).
  destruct Hc as [-> | ->].
  - rewrite Z.lor_0_r, Z.add_0_r. apply uint8_small. lia.
  - change 128 with (Z.shiftl 1 7) at 1.
    rewrite lor_shiftl_add by (change (2 ^ 7) with 128; lia).
    change (2 ^ 7) with 128. apply uint8_small. lia.
Qed.

(** ** The relay: what a forwarded frame looks like *)

(** Re-encoding a decoded frame with another payload type gives the frame
    back with its second byte replaced. *)
Lemma packetBytes_setPayloadType (frame : list byte) (p : Rtp.Packet) (pt : Z) :
  Rtp.Unmarshal frame = Ok p ->
  exists b0 b1 tail,
    frame = b0 :: b1 :: tail
    /\ Rtp.Marker (Rtp.header p) = (0 <? Z.land (Z.shiftr (u8 b1) 7) 1)
    /\ Rtp.packetBytes (Rtp.setPayloadType p pt)
       = b0 :: byte_of (Z.lor pt (Rtp.bit (Rtp.Marker (Rtp.header p)) 7)) :: tail.
Proof.
  unfold Rtp.Unmarshal. intros Hu.
  destruct frame as [|b0 [|b1 [|s0 [|s1 [|t0 [|t1 [|t2 [|t3 [|r0 [|r1 [|r2 [|r3 after]]]]]]]]]]]];
    try discriminate.
  destruct (Rtp.readCSRC _ after) as [[cs rest]|] eqn:E; [|discriminate].
  inversion Hu; subst p; clear Hu.
  destruct (readCSRC_bytes _ _ _ _ E) as [Hb Hl].
  exists b0, b1, (s0 :: s1 :: t0 :: t1 :: t2 :: t3 :: r0 :: r1 :: r2 :: r3 :: after).
  split; [reflexivity|]. split; [reflexivity|].
  unfold Rtp.packetBytes, Rtp.setPayloadType, Rtp.headerBytes. cbn [Rtp.header Rtp.Version Rtp.Padding
    Rtp.Extension Rtp.Marker Rtp.PayloadType Rtp.SequenceNumber Rtp.Timestamp Rtp.SSRC Rtp.CSRC
    Rtp.Payload].
  rewrite Hl, first_byte_roundtrip, putUint16_beUint16, !putUint32_beUint32.
  cbn [app]. rewrite Hb. reflexivity.
Qed.

Lemma packetBytes_length (frame : list byte) (p : Rtp.Packet) (pt : Z) :
  Rtp.Unmarshal frame = Ok p ->
  length (Rtp.packetBytes (Rtp.setPayloadType p pt)) = length frame.
Proof.
  intros Hu. destruct (packetBytes_setPayloadType frame p pt Hu) as (b0 & b1 & tail & -> & _ & ->).
  reflexivity.
Qed.

Lemma MarshalTo_fits (p : Rtp.Packet) (buf : list byte) :
  (length (Rtp.packetBytes p) <= length buf)%nat ->
  Rtp.MarshalTo p buf
  = Ok (Rtp.packetBytes p ++ drop (length (Rtp.packetBytes p)) buf, length (Rtp.packetBytes p)).
Proof.
  intros Hl. unfold Rtp.MarshalTo.
  destruct (length buf <? length (Rtp.packetBytes p))%nat eqn:E; [|reflexivity].
  apply Nat.ltb_lt in E. lia.
Qed.

(** A turn that reaches [conn.Write] hands it the frame re-encoded. *)
Lemma relayTurn_written (conn : option udpConn) (t : Turn) (r r' : Relay) (c : Control)
    (out : list byte) (werr : option goError) :
  relayTurn conn t r = (r', c) ->
  written r' = written r ++ [(out, werr)] ->
  exists frame p target,
    readResult t = ReadOk frame /\ conn = Some target /\ (length frame <= length (b r))%nat
    /\ Rtp.Unmarshal frame = Ok p
    /\ out = Rtp.packetBytes (Rtp.setPayloadType p (payloadType target))
    /\ werr = writeError t.
Proof.
  assert (Hno : forall l : list (list byte * option goError), l <> l ++ [(out, werr)]).
  { intros l Hl. apply (f_equal length) in Hl. rewrite length_app in Hl. simpl in Hl. lia. }
  unfold relayTurn, trackRead. intros Ht Hw.
  destruct (readResult t) as [frame|e] eqn:Hr.
  2:{ inversion Ht; subst. exfalso. exact (Hno _ Hw). }
  destruct (length (b r) <? length frame)%nat eqn:Hlen.
  { inversion Ht; subst. exfalso. exact (Hno _ Hw). }
  apply Nat.ltb_ge in Hlen.
  rewrite take_app_length in Ht.
  destruct (Rtp.Unmarshal frame) as [p|e] eqn:Hu.
  2:{ inversion Ht; subst. exfalso. exact (Hno _ Hw). }
  destruct conn as [target|].
  2:{ inversion Ht; subst. exfalso. exact (Hno _ Hw). }
  rewrite MarshalTo_fits in Ht
    by (rewrite (packetBytes_length frame p _ Hu), length_app, length_drop; lia).
  rewrite take_app_length in Ht.
  exists frame, p, target.
  assert (Hw' : written r' = written r ++ [(Rtp.packetBytes (Rtp.setPayloadType p (payloadType target)), writeError t)]).
  { destruct (writeError t) as [err|]; [destruct (isConnectionRefused err)|];
      inversion Ht; subst; reflexivity. }
  rewrite Hw' in Hw. apply app_inj_tail in Hw. destruct Hw as [_ Hw]. inversion Hw; subst.
  repeat split; try reflexivity; assumption.
Qed.

Lemma byte_split (y : byte) : Z.land (u8 y) 127 + Z.land (u8 y) 128 = u8 y.
Proof.
  destruct y; vm_compute; reflexivity.
Qed.

Lemma byte_low7 (y : byte) : Z.land (u8 y) 127 = u8 y mod 128.
Proof.
  change 127 with (Z.ones 7). rewrite Z.land_ones by lia. reflexivity.
Qed.

Lemma byte_top_bit (y : byte) : Z.land (u8 y) 128 = 0 \/ Z.land (u8 y) 128 = 128.
Proof.
  destruct y; vm_compute; auto.
Qed.

(** C2 (amended): when the target's payload type fits the seven bits of the
    field (below 128), a forwarded frame has the length of the received frame,
    every byte but the second is unchanged, and the second byte keeps its
    marker bit and carries the target's payload type in its low seven bits. *)
Theorem C2_forward_rewrites_only_payload_type
    (target : udpConn) (t : Turn) (r r' : Relay) (c : Control)
    (frame out : list byte) (werr : option goError) :
  0 <= payloadType target < 128 ->
  readResult t = ReadOk frame ->
  relayTurn (Some target) t r = (r', c) ->
  written r' = written r ++ [(out, werr)] ->
  length out = length frame
  /\ (forall i : nat, i <> 1%nat -> out !! i = frame !! i)
  /\ exists x y : byte,
       frame !! 1%nat = Some x /\ out !! 1%nat = Some y
       /\ Z.land (u8 y) 127 = payloadType target
       /\ Z.land (u8 y) 128 = Z.land (u8 x) 128.
Proof.
  intros Hpt Hr Ht Hw.
  destruct (relayTurn_written _ _ _ _ _ _ _ Ht Hw)
    as (frame' & p & target' & Hr' & Htg & _ & Hu & Hout & _).
  rewrite Hr in Hr'. inversion Hr'; subst frame'. inversion Htg; subst target'.
  destruct (packetBytes_setPayloadType frame p (payloadType target) Hu)
    as (b0 & b1 & tail & Hf & Hm & Hb).
  rewrite Hb in Hout. subst out frame. rewrite Hm.
  split; [reflexivity|]. split.
  - intros [|[|i]] Hi; [reflexivity | congruence | reflexivity].
  - exists b1, (byte_of (Z.lor (payloadType target)
                               (Rtp.bit (0 <? Z.land (Z.shiftr (u8 b1) 7) 1) 7))).
    split; [reflexivity|]. split; [reflexivity|].
    pose proof (second_byte_rewrite b1 (payloadType target) Hpt) as Hy.
    remember (byte_of (Z.lor (payloadType target)
                             (Rtp.bit (0 <? Z.land (Z.shiftr (u8 b1) 7) 1) 7))) as y eqn:Ey.
    pose proof (byte_split y) as Hs. pose proof (byte_low7 y) as Hl.
    destruct (byte_top_bit b1) as [H0|H0]; rewrite H0 in *;
      assert (Hlow : Z.land (u8 y) 127 = payloadType target)
        by (rewrite Hl, Hy; Z.div_mod_to_equations; lia);
      split; try exact Hlow; lia.
Qed.

(** C2, an instance: the sample frame (payload type 96) relayed to a target
    configured with 125. *)
Lemma C2_forward_rewrites_only_payload_type_witness :
  let out := [x80; x7d; x00; x01; x00; x00; x00; x0a; xde; xad; xbe; xef; x01; x02; x03; x04] in
  length out = length sampleFrame
  /\ (forall i : nat, i <> 1%nat -> out !! i = sampleFrame !! i)
  /\ exists x y : byte,
       sampleFrame !! 1%nat = Some x /\ out !! 1%nat = Some y
       /\ Z.land (u8 y) 127 = 125
       /\ Z.land (u8 y) 128 = Z.land (u8 x) 128.
Proof.
  intros out.
  apply (C2_forward_rewrites_only_payload_type
           {| port := 4002; payloadType := 125 |}
           {| readResult := ReadOk sampleFrame; writeError := None |}
           newRelay
           {| b := out ++ replicate 1484 x00; written := [(out, None)] |}
           Continue sampleFrame out None).
  - simpl. lia.
  - reflexivity.
  - vm_compute. reflexivity.
  - reflexivity.
Defined.

(** C2 as stated fails for a configured payload type of 128 or more: with 200
    the forwarded frame's payload-type field reads 72, and the marker bit,
    clear in the received frame, is set. *)
Lemma C2_counterexample :
  exists (r' : Relay) (out : list byte) (y : byte),
    relayTurn (Some {| port := 4002; payloadType := 200 |})
              {| readResult := ReadOk sampleFrame; writeError := None |} newRelay
    = (r', Continue)
    /\ written r' = [(out, None)]
    /\ sampleFrame !! 1%nat = Some x60
    /\ out !! 1%nat = Some y
    /\ Z.land (u8 y) 127 = 72
    /\ Z.land (u8 x60) 128 = 0
    /\ Z.land (u8 y) 128 = 128.
Proof.
  eexists _, _, _. vm_compute. repeat split; reflexivity.
Qed.

(** The relay forwards: a frame that decodes and fits the buffer reaches the
    socket. *)
Lemma relayTurn_forwards (target : udpConn) (frame : list byte) (p : Rtp.Packet)
    (werr : option goError) (r : Relay) :
  (length frame <= length (b r))%nat ->
  Rtp.Unmarshal frame = Ok p ->
  exists r',
    fst (relayTurn (Some target) {| readResult := ReadOk frame; writeError := werr |} r) = r'
    /\ written r' = written r
         ++ [(Rtp.packetBytes (Rtp.setPayloadType p (payloadType target)), werr)].
Proof.
  intros Hl Hu. eexists. split; [reflexivity|].
  unfold relayTurn, trackRead. cbn [readResult writeError].
  assert (Hlt : (length (b r) <? length frame)%nat = false) by (apply Nat.ltb_ge; lia).
  rewrite Hlt, take_app_length, Hu.
  rewrite MarshalTo_fits
    by (rewrite (packetBytes_length frame p _ Hu), length_app, length_drop; lia).
  rewrite take_app_length.
  destruct werr as [err|]; [destruct (isConnectionRefused err)|]; reflexivity.
Qed.

(** ** The configured payload type *)

Lemma setupMediaForwarding_payloadType `{Net} (cfg : Config) (trackType : Kind)
    (target : udpConn) :
  selectConn trackType (fst (setupMediaForwarding cfg)) (snd (setupMediaForwarding cfg))
  = Some target ->
  payloadType target = configuredPayloadType cfg trackType mod 256.
Proof.
  unfold setupMediaForwarding, createUDPConnection, selectConn, connOrNil. cbn [fst snd].
  destruct trackType; cbn [configuredPayloadType]; [| |discriminate].
  - destruct (ResolveUDPAddr _ (RTPAudioForwardingPort cfg)); [discriminate|].
    destruct (DialUDP _ (RTPAudioForwardingPort cfg)); [discriminate|].
    intros Hs. inversion Hs. cbn. apply uint8_mod.
  - destruct (ResolveUDPAddr _ (RTPVideoForwardingPort cfg)); [discriminate|].
    destruct (DialUDP _ (RTPVideoForwardingPort cfg)); [discriminate|].
    intros Hs. inversion Hs. cbn. apply uint8_mod.
Qed.

(** The second byte [MarshalTo] writes for a payload type of eight bits [pt]
    over a frame whose second byte was [x]: [pt] with the marker bit of [x]
    set on top.  The low seven bits are those of [pt]; the top bit is the
    marker's or, when [pt] is 128 or more, the top bit of [pt]. *)
Lemma second_byte_written (x pt : byte) :
  u8 (byte_of (Z.lor (u8 pt) (Rtp.bit (0 <? Z.land (Z.shiftr (u8 x) 7) 1) 7)))
  = Z.lor (u8 pt) (Z.land (u8 x) 128)
  /\ Z.land (Z.lor (u8 pt) (Z.land (u8 x) 128)) 127 = u8 pt mod 128
  /\ Z.land (Z.lor (u8 pt) (Z.land (u8 x) 128)) 128
     = (if u8 pt <? 128 then Z.land (u8 x) 128 else 128).
Proof.
  assert (Hm : Rtp.bit (0 <? Z.land (Z.shiftr (u8 x) 7) 1) 7 = Z.land (u8 x) 128)
    by (destruct x; vm_compute; reflexivity).
  rewrite Hm.
  destruct (byte_top_bit x) as [-> | ->]; destruct pt; vm_compute; auto.
Qed.

(** C10 (amended): the relay assigns to the packet the flag of its kind
    narrowed to eight bits, and the second byte of the frame it writes is
    that value with the marker bit of the received frame set on top.  So the
    payload-type field of the forwarded frame, the low seven bits of that
    byte, holds the flag modulo 128, and a narrowed value of 128 or more
    sets the marker bit. *)
Theorem C10_payload_type_field_is_flag_mod_128 `{Net}
    (cfg : Config) (trackType : Kind) (t : Turn) (r r' : Relay) (c : Control)
    (frame out : list byte) (werr : option goError) :
  readResult t = ReadOk frame ->
  relayTurn (selectConn trackType (fst (setupMediaForwarding cfg))
                        (snd (setupMediaForwarding cfg))) t r = (r', c) ->
  written r' = written r ++ [(out, werr)] ->
  exists (target : udpConn) (x y : byte),
    selectConn trackType (fst (setupMediaForwarding cfg)) (snd (setupMediaForwarding cfg))
    = Some target
    /\ payloadType target = configuredPayloadType cfg trackType mod 256
    /\ frame !! 1%nat = Some x
    /\ out !! 1%nat = Some y
    /\ u8 y = Z.lor (configuredPayloadType cfg trackType mod 256) (Z.land (u8 x) 128)
    /\ Z.land (u8 y) 127 = configuredPayloadType cfg trackType mod 128
    /\ Z.land (u8 y) 128
       = (if configuredPayloadType cfg trackType mod 256 <? 128
          then Z.land (u8 x) 128 else 128).
Proof.
  intros Hr Ht Hw.
  destruct (relayTurn_written _ _ _ _ _ _ _ Ht Hw)
    as (frame' & p & target & Hr' & Htg & _ & Hu & Hout & _).
  rewrite Hr in Hr'. inversion Hr'; subst frame'.
  pose proof (setupMediaForwarding_payloadType cfg trackType target Htg) as Hpt.
  destruct (packetBytes_setPayloadType frame p (payloadType target) Hu)
    as (b0 & b1 & tail & Hf & Hm & Hb).
  rewrite Hb, Hm in Hout. subst out frame.
  set (flag := configuredPayloadType cfg trackType) in *.
  assert (Hrange : 0 <= flag mod 256 < 256) by (apply Z.mod_pos_bound; lia).
  assert (Hbyte : u8 (byte_of (flag mod 256)) = flag mod 256)
    by (rewrite u8_byte_of; apply uint8_small; exact Hrange).
  destruct (second_byte_written b1 (byte_of (flag mod 256))) as (Hy & Hlow & Htop).
  rewrite Hbyte in Hy, Hlow, Htop.
  exists target, b1, (byte_of (Z.lor (payloadType target)
                                     (Rtp.bit (0 <? Z.land (Z.shiftr (u8 b1) 7) 1) 7))).
  rewrite Hpt, Hy.
  split; [exact Htg|]. split; [reflexivity|]. split; [reflexivity|]. split; [reflexivity|].
  split; [reflexivity|]. split; [|exact Htop].
  rewrite Hlow. Z.div_mod_to_equations. lia.
Qed.

(** C10, an instance: a video payload type configured as 381 is narrowed to
    125, and the field of the forwarded frame reads 125. *)
Lemma C10_payload_type_field_is_flag_mod_128_witness :
  exists (target : udpConn) (x y : byte),
    selectConn Video (fst (@setupMediaForwarding openNet (withVideoPayloadType 381)))
                     (snd (@setupMediaForwarding openNet (withVideoPayloadType 381)))
    = Some target
    /\ payloadType target = configuredPayloadType (withVideoPayloadType 381) Video mod 256
    /\ sampleFrame !! 1%nat = Some x
    /\ [x80; x7d; x00; x01; x00; x00; x00; x0a; xde; xad; xbe; xef; x01; x02; x03; x04]
         !! 1%nat = Some y
    /\ u8 y = Z.lor (configuredPayloadType (withVideoPayloadType 381) Video mod 256)
                    (Z.land (u8 x) 128)
    /\ Z.land (u8 y) 127 = configuredPayloadType (withVideoPayloadType 381) Video mod 128
    /\ Z.land (u8 y) 128
       = (if configuredPayloadType (withVideoPayloadType 381) Video mod 256 <? 128
          then Z.land (u8 x) 128 else 128).
Proof.
  apply (@C10_payload_type_field_is_flag_mod_128 openNet (withVideoPayloadType 381) Video
           {| readResult := ReadOk sampleFrame; writeError := None |}
           newRelay
           {| b := [x80; x7d; x00; x01; x00; x00; x00; x0a; xde; xad; xbe; xef;
                    x01; x02; x03; x04] ++ replicate 1484 x00;
              written := [([x80; x7d; x00; x01; x00; x00; x00; x0a; xde; xad; xbe; xef;
                            x01; x02; x03; x04], None)] |}
           Continue sampleFrame
           [x80; x7d; x00; x01; x00; x00; x00; x0a; xde; xad; xbe; xef; x01; x02; x03; x04]
           None).
  - reflexivity.
  - vm_compute. reflexivity.
  - reflexivity.
Defined.

(** C10 as stated fails for a flag whose value modulo 256 is 128 or more:
    with the video payload type configured as 200, which is 200 modulo 256,
    the relay assigns 200, the second byte written is 200, and the
    payload-type field of the forwarded frame, as the decoder reads it, is
    72, with the marker bit set although the received frame had it clear. *)
Lemma C10_counterexample :
  exists (r' : Relay) (out : list byte) (p q : Rtp.Packet),
    relayTurn (selectConn Video (fst (@setupMediaForwarding openNet (withVideoPayloadType 200)))
                                (snd (@setupMediaForwarding openNet (withVideoPayloadType 200))))
              {| readResult := ReadOk sampleFrame; writeError := None |} newRelay
    = (r', Continue)
    /\ written r' = [(out, None)]
    /\ configuredPayloadType (withVideoPayloadType 200) Video mod 256 = 200
    /\ out !! 1%nat = Some xc8
    /\ Rtp.Unmarshal sampleFrame = Ok p
    /\ Rtp.Unmarshal out = Ok q
    /\ Rtp.PayloadType (Rtp.header q) = 72
    /\ Rtp.Marker (Rtp.header p) = false
    /\ Rtp.Marker (Rtp.header q) = true.
Proof.
  eexists _, _, _, _. vm_compute. repeat split; reflexivity.
Qed.

(** ** The relay loop under failures *)

(** A turn goes on to the next frame exactly when the frame reached the socket
    and the write succeeded or was refused. *)
Lemma relayTurn_continue_iff (conn : option udpConn) (t : Turn) (r r' : Relay) (c : Control) :
  relayTurn conn t r = (r', c) ->
  (c = Continue <->
   exists out, written r' = written r ++ [(out, writeError t)]
               /\ forall e, writeError t = Some e -> isConnectionRefused e = true).
Proof.
  assert (Hno : forall (l : list (list byte * option goError)) x, l <> l ++ [x]).
  { intros l x Hl. apply (f_equal length) in Hl. rewrite length_app in Hl. simpl in Hl. lia. }
  unfold relayTurn. intros Ht.
  destruct (trackRead (readResult t) (b r)) as [[b1 n]|e].
  2:{ inversion Ht; subst. split; [discriminate|]. intros (out & Hw & _). exfalso. exact (Hno _ _ Hw). }
  destruct (Rtp.Unmarshal (take n b1)) as [p|e].
  2:{ inversion Ht; subst. split; [discriminate|]. intros (out & Hw & _). exfalso. exact (Hno _ _ Hw). }
  destruct conn as [target|].
  2:{ inversion Ht; subst. split; [discriminate|]. intros (out & Hw & _). exfalso. exact (Hno _ _ Hw). }
  destruct (Rtp.MarshalTo _ b1) as [[b2 n2]|e].
  2:{ inversion Ht; subst. split; [discriminate|]. intros (out & Hw & _). exfalso. exact (Hno _ _ Hw). }
  destruct (writeError t) as [err|] eqn:Hwe.
  - destruct (isConnectionRefused err) eqn:Hcr; inversion Ht; subst; cbn [written].
    + split; [|reflexivity]. intros _. eexists. split; [reflexivity|].
      intros e He. inversion He; subst. exact Hcr.
    + split; [discriminate|]. intros (out & _ & Hall).
      specialize (Hall err eq_refl). congruence.
  - inversion Ht; subst; cbn [written]. split; [|reflexivity]. intros _.
    eexists. split; [reflexivity|]. discriminate.
Qed.

Lemma processRun_crashed (schedule : list nat) (p : Process) (e : goError) :
  crashed p = Some e -> processRun schedule p = p.
Proof.
  unfold processRun. induction schedule as [|i schedule IH]; intros Hc; [reflexivity|].
  cbn [foldl]. unfold processStep at 2. rewrite Hc. apply IH. exact Hc.
Qed.

(** C7 (amended): a refused write never ends the relay loop, the next frame
    is read and relayed; a failed read, a failed decode or re-encode, and any
    other failed write panic, which ends that loop and, no goroutine
    recovering, the whole process: no relay of any kind takes another turn. *)
Theorem C7_relay_failure_policy :
  (forall conn t r r' c, relayTurn conn t r = (r', c) ->
     (c = Continue <->
      exists out, written r' = written r ++ [(out, writeError t)]
                  /\ forall e, writeError t = Some e -> isConnectionRefused e = true))
  /\ (forall conn t r e, readResult t = ReadErr e -> relayTurn conn t r = (r, Panic e))
  /\ (forall conn t r frame e,
        readResult t = ReadOk frame -> (length frame <= length (b r))%nat ->
        Rtp.Unmarshal frame = Fail e ->
        snd (relayTurn conn t r) = Panic e)
  /\ (forall target t r frame p e,
        readResult t = ReadOk frame -> (length frame <= length (b r))%nat ->
        Rtp.Unmarshal frame = Ok p -> writeError t = Some e ->
        snd (relayTurn (Some target) t r)
        = if isConnectionRefused e then Continue else Panic e)
  /\ (forall conn t rest r r',
        relayTurn conn t r = (r', Continue) ->
        relayLoop conn (t :: rest) r = relayLoop conn rest r')
  /\ (forall conn t rest r r' e,
        relayTurn conn t r = (r', Panic e) ->
        relayLoop conn (t :: rest) r = (r', Panicked e))
  /\ (forall p i g t rest r' e schedule,
        crashed p = None -> tracks p !! i = Some g -> turns g = t :: rest ->
        relayTurn (udpConnection g) t (relay g) = (r', Panic e) ->
        crashed (processStep i p) = Some e
        /\ processRun (i :: schedule) p = processStep i p).
Proof.
  split; [exact relayTurn_continue_iff|].
  split.
  { intros conn t r e Hr. unfold relayTurn, trackRead. rewrite Hr. reflexivity. }
  split.
  { intros conn t r frame e Hr Hl Hu. unfold relayTurn, trackRead. rewrite Hr.
    assert (Hlt : (length (b r) <? length frame)%nat = false) by (apply Nat.ltb_ge; lia).
    rewrite Hlt, take_app_length, Hu. reflexivity. }
  split.
  { intros target t r frame p e Hr Hl Hu Hw. unfold relayTurn, trackRead. rewrite Hr.
    assert (Hlt : (length (b r) <? length frame)%nat = false) by (apply Nat.ltb_ge; lia).
    rewrite Hlt, take_app_length, Hu.
    rewrite MarshalTo_fits
      by (rewrite (packetBytes_length frame p _ Hu), length_app, length_drop; lia).
    rewrite Hw. destruct (isConnectionRefused e); reflexivity. }
  split.
  { intros conn t rest r r' Ht. cbn [relayLoop]. rewrite Ht. reflexivity. }
  split.
  { intros conn t rest r r' e Ht. cbn [relayLoop]. rewrite Ht. reflexivity. }
  intros p i g t rest r' e schedule Hc Hg Ht Hp.
  assert (Hs : crashed (processStep i p) = Some e).
  { unfold processStep. rewrite Hc, Hg, Ht, Hp. reflexivity. }
  split; [exact Hs|].
  unfold processRun. cbn [foldl]. apply (processRun_crashed schedule _ e Hs).
Qed.

(** C7 as stated fails: the video source fails on its first read, and the
    audio relay, with a good frame waiting, never relays it; left alone it
    would have. *)
Lemma C7_counterexample :
  crashed (processRun [0%nat; 1%nat] sampleProcess) = Some (ErrorString "EOF")
  /\ processWritten (processRun [0%nat; 1%nat] sampleProcess) = [[]; []]
  /\ processWritten (processRun [1%nat] sampleProcess)
     = [[]; [([x80; x6f; x00; x01; x00; x00; x00; x0a; xde; xad; xbe; xef;
               x01; x02; x03; x04], None)]].
Proof.
  vm_compute. repeat split; reflexivity.
Qed.

(** A refused write followed by a good one: both frames reach the socket and
    the loop is still reading. *)
Example relayLoop_survives_refused_write :
  let r := relayLoop (Some {| port := 4002; payloadType := 125 |})
             [ {| readResult := ReadOk sampleFrame; writeError := Some connectionRefused |};
               {| readResult := ReadOk sampleMarkerFrame; writeError := None |} ]
             newRelay in
  snd r = AwaitingRead
  /\ written (fst r)
     = [ ([x80; x7d; x00; x01; x00; x00; x00; x0a; xde; xad; xbe; xef; x01; x02; x03; x04],
          Some connectionRefused);
         ([x80; xfd; x00; x02; x00; x00; x00; x0a; xde; xad; xbe; xef; x05; x06; x07; x08],
          None) ].
Proof.
  vm_compute. split; reflexivity.
Qed.

(** ** The feedback ticker *)

Lemma float32_default_REMB : float32 (REMB defaultConfig) = 400000000.
Proof. vm_compute. reflexivity. Qed.

(** C8, on the code: the ticker's period is two seconds whatever
    [RTCPIntervalMs] says; with the flag at 500 nothing is sent before two
    seconds have passed.  Each tick sends the keyframe request and the
    bandwidth estimate only when their flags are set, the estimate carrying
    the configured bitrate as a [float32]. *)
Theorem C8_ticker_period_is_fixed :
  (forall cfg, tickerPeriod cfg = 2000 * Millisecond)
  /\ tickerPeriod (withInterval 500) <> RTCPIntervalMs (withInterval 500) * Millisecond
  /\ feedbackUntil (withInterval 500) 7 (1999 * Millisecond) = []
  /\ feedbackUntil (withInterval 500) 7 (2000 * Millisecond)
     = [ (2000 * Millisecond, [PictureLossIndication 7]);
         (2000 * Millisecond, [ReceiverEstimatedMaximumBitrate 400000000 [7]]) ]
  /\ (forall cfg ssrc,
        feedbackTick cfg ssrc
        = (if RTCPSendPLI cfg then [[PictureLossIndication (uint32 ssrc)]] else [])
          ++ (if RTCPSendREMB cfg
              then [[ReceiverEstimatedMaximumBitrate (float32 (REMB cfg)) [uint32 ssrc]]]
              else [])).
Proof.
  split; [intros cfg; reflexivity|].
  split; [vm_compute; discriminate|].
  split; [vm_compute; reflexivity|].
  split; [vm_compute; reflexivity|].
  intros cfg ssrc. reflexivity.
Qed.

(** ** Signaling *)

Section Signaling.
Context `{Engine, Websocket, Json}.

Lemma bind_eq {A B} (m : M A) (k : A -> M B) (w : World) :
  bind m k w = k (fst (m w)) (snd (m w)).
Proof.
  unfold bind. destruct (m w). reflexivity.
Qed.

Lemma calls_app (tr1 tr2 : list Event) : calls (tr1 ++ tr2) = calls tr1 ++ calls tr2.
Proof. apply omap_app. Qed.

Lemma sent_app (tr1 tr2 : list Event) : sent (tr1 ++ tr2) = sent tr1 ++ sent tr2.
Proof. apply omap_app. Qed.

Lemma sent_calls (tr : list Event) : sent (calls tr) = sent tr.
Proof.
  unfold sent, calls. induction tr as [|e tr IH]; [reflexivity|].
  destruct e; cbn; rewrite IH; reflexivity.
Qed.

Lemma sent_writes (msgs : list string) : sent (map CallWriteMessage msgs) = msgs.
Proof.
  unfold sent. induction msgs as [|m msgs IH]; [reflexivity|]. cbn. rewrite IH. reflexivity.
Qed.

Lemma reaches_after (w1 w2 w3 : World) (pc : PeerConnection) (evs1 evs2 : list Event) :
  reaches w1 pc evs1 w2 -> after w2 evs2 w3 -> reaches w1 pc (evs1 ++ evs2) w3.
Proof.
  intros (Hp1 & Hc1 & Ht1) (Hp2 & Hc2 & Ht2). unfold reaches.
  rewrite Hp2, Hc2, Ht2, Hp1, Hc1, Ht1, app_assoc. auto.
Qed.

Lemma reaches_trans (w1 w2 w3 : World) (pc pc' : PeerConnection) (evs1 evs2 : list Event) :
  reaches w1 pc evs1 w2 -> reaches w2 pc' evs2 w3 -> reaches w1 pc' (evs1 ++ evs2) w3.
Proof.
  intros (Hp1 & Hc1 & Ht1) (Hp2 & Hc2 & Ht2). unfold reaches.
  rewrite Hp2, Hc2, Ht2, Hc1, Ht1, app_assoc. auto.
Qed.

Lemma after_reaches (w1 w2 w3 : World) (pc : PeerConnection) (evs1 evs2 : list Event) :
  after w1 evs1 w2 -> reaches w2 pc evs2 w3 -> reaches w1 pc (evs1 ++ evs2) w3.
Proof.
  intros (Hp1 & Hc1 & Ht1) (Hp2 & Hc2 & Ht2). unfold reaches.
  rewrite Hp2, Hc2, Ht2, Hc1, Ht1, app_assoc. auto.
Qed.

Lemma after_trans (w1 w2 w3 : World) (evs1 evs2 : list Event) :
  after w1 evs1 w2 -> after w2 evs2 w3 -> after w1 (evs1 ++ evs2) w3.
Proof.
  intros Ha Hb. unfold after. eapply reaches_after; [exact Ha | exact Hb].
Qed.

Lemma emit_output (e : Event) (w : World) :
  isOutput e = true -> after w [] (snd (emit e w)).
Proof.
  intros He. unfold after, reaches, emit. cbn. rewrite calls_app. cbn. rewrite He.
  cbn. rewrite !app_nil_r. auto.
Qed.

Lemma log_after (line : string) (w : World) : after w [] (snd (log line w)).
Proof. apply emit_output. reflexivity. Qed.

Lemma println_after (line : string) (w : World) : after w [] (snd (println line w)).
Proof. apply emit_output. reflexivity. Qed.

Lemma writeWSMessage_after (msg : string) (w : World) :
  after w [CallWriteMessage msg] (snd (writeWSMessage msg w)).
Proof.
  unfold writeWSMessage. rewrite bind_eq.
  assert (Hw : after w [CallWriteMessage msg] (snd (wsWrite msg w))).
  { unfold after, reaches, wsWrite. destruct (WriteMessage (wsConn w) msg) as [c err]. cbn.
    rewrite calls_app. auto. }
  destruct (fst (wsWrite msg w)) as [e|].
  - rewrite <- (app_nil_r [CallWriteMessage msg]).
    eapply after_trans; [exact Hw | apply log_after].
  - exact Hw.
Qed.

Lemma sendLocalIceCandidate_after (c : ICECandidate) (w : World) :
  after w [CallWriteMessage (candidateMessage c)] (snd (sendLocalIceCandidate c w)).
Proof.
  unfold sendLocalIceCandidate, candidateMessage.
  destruct (marshalICECandidateResp _) as [jsonStr|err].
  - rewrite bind_eq. rewrite <- (app_nil_r [CallWriteMessage jsonStr]).
    eapply after_trans; [apply writeWSMessage_after | apply println_after].
  - rewrite !bind_eq.
    change [CallWriteMessage ""] with ([] ++ [CallWriteMessage ""] ++ [] : list Event).
    eapply after_trans; [apply log_after|].
    eapply after_trans; [apply writeWSMessage_after | apply println_after].
Qed.

Lemma sendAll_after (cs : list ICECandidate) : forall w : World,
  after w (map (fun c => CallWriteMessage (candidateMessage c)) cs) (snd (sendAll cs w)).
Proof.
  induction cs as [|c cs IH]; intros w.
  - cbn. unfold after, reaches. rewrite app_nil_r. auto.
  - cbn [sendAll map]. rewrite bind_eq.
    change (?x :: ?l) with ([x] ++ l).
    eapply after_trans; [apply sendLocalIceCandidate_after | apply IH].
Qed.

Lemma engine_reaches {A} (e : Event) (call : PeerConnection -> PeerConnection * A) (w : World) :
  isOutput e = false ->
  fst (engine e call w) = snd (call (peerConnection w))
  /\ reaches w (fst (call (peerConnection w))) [e] (snd (engine e call w)).
Proof.
  intros He. unfold engine, reaches. destruct (call (peerConnection w)) as [pc a]. cbn.
  rewrite calls_app. cbn. rewrite He. auto.
Qed.

(** [handleRemoteAnswer] when the payload parses and both applications
    succeed. *)
Lemma handleRemoteAnswer_success (message : string) (sdp : SessionDescription)
    (pc1 pc2 : PeerConnection) (w : World) :
  unmarshalSessionDescription message = Ok sdp ->
  SetLocalDescription (peerConnection w) sdp = (pc1, None) ->
  SetRemoteDescription pc1 sdp = (pc2, None) ->
  reaches w pc2
    ([CallSetLocalDescription sdp; CallSetRemoteDescription sdp]
     ++ map (fun c => CallWriteMessage (candidateMessage c)) (pendingCandidates w))
    (snd (handleRemoteAnswer message w)).
Proof.
  intros Hsdp Hl Hr. unfold handleRemoteAnswer. rewrite Hsdp, bind_eq.
  destruct (engine_reaches (CallSetLocalDescription sdp)
              (fun pc => SetLocalDescription pc sdp) w eq_refl) as [Hf1 Hw1].
  fold (setLocalDescription sdp) in Hf1, Hw1. rewrite Hl in Hf1, Hw1. cbn [fst snd] in Hf1, Hw1.
  rewrite Hf1. set (w1 := snd (setLocalDescription sdp w)) in *.
  rewrite bind_eq. pose proof (log_after "Success set local session description" w1) as Hw2.
  set (w2 := snd (log _ w1)) in *.
  rewrite bind_eq.
  destruct (engine_reaches (CallSetRemoteDescription sdp)
              (fun pc => SetRemoteDescription pc sdp) w2 eq_refl) as [Hf3 Hw3].
  fold (setRemoteDescription sdp) in Hf3, Hw3.
  assert (Hpc2 : peerConnection w2 = pc1).
  { destruct Hw2 as (-> & _). destruct Hw1 as (-> & _). reflexivity. }
  rewrite Hpc2, Hr in Hf3, Hw3. cbn [fst snd] in Hf3, Hw3.
  rewrite Hf3. set (w3 := snd (setRemoteDescription sdp w2)) in *.
  rewrite bind_eq. pose proof (log_after "Success set remote session description" w3) as Hw4.
  set (w4 := snd (log _ w3)) in *.
  rewrite bind_eq.
  pose proof (println_after "Added session description from UE to Pion." w4) as Hw5.
  set (w5 := snd (println _ w4)) in *.
  rewrite bind_eq. unfold getPending at 1 2. cbn [fst snd].
  pose proof (sendAll_after (pendingCandidates w5) w5) as Hw6.
  assert (Hpend : pendingCandidates w5 = pendingCandidates w).
  { destruct Hw5 as (_ & -> & _). destruct Hw4 as (_ & -> & _). destruct Hw3 as (_ & -> & _).
    destruct Hw2 as (_ & -> & _). destruct Hw1 as (_ & -> & _). reflexivity. }
  rewrite Hpend in Hw6 at 1.
  pose proof (reaches_after _ _ _ _ _ _ Hw1 Hw2) as Ha.
  pose proof (reaches_trans _ _ _ _ _ _ _ Ha Hw3) as Hb.
  pose proof (reaches_after _ _ _ _ _ _ Hb Hw4) as Hc.
  pose proof (reaches_after _ _ _ _ _ _ Hc Hw5) as Hd.
  pose proof (reaches_after _ _ _ _ _ _ Hd Hw6) as He.
  cbn [app] in He. rewrite ?app_nil_r in He. exact He.
Qed.

Lemma controlTurn_dispatch (messageType : Z) (message ty : string)
    (objmap : gmap string string) (w : World) :
  unmarshalObject message = Ok objmap ->
  unmarshalString (objmap !!! "type") = Ok ty ->
  exists w0, after w [] w0
             /\ controlTurn (Message messageType message) w = dispatch ty message objmap w0.
Proof.
  intros Ho Ht. eexists. split; [|unfold controlTurn; rewrite bind_eq, Ho, Ht; reflexivity].
  apply println_after.
Qed.

(** C1: an "answer" message whose payload parses and whose two applications
    succeed is applied first as the local description, then as the remote
    description, and after that every buffered candidate is written to the
    websocket, in the order of the buffer. *)
Theorem C1_answer_applied_locally_then_remotely_then_drained
    (w : World) (messageType : Z) (message : string) (objmap : gmap string string)
    (sdp : SessionDescription) (pc1 pc2 : PeerConnection) :
  unmarshalObject message = Ok objmap ->
  unmarshalString (objmap !!! "type") = Ok "answer" ->
  unmarshalSessionDescription message = Ok sdp ->
  SetLocalDescription (peerConnection w) sdp = (pc1, None) ->
  SetRemoteDescription pc1 sdp = (pc2, None) ->
  fst (controlTurn (Message messageType message) w) = Next
  /\ calls (trace (snd (controlTurn (Message messageType message) w)))
     = calls (trace w)
       ++ [CallSetLocalDescription sdp; CallSetRemoteDescription sdp]
       ++ map (fun c => CallWriteMessage (candidateMessage c)) (pendingCandidates w)
  /\ peerConnection (snd (controlTurn (Message messageType message) w)) = pc2.
Proof.
  intros Ho Ht Hsdp Hl Hr.
  destruct (controlTurn_dispatch messageType message "answer" objmap w Ho Ht) as (w0 & Hw0 & ->).
  unfold dispatch. cbn [String.eqb Ascii.eqb Bool.eqb]. rewrite bind_eq. cbn [ret fst snd].
  split; [reflexivity|].
  assert (Hl0 : SetLocalDescription (peerConnection w0) sdp = (pc1, None)).
  { destruct Hw0 as (-> & _). exact Hl. }
  pose proof (handleRemoteAnswer_success message sdp pc1 pc2 w0 Hsdp Hl0 Hr) as Hh.
  assert (Hp0 : pendingCandidates w0 = pendingCandidates w) by (destruct Hw0 as (_ & -> & _); reflexivity).
  rewrite Hp0 in Hh.
  pose proof (after_reaches _ _ _ _ _ _ Hw0 Hh) as (Hpc & _ & Hc).
  split; [exact Hc | exact Hpc].
Qed.

(** C3 (amended): a drain writes every buffered candidate once, in the order
    of the buffer, and leaves the buffer as it was; a second answer that is
    applied writes them all once more. *)
Theorem C3_drain_sends_in_order_and_keeps_buffer
    (w : World) (message1 message2 : string) (sdp1 sdp2 : SessionDescription)
    (pc1 pc2 pc3 pc4 : PeerConnection) :
  unmarshalSessionDescription message1 = Ok sdp1 ->
  SetLocalDescription (peerConnection w) sdp1 = (pc1, None) ->
  SetRemoteDescription pc1 sdp1 = (pc2, None) ->
  unmarshalSessionDescription message2 = Ok sdp2 ->
  SetLocalDescription pc2 sdp2 = (pc3, None) ->
  SetRemoteDescription pc3 sdp2 = (pc4, None) ->
  pendingCandidates (snd (handleRemoteAnswer message1 w)) = pendingCandidates w
  /\ sent (trace (snd (handleRemoteAnswer message1 w)))
     = sent (trace w) ++ map candidateMessage (pendingCandidates w)
  /\ pendingCandidates (snd (handleRemoteAnswer message2 (snd (handleRemoteAnswer message1 w))))
     = pendingCandidates w
  /\ sent (trace (snd (handleRemoteAnswer message2 (snd (handleRemoteAnswer message1 w)))))
     = sent (trace w) ++ map candidateMessage (pendingCandidates w)
       ++ map candidateMessage (pendingCandidates w).
Proof.
  intros Hs1 Hl1 Hr1 Hs2 Hl2 Hr2.
  assert (Hsent : forall (w0 w' : World) sdp pc,
            reaches w0 pc ([CallSetLocalDescription sdp; CallSetRemoteDescription sdp]
                           ++ map (fun c => CallWriteMessage (candidateMessage c))
                                  (pendingCandidates w0)) w' ->
            sent (trace w') = sent (trace w0) ++ map candidateMessage (pendingCandidates w0)).
  { intros w0 w' sdp pc (_ & _ & Hc).
    rewrite <- (sent_calls (trace w')), Hc, sent_app, sent_calls. f_equal.
    cbn [app]. change (sent (?a :: ?b :: ?l)) with (sent l).
    rewrite <- (sent_writes (map candidateMessage (pendingCandidates w0))), map_map.
    reflexivity. }
  pose proof (handleRemoteAnswer_success message1 sdp1 pc1 pc2 w Hs1 Hl1 Hr1) as Ha.
  set (w1 := snd (handleRemoteAnswer message1 w)) in *.
  assert (Hp1 : pendingCandidates w1 = pendingCandidates w) by (destruct Ha as (_ & -> & _); reflexivity).
  assert (Hl2' : SetLocalDescription (peerConnection w1) sdp2 = (pc3, None)).
  { destruct Ha as (-> & _). exact Hl2. }
  pose proof (handleRemoteAnswer_success message2 sdp2 pc3 pc4 w1 Hs2 Hl2' Hr2) as Hb.
  set (w2 := snd (handleRemoteAnswer message2 w1)) in *.
  split; [exact Hp1|]. split; [exact (Hsent _ _ _ _ Ha)|].
  split; [destruct Hb as (_ & -> & _); exact Hp1|].
  rewrite (Hsent _ _ _ _ Hb), (Hsent _ _ _ _ Ha), Hp1, app_assoc. reflexivity.
Qed.

(** Unfolds the monad to its state-passing reading. *)
Ltac run_monad :=
  unfold writeWSMessage, setLocalDescription, setRemoteDescription, log, println, engine,
    emit, wsWrite, remoteDescription, getPending, appendPending, bind, ret;
  cbn [fst snd peerConnection wsConn pendingCandidates trace].

Ltac calls_done :=
  unfold reaches, after, reaches;
  cbn [fst snd peerConnection wsConn pendingCandidates trace];
  rewrite ?calls_app; cbn [calls omap isOutput];
  rewrite <- ?app_assoc; cbn [app]; rewrite ?app_nil_r; auto.

(** [sendAnswer] when an answer is created and encoded: the answer is written
    whatever [SetLocalDescription] returned. *)
Lemma sendAnswer_writes (w : World) (answer : SessionDescription)
    (pc2 pc3 : PeerConnection) (localErr : option goError) (text : string) :
  CreateAnswer (peerConnection w) = (pc2, Ok answer) ->
  SetLocalDescription pc2 answer = (pc3, localErr) ->
  marshalSessionDescription answer = Ok text ->
  reaches w pc3 [CallCreateAnswer; CallSetLocalDescription answer; CallWriteMessage text]
          (snd (sendAnswer w)).
Proof.
  intros Hc Hl Hm. unfold sendAnswer, createAnswer. run_monad.
  rewrite Hc. cbn [fst snd peerConnection]. rewrite Hl.
  destruct localErr as [e|]; cbn [fst snd]; rewrite Hm; cbn [fst snd wsConn];
    destruct (WriteMessage (wsConn w) text) as [conn [e'|]]; calls_done.
Qed.

(** [sendAnswer] when no answer can be created: nothing is written. *)
Lemma sendAnswer_no_answer (w : World) (pc2 : PeerConnection) (e : goError) :
  CreateAnswer (peerConnection w) = (pc2, Fail e) ->
  reaches w pc2 [CallCreateAnswer] (snd (sendAnswer w)).
Proof.
  intros Hc. unfold sendAnswer, createAnswer. run_monad.
  rewrite Hc. calls_done.
Qed.

(** [sendAnswer] when the answer cannot be encoded: nothing is written. *)
Lemma sendAnswer_not_encoded (w : World) (answer : SessionDescription)
    (pc2 pc3 : PeerConnection) (localErr : option goError) (e : goError) :
  CreateAnswer (peerConnection w) = (pc2, Ok answer) ->
  SetLocalDescription pc2 answer = (pc3, localErr) ->
  marshalSessionDescription answer = Fail e ->
  reaches w pc3 [CallCreateAnswer; CallSetLocalDescription answer] (snd (sendAnswer w)).
Proof.
  intros Hc Hl Hm. unfold sendAnswer, createAnswer. run_monad.
  rewrite Hc. cbn [fst snd peerConnection]. rewrite Hl.
  destruct localErr as [e'|]; cbn [fst snd]; rewrite Hm; calls_done.
Qed.

(** The offer branch of the control loop, the payload parsed. *)
Lemma dispatch_offer (w : World) (message : string) (objmap : gmap string string)
    (sdp : SessionDescription) (pc1 : PeerConnection) (remoteErr : option goError) :
  unmarshalSessionDescription message = Ok sdp ->
  SetRemoteDescription (peerConnection w) sdp = (pc1, remoteErr) ->
  exists w1, reaches w pc1 [CallSetRemoteDescription sdp] w1
             /\ dispatch "offer" message objmap w = (Next, snd (sendAnswer w1)).
Proof.
  intros Hs Hr. unfold dispatch. cbn [String.eqb Ascii.eqb Bool.eqb]. rewrite Hs.
  rewrite !bind_eq. cbn [ret]. eexists. split; [|reflexivity].
  run_monad. rewrite Hr. destruct remoteErr as [e|]; calls_done.
Qed.

(** C5, on the code: an "offer" whose answer is created and encoded puts
    exactly one message on the websocket, the answer, and it does so also
    when applying the answer as the local description failed. *)
Theorem C5_answer_written_whatever_SetLocalDescription_returns
    (w : World) (messageType : Z) (message : string) (objmap : gmap string string)
    (sdp answer : SessionDescription) (pc1 pc2 pc3 : PeerConnection)
    (remoteErr localErr : option goError) (text : string) :
  unmarshalObject message = Ok objmap ->
  unmarshalString (objmap !!! "type") = Ok "offer" ->
  unmarshalSessionDescription message = Ok sdp ->
  SetRemoteDescription (peerConnection w) sdp = (pc1, remoteErr) ->
  CreateAnswer pc1 = (pc2, Ok answer) ->
  SetLocalDescription pc2 answer = (pc3, localErr) ->
  marshalSessionDescription answer = Ok text ->
  fst (controlTurn (Message messageType message) w) = Next
  /\ sent (trace (snd (controlTurn (Message messageType message) w))) = sent (trace w) ++ [text]
  /\ calls (trace (snd (controlTurn (Message messageType message) w)))
     = calls (trace w)
       ++ [CallSetRemoteDescription sdp; CallCreateAnswer;
           CallSetLocalDescription answer; CallWriteMessage text].
Proof.
  intros Ho Ht Hs Hr Hc Hl Hm.
  destruct (controlTurn_dispatch messageType message "offer" objmap w Ho Ht) as (w0 & Hw0 & ->).
  assert (Hr0 : SetRemoteDescription (peerConnection w0) sdp = (pc1, remoteErr)).
  { destruct Hw0 as (-> & _). exact Hr. }
  destruct (dispatch_offer w0 message objmap sdp pc1 remoteErr Hs Hr0) as (w1 & Hw1 & ->).
  cbn [fst snd]. split; [reflexivity|].
  assert (Hc1 : CreateAnswer (peerConnection w1) = (pc2, Ok answer)).
  { destruct Hw1 as (-> & _). exact Hc. }
  pose proof (sendAnswer_writes w1 answer pc2 pc3 localErr text Hc1 Hl Hm) as Hw2.
  pose proof (after_reaches _ _ _ _ _ _ Hw0 (reaches_trans _ _ _ _ _ _ _ Hw1 Hw2))
    as (_ & _ & Hcalls).
  cbn [app] in Hcalls. split; [|exact Hcalls].
  rewrite <- (sent_calls (trace (snd (sendAnswer w1)))), Hcalls, sent_app, sent_calls.
  reflexivity.
Qed.

(** An "offer" for which no answer can be created puts nothing on the
    websocket. *)
Lemma offer_without_answer_writes_nothing
    (w : World) (messageType : Z) (message : string) (objmap : gmap string string)
    (sdp : SessionDescription) (pc1 pc2 : PeerConnection)
    (remoteErr : option goError) (e : goError) :
  unmarshalObject message = Ok objmap ->
  unmarshalString (objmap !!! "type") = Ok "offer" ->
  unmarshalSessionDescription message = Ok sdp ->
  SetRemoteDescription (peerConnection w) sdp = (pc1, remoteErr) ->
  CreateAnswer pc1 = (pc2, Fail e) ->
  fst (controlTurn (Message messageType message) w) = Next
  /\ sent (trace (snd (controlTurn (Message messageType message) w))) = sent (trace w).
Proof.
  intros Ho Ht Hs Hr Hc.
  destruct (controlTurn_dispatch messageType message "offer" objmap w Ho Ht) as (w0 & Hw0 & ->).
  assert (Hr0 : SetRemoteDescription (peerConnection w0) sdp = (pc1, remoteErr)).
  { destruct Hw0 as (-> & _). exact Hr. }
  destruct (dispatch_offer w0 message objmap sdp pc1 remoteErr Hs Hr0) as (w1 & Hw1 & ->).
  cbn [fst snd]. split; [reflexivity|].
  assert (Hc1 : CreateAnswer (peerConnection w1) = (pc2, Fail e)).
  { destruct Hw1 as (-> & _). exact Hc. }
  pose proof (sendAnswer_no_answer w1 pc2 e Hc1) as Hw2.
  pose proof (after_reaches _ _ _ _ _ _ Hw0 (reaches_trans _ _ _ _ _ _ _ Hw1 Hw2))
    as (_ & _ & Hcalls).
  rewrite <- (sent_calls (trace (snd (sendAnswer w1)))), Hcalls, sent_app, sent_calls.
  cbn. apply app_nil_r.
Qed.

(** C4, on the code: an "offer" whose payload does not parse is logged and
    makes [startControlLoop] return; no call is made for it and what was
    still to be read stays unread. *)
Theorem C4_malformed_offer_returns_from_loop
    (w : World) (messageType : Z) (message : string) (objmap : gmap string string)
    (e : goError) (inbox : list WsRead) :
  unmarshalObject message = Ok objmap ->
  unmarshalString (objmap !!! "type") = Ok "offer" ->
  unmarshalSessionDescription message = Fail e ->
  fst (startControlLoop (Message messageType message :: inbox) w) = (Returned, inbox)
  /\ after w [] (snd (startControlLoop (Message messageType message :: inbox) w))
  /\ last (trace (snd (startControlLoop (Message messageType message :: inbox) w)))
     = Some (Log ("Error occured during unmarshaling sdp. Error: " +:+ Error e)).
Proof.
  intros Ho Ht Hs. cbn [startControlLoop]. rewrite bind_eq.
  destruct (controlTurn_dispatch messageType message "offer" objmap w Ho Ht) as (w0 & Hw0 & ->).
  unfold dispatch. cbn [String.eqb Ascii.eqb Bool.eqb]. rewrite Hs.
  rewrite bind_eq. cbn [ret fst snd]. split; [reflexivity|]. split.
  - rewrite <- (app_nil_r []). eapply after_trans; [exact Hw0 | apply log_after].
  - unfold log, emit. cbn [snd trace]. apply last_snoc.
Qed.

(** An "offer" whose remote description the engine refuses is logged and the
    loop goes on to the next message. *)
Lemma refused_offer_continues
    (w : World) (messageType : Z) (message : string) (objmap : gmap string string)
    (sdp : SessionDescription) (pc1 : PeerConnection) (e : goError) :
  unmarshalObject message = Ok objmap ->
  unmarshalString (objmap !!! "type") = Ok "offer" ->
  unmarshalSessionDescription message = Ok sdp ->
  SetRemoteDescription (peerConnection w) sdp = (pc1, Some e) ->
  fst (controlTurn (Message messageType message) w) = Next.
Proof.
  intros Ho Ht Hs Hr.
  destruct (controlTurn_dispatch messageType message "offer" objmap w Ho Ht) as (w0 & Hw0 & ->).
  assert (Hr0 : SetRemoteDescription (peerConnection w0) sdp = (pc1, Some e)).
  { destruct Hw0 as (-> & _). exact Hr. }
  destruct (dispatch_offer w0 message objmap sdp pc1 (Some e) Hs Hr0) as (w1 & Hw1 & ->).
  reflexivity.
Qed.

(** *** The buffer of pending candidates *)

Lemma keepsPending_ret {A} (a : A) : keepsPending (ret a).
Proof. intros w. reflexivity. Qed.

Lemma keepsPending_bind {A B} (m : M A) (k : A -> M B) :
  keepsPending m -> (forall a, keepsPending (k a)) -> keepsPending (bind m k).
Proof.
  intros Hm Hk w. rewrite bind_eq, Hk, Hm. reflexivity.
Qed.

Lemma keepsPending_emit (e : Event) : keepsPending (emit e).
Proof. intros w. reflexivity. Qed.

Lemma keepsPending_engine {A} (e : Event) (call : PeerConnection -> PeerConnection * A) :
  keepsPending (engine e call).
Proof.
  intros w. unfold engine. destruct (call (peerConnection w)). reflexivity.
Qed.

Lemma keepsPending_wsWrite (msg : string) : keepsPending (wsWrite msg).
Proof.
  intros w. unfold wsWrite. destruct (WriteMessage (wsConn w) msg). reflexivity.
Qed.

Lemma keepsPending_getPending : keepsPending getPending.
Proof. intros w. reflexivity. Qed.

Ltac keeps :=
  repeat first
    [ apply keepsPending_ret
    | apply keepsPending_emit
    | apply keepsPending_engine
    | apply keepsPending_wsWrite
    | apply keepsPending_getPending
    | apply keepsPending_bind; [|intros ?]
    | match goal with
      | |- keepsPending (match ?x with _ => _ end) => destruct x
      end ].

Lemma keepsPending_sendLocalIceCandidate (c : ICECandidate) :
  keepsPending (sendLocalIceCandidate c).
Proof.
  unfold sendLocalIceCandidate, writeWSMessage, log, println. keeps.
Qed.

Lemma keepsPending_sendAll (cs : list ICECandidate) : keepsPending (sendAll cs).
Proof.
  induction cs as [|c cs IH]; cbn [sendAll].
  - apply keepsPending_ret.
  - apply keepsPending_bind; [apply keepsPending_sendLocalIceCandidate | intros _; exact IH].
Qed.

Lemma keepsPending_handleRemoteAnswer (message : string) :
  keepsPending (handleRemoteAnswer message).
Proof.
  unfold handleRemoteAnswer, setLocalDescription, setRemoteDescription, log, println.
  keeps. apply keepsPending_sendAll.
Qed.

Lemma keepsPending_sendAnswer : keepsPending sendAnswer.
Proof.
  unfold sendAnswer, createAnswer, setLocalDescription, writeWSMessage, log, println.
  keeps.
Qed.

(** No turn of the control loop changes the buffer. *)
Lemma keepsPending_controlTurn (r : WsRead) : keepsPending (controlTurn r).
Proof.
  unfold controlTurn, dispatch, handleRemoteIceCandidate, setRemoteDescription, log, println.
  destruct r as [messageType message|e]; keeps;
    repeat match goal with
           | |- keepsPending (if ?c then _ else _) => destruct c
           end;
    keeps;
    first [apply keepsPending_handleRemoteAnswer | apply keepsPending_sendAnswer].
Qed.

Lemma sent_from_calls (w w' : World) (evs : list Event) :
  calls (trace w') = calls (trace w) ++ evs ->
  sent (trace w') = sent (trace w) ++ sent evs.
Proof.
  intros Hc. rewrite <- (sent_calls (trace w')), Hc, sent_app, sent_calls. reflexivity.
Qed.

(** The callback past its two log lines. *)
Lemma onICECandidate_logged (c : ICECandidate) (w : World) :
  exists w2,
    after w [] w2
    /\ onICECandidate (Some c) w = finishCallback (CReadDesc c) w2.
Proof.
  eexists. split; [|unfold onICECandidate; rewrite !bind_eq; reflexivity].
  rewrite <- (app_nil_r []). eapply after_trans; apply log_after.
Qed.

(** Without a remote description the candidate goes to the end of the buffer
    and nothing is written. *)
Lemma onICECandidate_buffers (c : ICECandidate) (w : World) :
  RemoteDescription (peerConnection w) = None ->
  peerConnection (snd (onICECandidate (Some c) w)) = peerConnection w
  /\ pendingCandidates (snd (onICECandidate (Some c) w)) = pendingCandidates w ++ [c]
  /\ calls (trace (snd (onICECandidate (Some c) w))) = calls (trace w).
Proof.
  intros Hd. destruct (onICECandidate_logged c w) as (w2 & (Hpc & Hp & Ht) & ->).
  unfold finishCallback. rewrite bind_eq. unfold remoteDescription. cbn [fst snd].
  rewrite !Hpc, !Hd. run_monad. rewrite calls_app, Hp, Ht. cbn. rewrite !app_nil_r. auto.
Qed.

(** With a remote description the candidate is written at once. *)
Lemma onICECandidate_sends (c : ICECandidate) (desc : SessionDescription) (w : World) :
  RemoteDescription (peerConnection w) = Some desc ->
  after w [CallWriteMessage (candidateMessage c)] (snd (onICECandidate (Some c) w)).
Proof.
  intros Hd. destruct (onICECandidate_logged c w) as (w2 & Hw2 & ->).
  unfold finishCallback. rewrite bind_eq. unfold remoteDescription. cbn [fst snd].
  pose proof Hw2 as (Hpc & _). rewrite !Hpc, !Hd.
  exact (after_trans _ _ _ _ _ Hw2 (sendLocalIceCandidate_after c w2)).
Qed.

(** A nil candidate changes nothing but the log. *)
Lemma onICECandidate_nil (w : World) : after w [] (snd (onICECandidate None w)).
Proof.
  unfold onICECandidate. rewrite !bind_eq. cbn [ret snd].
  rewrite <- (app_nil_r []). eapply after_trans; apply log_after.
Qed.

(** The callback only ever appends to the buffer. *)
Lemma onICECandidate_grows (c : option ICECandidate) (w : World) :
  exists added,
    pendingCandidates (snd (onICECandidate c w)) = pendingCandidates w ++ added.
Proof.
  destruct c as [c|].
  - destruct (RemoteDescription (peerConnection w)) as [desc|] eqn:Hd.
    + exists []. destruct (onICECandidate_sends c desc w Hd) as (_ & -> & _).
      symmetry. apply app_nil_r.
    + exists [c]. apply (onICECandidate_buffers c w Hd).
  - exists []. destruct (onICECandidate_nil w) as (_ & -> & _). symmetry. apply app_nil_r.
Qed.

(** Over a whole run the buffer is never emptied: what it held at the start
    is still at its front. *)
Lemma run_never_shrinks_buffer (inputs : list Input) : forall w : World,
  exists added,
    pendingCandidates (snd (run inputs w)) = pendingCandidates w ++ added.
Proof.
  induction inputs as [|[r|c] inputs IH]; intros w; cbn [run].
  - exists []. symmetry. apply app_nil_r.
  - rewrite bind_eq. pose proof (keepsPending_controlTurn r w) as Hk.
    destruct (fst (controlTurn r w)).
    + destruct (IH (snd (controlTurn r w))) as [added Ha]. exists added.
      rewrite Ha, Hk. reflexivity.
    + exists []. cbn [ret snd]. rewrite Hk. symmetry. apply app_nil_r.
    + exists []. cbn [ret snd]. rewrite Hk. symmetry. apply app_nil_r.
  - rewrite bind_eq. destruct (onICECandidate_grows c w) as [added1 Ha1].
    destruct (IH (snd (onICECandidate c w))) as [added2 Ha2].
    exists (added1 ++ added2). rewrite Ha2, Ha1, app_assoc. reflexivity.
Qed.


(** *** The callback against the answer handler *)

(** A step of the handler leaves what remains of [handleRemoteAnswer] with the
    same outcome. *)
Ltac norm_bind :=
  repeat (progress (rewrite ?bind_eq; cbn [ret fst snd finishHandler finishCallback]));
  try reflexivity.

Lemma stepHandler_finish (pc : HandlerPc) (w : World) :
  snd (finishHandler (fst (stepHandler pc w)) (snd (stepHandler pc w)))
  = snd (finishHandler pc w).
Proof.
  destruct pc as [message|sdp|sdp| |[|c rest]|]; cbn [stepHandler finishHandler sendAll].
  - unfold handleRemoteAnswer.
    destruct (unmarshalSessionDescription message) as [sdp|e]; norm_bind.
  - rewrite !bind_eq. destruct (fst (setLocalDescription sdp w)) as [e|]; norm_bind.
  - rewrite !bind_eq. destruct (fst (setRemoteDescription sdp w)) as [e|]; norm_bind.
  - norm_bind.
  - reflexivity.
  - norm_bind.
  - reflexivity.
Qed.

Lemma stepCallback_finish (pc : CallbackPc) (w : World) :
  snd (finishCallback (fst (stepCallback pc w)) (snd (stepCallback pc w)))
  = snd (finishCallback pc w).
Proof.
  destruct pc as [[c|]|c|c|c|]; cbn [stepCallback finishCallback]; unfold onICECandidate;
    norm_bind.
  destruct (fst (remoteDescription w)); norm_bind.
Qed.

Lemma interleave_cons (t : Tid) (l : list Tid) (s : Threads) :
  interleave (t :: l) s = interleave l (threadStep t s).
Proof. reflexivity. Qed.

Lemma interleave_app (l1 l2 : list Tid) (s : Threads) :
  interleave (l1 ++ l2) s = interleave l2 (interleave l1 s).
Proof. apply foldl_app. Qed.

(** Steps of the handler alone: the callback stands still and what remains
    of the handler keeps its outcome. *)
Lemma interleave_handler (n : nat) : forall s : Threads,
  callbackPc (interleave (replicate n Handler) s) = callbackPc s
  /\ snd (finishHandler (handlerPc (interleave (replicate n Handler) s))
                        (shared (interleave (replicate n Handler) s)))
     = snd (finishHandler (handlerPc s) (shared s)).
Proof.
  induction n as [|n IH]; intros s; [split; reflexivity|].
  cbn [replicate]. rewrite !interleave_cons.
  destruct (IH (threadStep Handler s)) as [Hc Hf]. rewrite Hc, Hf.
  unfold threadStep. pose proof (stepHandler_finish (handlerPc s) (shared s)) as Hs.
  destruct (stepHandler (handlerPc s) (shared s)) as [pc' w']. cbn in *. auto.
Qed.

(** Steps of the callback alone. *)
Lemma interleave_callback (n : nat) : forall s : Threads,
  handlerPc (interleave (replicate n Callback) s) = handlerPc s
  /\ snd (finishCallback (callbackPc (interleave (replicate n Callback) s))
                         (shared (interleave (replicate n Callback) s)))
     = snd (finishCallback (callbackPc s) (shared s)).
Proof.
  induction n as [|n IH]; intros s; [split; reflexivity|].
  cbn [replicate]. rewrite !interleave_cons.
  destruct (IH (threadStep Callback s)) as [Hc Hf]. rewrite Hc, Hf.
  unfold threadStep. pose proof (stepCallback_finish (callbackPc s) (shared s)) as Hs.
  destruct (stepCallback (callbackPc s) (shared s)) as [pc' w']. cbn in *. auto.
Qed.

(** Each goroutine, left to run, reaches its end. *)
Lemma handler_sends_then_ends (rest : list ICECandidate) : forall (w : World) (cb : CallbackPc),
  handlerPc (interleave (replicate (S (length rest)) Handler)
               {| handlerPc := HSend rest; callbackPc := cb; shared := w |}) = HDone.
Proof.
  induction rest as [|c rest IH]; intros w cb; [reflexivity|].
  cbn [length replicate]. rewrite interleave_cons. unfold threadStep.
  cbn [handlerPc callbackPc shared stepHandler]. rewrite bind_eq. cbn [ret].
  apply IH.
Qed.

Lemma handler_ends (pc : HandlerPc) (w : World) (cb : CallbackPc) :
  exists n,
    handlerPc (interleave (replicate n Handler)
                 {| handlerPc := pc; callbackPc := cb; shared := w |}) = HDone.
Proof.
  assert (Hrange : forall w, exists n,
            handlerPc (interleave (replicate n Handler)
                         {| handlerPc := HRange; callbackPc := cb; shared := w |}) = HDone).
  { intros w0. exists (S (S (length (pendingCandidates w0)))).
    cbn [replicate]. rewrite interleave_cons. unfold threadStep.
    cbn [handlerPc callbackPc shared stepHandler]. rewrite bind_eq.
    cbn [getPending ret fst snd]. apply (handler_sends_then_ends _ w0 cb). }
  assert (Hremote : forall sdp w, exists n,
            handlerPc (interleave (replicate n Handler)
                         {| handlerPc := HSetRemote sdp; callbackPc := cb; shared := w |}) = HDone).
  { intros sdp w0.
    destruct (fst (setRemoteDescription sdp w0)) as [e|] eqn:He.
    - exists 1%nat. cbn [replicate]. rewrite interleave_cons. unfold threadStep.
      cbn [handlerPc callbackPc shared stepHandler interleave foldl]. rewrite bind_eq, He.
      rewrite bind_eq. reflexivity.
    - destruct (Hrange (snd (println "Added session description from UE to Pion."
                                (snd (log "Success set remote session description"
                                        (snd (setRemoteDescription sdp w0))))))) as [n Hn].
      exists (S n). cbn [replicate]. rewrite interleave_cons. unfold threadStep.
      cbn [handlerPc callbackPc shared stepHandler]. rewrite bind_eq, He.
      rewrite !bind_eq. cbn [ret]. exact Hn. }
  assert (Hlocal : forall sdp w, exists n,
            handlerPc (interleave (replicate n Handler)
                         {| handlerPc := HSetLocal sdp; callbackPc := cb; shared := w |}) = HDone).
  { intros sdp w0.
    destruct (fst (setLocalDescription sdp w0)) as [e|] eqn:He.
    - exists 1%nat. cbn [replicate]. rewrite interleave_cons. unfold threadStep.
      cbn [handlerPc callbackPc shared stepHandler interleave foldl]. rewrite bind_eq, He.
      rewrite bind_eq. reflexivity.
    - destruct (Hremote sdp (snd (log "Success set local session description"
                                    (snd (setLocalDescription sdp w0))))) as [n Hn].
      exists (S n). cbn [replicate]. rewrite interleave_cons. unfold threadStep.
      cbn [handlerPc callbackPc shared stepHandler]. rewrite bind_eq, He.
      rewrite !bind_eq. cbn [ret]. exact Hn. }
  destruct pc as [message|sdp|sdp| |rest|].
  - destruct (unmarshalSessionDescription message) as [sdp|e] eqn:Hu.
    + destruct (Hlocal sdp w) as [n Hn]. exists (S n).
      cbn [replicate]. rewrite interleave_cons. unfold threadStep.
      cbn [handlerPc callbackPc shared stepHandler]. rewrite Hu. exact Hn.
    + exists 1%nat. cbn [replicate]. rewrite interleave_cons. unfold threadStep.
      cbn [handlerPc callbackPc shared stepHandler interleave foldl]. rewrite Hu, bind_eq.
      reflexivity.
  - apply Hlocal.
  - apply Hremote.
  - apply Hrange.
  - exists (S (length rest)). apply handler_sends_then_ends.
  - exists 0%nat. reflexivity.
Qed.

Lemma threadStep_callback (s : Threads) :
  threadStep Callback s
  = {| handlerPc := handlerPc s;
       callbackPc := fst (stepCallback (callbackPc s) (shared s));
       shared := snd (stepCallback (callbackPc s) (shared s)) |}.
Proof.
  unfold threadStep. destruct (stepCallback (callbackPc s) (shared s)). reflexivity.
Qed.

Lemma callback_last_step (pc : CallbackPc) (w : World) :
  (forall lc, pc <> CStart lc) -> (forall c, pc <> CReadDesc c) ->
  fst (stepCallback pc w) = CDone.
Proof.
  intros Hs Hr. destruct pc as [lc|c|c|c|]; cbn [stepCallback]; rewrite ?bind_eq;
    try reflexivity.
  - exfalso. exact (Hs lc eq_refl).
  - exfalso. exact (Hr c eq_refl).
Qed.

Lemma callback_ends (pc : CallbackPc) (w : World) (hd : HandlerPc) :
  callbackPc (interleave (replicate 3 Callback)
                {| handlerPc := hd; callbackPc := pc; shared := w |}) = CDone.
Proof.
  cbn [replicate]. rewrite !interleave_cons. unfold interleave. cbn [foldl].
  rewrite !threadStep_callback. cbn [handlerPc callbackPc shared].
  set (pc1 := fst (stepCallback pc w)). set (w1 := snd (stepCallback pc w)).
  assert (H1' : forall lc, pc1 <> CStart lc).
  { subst pc1. intros lc. destruct pc as [[c|]|c|c|c|]; cbn [stepCallback];
      rewrite ?bind_eq; cbn [ret fst]; try discriminate.
    destruct (fst (remoteDescription w)); discriminate. }
  set (pc2 := fst (stepCallback pc1 w1)). set (w2 := snd (stepCallback pc1 w1)).
  assert (H2' : (forall lc, pc2 <> CStart lc) /\ (forall c, pc2 <> CReadDesc c)).
  { subst pc2. destruct pc1 as [lc|c|c|c|]; cbn [stepCallback]; rewrite ?bind_eq; cbn [ret fst].
    - exfalso. exact (H1' lc eq_refl).
    - destruct (fst (remoteDescription w1)); split; intros; discriminate.
    - split; intros; discriminate.
    - split; intros; discriminate.
    - split; intros; discriminate. }
  apply callback_last_step; apply H2'.
Qed.

(** From the start there is always a schedule without overlap under which
    both goroutines reach their end. *)
Lemma non_overlapping_schedule_finishes (message : string) (c : option ICECandidate)
    (w : World) :
  exists schedule,
    nonOverlapping schedule
    /\ finished (interleave schedule
                   {| handlerPc := HStart message; callbackPc := CStart c; shared := w |}).
Proof.
  set (s0 := {| handlerPc := HStart message; callbackPc := CStart c; shared := w |}).
  set (s1 := interleave (replicate 3 Callback) s0).
  destruct (handler_ends (handlerPc s1) (shared s1) (callbackPc s1)) as [n Hn].
  exists (replicate 3 Callback ++ replicate n Handler). split.
  - exists 3%nat, n. left. reflexivity.
  - rewrite interleave_app. fold s1.
    assert (Hs1 : s1 = {| handlerPc := handlerPc s1; callbackPc := callbackPc s1;
                          shared := shared s1 |}) by (destruct s1; reflexivity).
    rewrite Hs1. split; [exact Hn|].
    destruct (interleave_handler n {| handlerPc := handlerPc s1; callbackPc := callbackPc s1;
                                      shared := shared s1 |}) as [-> _].
    cbn [callbackPc]. apply callback_ends.
Qed.

(** The drain as seen on the websocket. *)
Lemma handleRemoteAnswer_sent (message : string) (sdp : SessionDescription)
    (pc1 pc2 : PeerConnection) (w : World) :
  unmarshalSessionDescription message = Ok sdp ->
  SetLocalDescription (peerConnection w) sdp = (pc1, None) ->
  SetRemoteDescription pc1 sdp = (pc2, None) ->
  peerConnection (snd (handleRemoteAnswer message w)) = pc2
  /\ pendingCandidates (snd (handleRemoteAnswer message w)) = pendingCandidates w
  /\ sent (trace (snd (handleRemoteAnswer message w)))
     = sent (trace w) ++ map candidateMessage (pendingCandidates w).
Proof.
  intros Hs Hl Hr.
  destruct (handleRemoteAnswer_success message sdp pc1 pc2 w Hs Hl Hr) as (Hpc & Hp & Hc).
  split; [exact Hpc|]. split; [exact Hp|].
  rewrite (sent_from_calls _ _ _ Hc). f_equal.
  cbn [app]. change (sent (?a :: ?b :: ?l)) with (sent l).
  rewrite <- (sent_writes (map candidateMessage (pendingCandidates w))), map_map.
  reflexivity.
Qed.

(** When the callback and the answer handler do not overlap, one running to
    its end before the other starts, what is written is the buffer and the
    new candidate, each once.  (When the handler runs first, the engine must
    report the remote description it has just accepted.) *)
Lemma non_overlapping_runs_lose_nothing
    (w : World) (message : string) (c : ICECandidate) (sdp : SessionDescription)
    (pc1 pc2 : PeerConnection) (schedule : list Tid) :
  unmarshalSessionDescription message = Ok sdp ->
  SetLocalDescription (peerConnection w) sdp = (pc1, None) ->
  SetRemoteDescription pc1 sdp = (pc2, None) ->
  is_Some (RemoteDescription pc2) ->
  nonOverlapping schedule ->
  finished (interleave schedule
              {| handlerPc := HStart message; callbackPc := CStart (Some c); shared := w |}) ->
  exists written : list string,
    sent (trace (shared (interleave schedule
            {| handlerPc := HStart message; callbackPc := CStart (Some c); shared := w |})))
    = sent (trace w) ++ written
    /\ written ≡ₚ map candidateMessage (pendingCandidates w ++ [c]).
Proof.
  intros Hs Hl Hr Hrd (n & m & [-> | ->]) [Hh Hc]; rewrite interleave_app in Hh, Hc |- *.
  - (* the callback first *)
    set (s0 := {| handlerPc := HStart message; callbackPc := CStart (Some c); shared := w |}) in *.
    destruct (interleave_callback n s0) as [Hh1 Hf1].
    set (s1 := interleave (replicate n Callback) s0) in *.
    destruct (interleave_handler m s1) as [Hc2 Hf2].
    set (s2 := interleave (replicate m Handler) s1) in *.
    rewrite Hh, Hh1 in Hf2. rewrite Hc in Hc2. rewrite <- Hc2 in Hf1.
    cbn [finishHandler finishCallback ret snd handlerPc callbackPc shared s0] in Hf1, Hf2.
    rewrite Hf2, Hf1. clear Hf1 Hf2.
    destruct (RemoteDescription (peerConnection w)) as [desc|] eqn:Hd.
    + destruct (onICECandidate_sends c desc w Hd) as (Hpc & Hp & Hcalls).
      rewrite <- Hpc in Hl.
      destruct (handleRemoteAnswer_sent message sdp pc1 pc2 _ Hs Hl Hr) as (_ & _ & ->).
      rewrite (sent_from_calls _ _ _ Hcalls), Hp, <- app_assoc.
      eexists. split; [reflexivity|].
      rewrite map_app. cbn. apply Permutation_cons_append.
    + destruct (onICECandidate_buffers c w Hd) as (Hpc & Hp & Hcalls).
      rewrite <- Hpc in Hl.
      destruct (handleRemoteAnswer_sent message sdp pc1 pc2 _ Hs Hl Hr) as (_ & _ & ->).
      rewrite Hp. rewrite (sent_from_calls w _ []) by (rewrite app_nil_r; exact Hcalls).
      cbn. rewrite app_nil_r. eexists. split; reflexivity.
  - (* the handler first *)
    set (s0 := {| handlerPc := HStart message; callbackPc := CStart (Some c); shared := w |}) in *.
    destruct (interleave_handler n s0) as [Hc1 Hf1].
    set (s1 := interleave (replicate n Handler) s0) in *.
    destruct (interleave_callback m s1) as [Hh2 Hf2].
    set (s2 := interleave (replicate m Callback) s1) in *.
    rewrite Hc, Hc1 in Hf2. rewrite Hh in Hh2. rewrite <- Hh2 in Hf1.
    cbn [finishHandler finishCallback ret snd handlerPc callbackPc shared s0] in Hf1, Hf2.
    rewrite Hf2, Hf1. clear Hf1 Hf2.
    destruct (handleRemoteAnswer_sent message sdp pc1 pc2 w Hs Hl Hr) as (Hpc & Hp & Hsent).
    destruct Hrd as [desc Hrd]. rewrite <- Hpc in Hrd.
    destruct (onICECandidate_sends c desc _ Hrd) as (_ & _ & Hcalls).
    rewrite (sent_from_calls _ _ _ Hcalls), Hsent, <- app_assoc.
    eexists. split; [reflexivity|].
    rewrite map_app. reflexivity.
Qed.

(** *** Further properties of the signaling handlers *)

(** X1: an "answer" that is not fully applied drains nothing.  When the
    payload does not parse no call is made; when the local description is
    refused the remote description is never tried; when the remote
    description is refused no candidate is written.  The buffer is left as
    it was in each case. *)
Theorem X1_answer_not_applied_drains_nothing (w : World) (message : string) :
  (forall e, unmarshalSessionDescription message = Fail e ->
     after w [] (snd (handleRemoteAnswer message w)))
  /\ (forall sdp pc1 e,
        unmarshalSessionDescription message = Ok sdp ->
        SetLocalDescription (peerConnection w) sdp = (pc1, Some e) ->
        reaches w pc1 [CallSetLocalDescription sdp] (snd (handleRemoteAnswer message w)))
  /\ (forall sdp pc1 pc2 e,
        unmarshalSessionDescription message = Ok sdp ->
        SetLocalDescription (peerConnection w) sdp = (pc1, None) ->
        SetRemoteDescription pc1 sdp = (pc2, Some e) ->
        reaches w pc2 [CallSetLocalDescription sdp; CallSetRemoteDescription sdp]
                (snd (handleRemoteAnswer message w))).
Proof.
  split; [|split].
  - intros e Hu. unfold handleRemoteAnswer. rewrite Hu. apply log_after.
  - intros sdp pc1 e Hu Hl. unfold handleRemoteAnswer. rewrite Hu. run_monad.
    rewrite Hl. calls_done.
  - intros sdp pc1 pc2 e Hu Hl Hr. unfold handleRemoteAnswer. rewrite Hu. run_monad.
    rewrite Hl. cbn [fst snd peerConnection]. rewrite Hr. calls_done.
Qed.

(** X2: a remote candidate message makes exactly one call, [AddICECandidate]
    with the decoded candidate, whether or not the engine accepts it; a
    candidate that does not decode (or is missing from the message) makes no
    call.  Either way nothing is written, the buffer is untouched and the
    loop goes on. *)
Theorem X2_remote_candidate_is_added_once
    (w : World) (messageType : Z) (message : string) (objmap : gmap string string) :
  unmarshalObject message = Ok objmap ->
  unmarshalString (objmap !!! "type") = Ok "iceCandidate" ->
  fst (controlTurn (Message messageType message) w) = Next
  /\ match unmarshalICECandidateInit (objmap !!! "candidate") with
     | Ok init =>
         reaches w (fst (AddICECandidate (peerConnection w) init)) [CallAddICECandidate init]
                 (snd (controlTurn (Message messageType message) w))
     | Fail _ => after w [] (snd (controlTurn (Message messageType message) w))
     end.
Proof.
  intros Ho Ht.
  destruct (controlTurn_dispatch messageType message "iceCandidate" objmap w Ho Ht)
    as (w0 & Hw0 & ->).
  unfold dispatch. cbn [String.eqb Ascii.eqb Bool.eqb]. rewrite bind_eq. cbn [ret fst snd].
  split; [reflexivity|].
  unfold handleRemoteIceCandidate.
  destruct (unmarshalICECandidateInit (objmap !!! "candidate")) as [init|e].
  - destruct Hw0 as (Hpc & Hp & Ht0). run_monad. rewrite Hpc.
    destruct (AddICECandidate (peerConnection w) init) as [pc' [e|]];
      unfold reaches; cbn [fst snd peerConnection pendingCandidates trace];
      rewrite ?calls_app, Ht0, Hp; cbn [calls omap isOutput];
      rewrite ?app_nil_r; auto.
  - rewrite <- (app_nil_r []). eapply after_trans; [exact Hw0 | apply log_after].
Qed.

(** The switch on the message type, for the types that only print or log. *)
Lemma dispatch_quiet (ty message : string) (objmap : gmap string string) (w : World) :
  ty <> "answer" -> ty <> "iceCandidate" -> ty <> "offer" ->
  fst (dispatch ty message objmap w) = Next
  /\ after w [] (snd (dispatch ty message objmap w)).
Proof.
  intros Ha Hi Ho. unfold dispatch.
  destruct (String.eqb ty "playerCount").
  { destruct (unmarshalInt (objmap !!! "count")) as [n|e]; rewrite !bind_eq; cbn [ret fst snd];
      (split; [reflexivity|]).
    - apply println_after.
    - rewrite <- (app_nil_r []). eapply after_trans; [apply log_after | apply println_after]. }
  destruct (String.eqb ty "config").
  { rewrite bind_eq. cbn [ret fst snd]. split; [reflexivity | apply println_after]. }
  destruct (String.eqb ty "answer") eqn:Ea.
  { apply String.eqb_eq in Ea. contradiction. }
  destruct (String.eqb ty "iceCandidate") eqn:Ei.
  { apply String.eqb_eq in Ei. contradiction. }
  destruct (String.eqb ty "offer") eqn:Eo.
  { apply String.eqb_eq in Eo. contradiction. }
  rewrite bind_eq. cbn [ret fst snd]. split; [reflexivity | apply log_after].
Qed.

(** X3: a turn of the control loop calls the engine or touches the websocket
    only for a failed read (which closes the websocket) or for a message that
    decodes with type "answer", "iceCandidate" or "offer".  Text that is not
    a JSON object, a missing or ill-typed [type], player counts, config
    messages and unknown types cause no call at all. *)
Theorem X3_calls_only_for_negotiation_messages (r : WsRead) (w : World) :
  calls (trace (snd (controlTurn r w))) <> calls (trace w) ->
  (exists e, r = ReadFailed e)
  \/ exists messageType message objmap ty,
       r = Message messageType message
       /\ unmarshalObject message = Ok objmap
       /\ unmarshalString (objmap !!! "type") = Ok ty
       /\ (ty = "answer" \/ ty = "iceCandidate" \/ ty = "offer").
Proof.
  intros Hc. destruct r as [messageType message|e]; [|left; eauto].
  right. exists messageType, message.
  assert (Hquiet : forall w', after w [] w' -> calls (trace w') = calls (trace w)).
  { intros w' (_ & _ & Ht). rewrite Ht. apply app_nil_r. }
  destruct (unmarshalObject message) as [objmap|e] eqn:Ho.
  2:{ exfalso. apply Hc. apply Hquiet. unfold controlTurn. rewrite bind_eq, Ho, bind_eq.
      cbn [ret snd]. rewrite <- (app_nil_r []).
      eapply after_trans; [apply println_after | apply log_after]. }
  destruct (unmarshalString (objmap !!! "type")) as [ty|e] eqn:Ht.
  2:{ exfalso. apply Hc. apply Hquiet. unfold controlTurn. rewrite bind_eq, Ho, Ht, bind_eq.
      cbn [ret snd]. rewrite <- (app_nil_r []).
      eapply after_trans; [apply println_after | apply log_after]. }
  exists objmap, ty. split; [reflexivity|]. split; [reflexivity|]. split; [exact Ht|].
  destruct (decide (ty = "answer")) as [|Ha]; [auto|].
  destruct (decide (ty = "iceCandidate")) as [|Hi]; [auto|].
  destruct (decide (ty = "offer")) as [|Hf]; [auto|].
  exfalso. apply Hc. apply Hquiet.
  destruct (controlTurn_dispatch messageType message ty objmap w Ho Ht) as (w0 & Hw0 & ->).
  rewrite <- (app_nil_r []). eapply after_trans; [exact Hw0|].
  apply dispatch_quiet; assumption.
Qed.

(** The switch always goes on, but for an "offer" that does not parse. *)
Lemma dispatch_flow (ty message : string) (objmap : gmap string string) (w : World) :
  fst (dispatch ty message objmap w)
  = if String.eqb ty "offer"
    then match unmarshalSessionDescription message with
         | Fail _ => Return
         | Ok _ => Next
         end
    else Next.
Proof.
  destruct (String.eqb ty "offer") eqn:Eo.
  - apply String.eqb_eq in Eo. subst ty. unfold dispatch. cbn [String.eqb Ascii.eqb Bool.eqb].
    destruct (unmarshalSessionDescription message); rewrite !bind_eq; reflexivity.
  - unfold dispatch. rewrite Eo.
    destruct (String.eqb ty "playerCount").
    { destruct (unmarshalInt (objmap !!! "count")); rewrite !bind_eq; reflexivity. }
    destruct (String.eqb ty "config"); [rewrite bind_eq; reflexivity|].
    destruct (String.eqb ty "answer"); [rewrite bind_eq; reflexivity|].
    destruct (String.eqb ty "iceCandidate"); [rewrite bind_eq; reflexivity|].
    rewrite bind_eq. reflexivity.
Qed.

Lemma controlTurn_flow (r : WsRead) (w : World) :
  fst (controlTurn r w) = loopExitOf r.
Proof.
  destruct r as [messageType message|e]; cbn [controlTurn loopExitOf].
  - rewrite bind_eq.
    destruct (unmarshalObject message) as [objmap|e]; [|rewrite bind_eq; reflexivity].
    destruct (unmarshalString (objmap !!! "type")) as [ty|e]; [|rewrite bind_eq; reflexivity].
    apply dispatch_flow.
  - rewrite !bind_eq. reflexivity.
Qed.

(** X4: whether the control loop goes on after a message depends on the
    message alone, never on what the engine or the websocket answer: it
    breaks on a failed read, returns on an "offer" whose payload does not
    parse, and goes on otherwise.  So the loop reads everything up to the
    first such input, stops there and leaves the rest unread; without one
    it reads the whole inbox and waits for more. *)
Theorem X4_loop_exit_depends_on_message_only :
  (forall r w, fst (controlTurn r w) = loopExitOf r)
  /\ (forall inbox w,
        Forall (fun r => loopExitOf r = Next) inbox ->
        fst (startControlLoop inbox w) = (AwaitingMessage, []))
  /\ (forall before r rest w,
        Forall (fun r => loopExitOf r = Next) before ->
        loopExitOf r <> Next ->
        fst (startControlLoop (before ++ r :: rest) w) = (exitOfFlow (loopExitOf r), rest)).
Proof.
  split; [exact controlTurn_flow|]. split.
  - intros inbox. induction inbox as [|r inbox IH]; intros w Hall; [reflexivity|].
    inversion Hall as [|? ? Hr Hrest]; subst. cbn [startControlLoop].
    rewrite bind_eq, controlTurn_flow, Hr. apply IH. exact Hrest.
  - intros before. induction before as [|r0 before IH]; intros r rest w Hall Hr.
    + cbn [app startControlLoop]. rewrite bind_eq, controlTurn_flow.
      destruct (loopExitOf r); [congruence | reflexivity | reflexivity].
    + inversion Hall as [|? ? Hr0 Hrest]; subst. cbn [app startControlLoop].
      rewrite bind_eq, controlTurn_flow, Hr0. apply IH; assumption.
Qed.

(** X5: a local candidate that cannot be encoded is still sent: the
    websocket gets one message, the empty text. *)
Theorem X5_unencodable_candidate_sends_empty_message
    (c : ICECandidate) (e : goError) (w : World) :
  marshalICECandidateResp {| respType := "iceCandidate"; respCandidate := ToJSON c |} = Fail e ->
  after w [CallWriteMessage ""] (snd (sendLocalIceCandidate c w))
  /\ sent (trace (snd (sendLocalIceCandidate c w))) = sent (trace w) ++ [""].
Proof.
  intros Hm. pose proof (sendLocalIceCandidate_after c w) as Ha.
  unfold candidateMessage in Ha. rewrite Hm in Ha. split; [exact Ha|].
  destruct Ha as (_ & _ & Hc). rewrite (sent_from_calls _ _ _ Hc). reflexivity.
Qed.

(** X6: an "offer" for which the engine creates no answer, or whose answer
    cannot be encoded, puts nothing on the websocket; the loop goes on. *)
Theorem X6_offer_without_answer_sends_nothing
    (w : World) (messageType : Z) (message : string) (objmap : gmap string string)
    (sdp : SessionDescription) (pc1 : PeerConnection) (remoteErr : option goError) :
  unmarshalObject message = Ok objmap ->
  unmarshalString (objmap !!! "type") = Ok "offer" ->
  unmarshalSessionDescription message = Ok sdp ->
  SetRemoteDescription (peerConnection w) sdp = (pc1, remoteErr) ->
  ((exists pc2 e, CreateAnswer pc1 = (pc2, Fail e))
   \/ exists pc2 answer e,
        CreateAnswer pc1 = (pc2, Ok answer) /\ marshalSessionDescription answer = Fail e) ->
  fst (controlTurn (Message messageType message) w) = Next
  /\ sent (trace (snd (controlTurn (Message messageType message) w))) = sent (trace w).
Proof.
  intros Ho Ht Hs Hr Hno.
  destruct (controlTurn_dispatch messageType message "offer" objmap w Ho Ht) as (w0 & Hw0 & ->).
  assert (Hr0 : SetRemoteDescription (peerConnection w0) sdp = (pc1, remoteErr)).
  { destruct Hw0 as (-> & _). exact Hr. }
  destruct (dispatch_offer w0 message objmap sdp pc1 remoteErr Hs Hr0) as (w1 & Hw1 & ->).
  cbn [fst snd]. split; [reflexivity|].
  assert (Hpc1 : peerConnection w1 = pc1) by (destruct Hw1 as (-> & _); reflexivity).
  assert (Hsent1 : sent (trace w1) = sent (trace w)).
  { destruct Hw0 as (_ & _ & Hc0). destruct Hw1 as (_ & _ & Hc1).
    rewrite (sent_from_calls _ _ _ Hc1), (sent_from_calls _ _ _ Hc0). cbn.
    rewrite !app_nil_r. reflexivity. }
  rewrite <- Hsent1.
  destruct Hno as [(pc2 & e & Hc) | (pc2 & answer & e & Hc & He)]; rewrite <- Hpc1 in Hc.
  - destruct (sendAnswer_no_answer w1 pc2 e Hc) as (_ & _ & Hcalls).
    rewrite (sent_from_calls _ _ _ Hcalls). cbn. apply app_nil_r.
  - destruct (SetLocalDescription pc2 answer) as [pc3 localErr] eqn:Hl.
    destruct (sendAnswer_not_encoded w1 answer pc2 pc3 localErr e Hc Hl He) as (_ & _ & Hcalls).
    rewrite (sent_from_calls _ _ _ Hcalls). cbn. apply app_nil_r.
Qed.

(** *** Whole runs: discovery order and what becomes of a candidate *)

Lemma extendsTrace_ret {A} (a : A) : extendsTrace (ret a).
Proof. intros w. exists []. symmetry. apply app_nil_r. Qed.

Lemma extendsTrace_bind {A B} (m : M A) (k : A -> M B) :
  extendsTrace m -> (forall a, extendsTrace (k a)) -> extendsTrace (bind m k).
Proof.
  intros Hm Hk w. rewrite bind_eq.
  destruct (Hm w) as [tr1 Ht1]. destruct (Hk (fst (m w)) (snd (m w))) as [tr2 Ht2].
  exists (tr1 ++ tr2). rewrite Ht2, Ht1, app_assoc. reflexivity.
Qed.

Lemma extendsTrace_emit (e : Event) : extendsTrace (emit e).
Proof. intros w. exists [e]. reflexivity. Qed.

Lemma extendsTrace_engine {A} (e : Event) (call : PeerConnection -> PeerConnection * A) :
  extendsTrace (engine e call).
Proof.
  intros w. exists [e]. unfold engine. destruct (call (peerConnection w)). reflexivity.
Qed.

Lemma extendsTrace_wsWrite (msg : string) : extendsTrace (wsWrite msg).
Proof.
  intros w. exists [CallWriteMessage msg]. unfold wsWrite.
  destruct (WriteMessage (wsConn w) msg). reflexivity.
Qed.

Lemma extendsTrace_state {A} (f : World -> A) : extendsTrace (fun w => (f w, w)).
Proof. intros w. exists []. symmetry. apply app_nil_r. Qed.

Lemma extendsTrace_appendPending (c : ICECandidate) : extendsTrace (appendPending c).
Proof. intros w. exists []. symmetry. apply app_nil_r. Qed.

Ltac extends :=
  repeat first
    [ apply extendsTrace_ret
    | apply extendsTrace_emit
    | apply extendsTrace_engine
    | apply extendsTrace_wsWrite
    | apply extendsTrace_appendPending
    | apply (extendsTrace_state pendingCandidates)
    | apply extendsTrace_bind; [|intros ?]
    | match goal with
      | |- extendsTrace (match ?x with _ => _ end) => destruct x
      end ].

Lemma extendsTrace_sendLocalIceCandidate (c : ICECandidate) :
  extendsTrace (sendLocalIceCandidate c).
Proof.
  unfold sendLocalIceCandidate, writeWSMessage, log, println. extends.
Qed.

Lemma extendsTrace_sendAll (cs : list ICECandidate) : extendsTrace (sendAll cs).
Proof.
  induction cs as [|c cs IH]; cbn [sendAll].
  - apply extendsTrace_ret.
  - apply extendsTrace_bind; [apply extendsTrace_sendLocalIceCandidate | intros _; exact IH].
Qed.

Lemma extendsTrace_controlTurn (r : WsRead) : extendsTrace (controlTurn r).
Proof.
  unfold controlTurn, dispatch, handleRemoteIceCandidate, handleRemoteAnswer, sendAnswer,
    createAnswer, setLocalDescription, setRemoteDescription, writeWSMessage, getPending,
    log, println.
  destruct r as [messageType message|e]; extends;
    repeat match goal with
           | |- extendsTrace (if ?c then _ else _) => destruct c
           end;
    extends; apply extendsTrace_sendAll.
Qed.

Lemma extendsTrace_onICECandidate (c : option ICECandidate) : extendsTrace (onICECandidate c).
Proof.
  unfold onICECandidate, remoteDescription, log. extends;
    first [ apply extendsTrace_sendLocalIceCandidate
          | apply (extendsTrace_state (fun w => RemoteDescription (peerConnection w))) ].
Qed.

Lemma extendsTrace_run (inputs : list Input) : extendsTrace (run inputs).
Proof.
  induction inputs as [|[r|c] inputs IH]; cbn [run].
  - apply extendsTrace_ret.
  - apply extendsTrace_bind; [apply extendsTrace_controlTurn|].
    intros [| |]; [exact IH | apply extendsTrace_ret | apply extendsTrace_ret].
  - apply extendsTrace_bind; [apply extendsTrace_onICECandidate | intros _; exact IH].
Qed.

(** What was sent stays sent, and what was buffered stays buffered. *)
Lemma run_keeps (inputs : list Input) (w : World) :
  (forall msg, msg ∈ sent (trace w) -> msg ∈ sent (trace (snd (run inputs w))))
  /\ (forall c, c ∈ pendingCandidates w -> c ∈ pendingCandidates (snd (run inputs w))).
Proof.
  split.
  - intros msg Hm. destruct (extendsTrace_run inputs w) as [tr ->].
    rewrite sent_app. apply elem_of_app. left. exact Hm.
  - intros c Hc. destruct (run_never_shrinks_buffer inputs w) as [added ->].
    apply elem_of_app. left. exact Hc.
Qed.

(** Discoveries made without a remote description fill the buffer in the
    order they are made, and nothing is written. *)
Lemma run_discoveries_buffered (cs : list ICECandidate) : forall (rest : list Input) (w : World),
  RemoteDescription (peerConnection w) = None ->
  exists w1,
    peerConnection w1 = peerConnection w
    /\ pendingCandidates w1 = pendingCandidates w ++ cs
    /\ calls (trace w1) = calls (trace w)
    /\ run (discoveries cs ++ rest) w = run rest w1.
Proof.
  induction cs as [|c cs IH]; intros rest w Hd.
  - exists w. rewrite app_nil_r. auto.
  - cbn [discoveries map app run]. rewrite bind_eq.
    destruct (onICECandidate_buffers c w Hd) as (Hpc & Hp & Hc).
    destruct (IH rest (snd (onICECandidate (Some c) w))) as (w1 & Hpc1 & Hp1 & Hc1 & Hrun).
    { rewrite Hpc. exact Hd. }
    exists w1. rewrite Hpc1, Hp1, Hc1, Hpc, Hp, Hc, <- app_assoc. auto.
Qed.

(** Discoveries made with a remote description present are written in the
    order they are made, and the buffer stays as it was. *)
Lemma run_discoveries_sent (cs : list ICECandidate) : forall (rest : list Input) (w : World),
  is_Some (RemoteDescription (peerConnection w)) ->
  exists w1,
    after w (map (fun c => CallWriteMessage (candidateMessage c)) cs) w1
    /\ run (discoveries cs ++ rest) w = run rest w1.
Proof.
  induction cs as [|c cs IH]; intros rest w Hd.
  - exists w. split; [|reflexivity]. unfold after, reaches. rewrite app_nil_r. auto.
  - cbn [discoveries map app run]. rewrite bind_eq.
    destruct Hd as [desc Hd].
    pose proof (onICECandidate_sends c desc w Hd) as Ha.
    destruct (IH rest (snd (onICECandidate (Some c) w))) as (w1 & Hw1 & Hrun).
    { destruct Ha as (-> & _). exists desc. exact Hd. }
    exists w1. split; [|exact Hrun].
    change (?x :: ?l) with ([x] ++ l). eapply after_trans; [exact Ha | exact Hw1].
Qed.

(** An "answer" that is applied, as one turn of the control loop. *)
Lemma controlTurn_answer (w : World) (messageType : Z) (message : string)
    (objmap : gmap string string) (sdp : SessionDescription) (pc1 pc2 : PeerConnection) :
  unmarshalObject message = Ok objmap ->
  unmarshalString (objmap !!! "type") = Ok "answer" ->
  unmarshalSessionDescription message = Ok sdp ->
  SetLocalDescription (peerConnection w) sdp = (pc1, None) ->
  SetRemoteDescription pc1 sdp = (pc2, None) ->
  fst (controlTurn (Message messageType message) w) = Next
  /\ pendingCandidates (snd (controlTurn (Message messageType message) w)) = pendingCandidates w
  /\ sent (trace (snd (controlTurn (Message messageType message) w)))
     = sent (trace w) ++ map candidateMessage (pendingCandidates w).
Proof.
  intros Ho Ht Hsdp Hl Hr.
  destruct (controlTurn_dispatch messageType message "answer" objmap w Ho Ht) as (w0 & Hw0 & ->).
  unfold dispatch. cbn [String.eqb Ascii.eqb Bool.eqb]. rewrite bind_eq. cbn [ret fst snd].
  split; [reflexivity|].
  destruct Hw0 as (Hpc & Hp & Hc). rewrite <- Hpc in Hl.
  destruct (handleRemoteAnswer_sent message sdp pc1 pc2 w0 Hsdp Hl Hr) as (_ & -> & ->).
  rewrite Hp. split; [reflexivity|]. f_equal.
  rewrite (sent_from_calls w w0 []) by exact Hc. cbn. apply app_nil_r.
Qed.

(** X7: candidates discovered one after the other while the session has no
    remote description, followed by an "answer" that is applied, are written
    to the websocket in the order of their discovery, each once, after
    whatever the buffer held before. *)
Theorem X7_candidates_are_sent_in_discovery_order
    (w : World) (cs : list ICECandidate) (messageType : Z) (message : string)
    (objmap : gmap string string) (sdp : SessionDescription) (pc1 pc2 : PeerConnection) :
  RemoteDescription (peerConnection w) = None ->
  unmarshalObject message = Ok objmap ->
  unmarshalString (objmap !!! "type") = Ok "answer" ->
  unmarshalSessionDescription message = Ok sdp ->
  SetLocalDescription (peerConnection w) sdp = (pc1, None) ->
  SetRemoteDescription pc1 sdp = (pc2, None) ->
  fst (run (discoveries cs ++ [Signal (Message messageType message)]) w) = None
  /\ sent (trace (snd (run (discoveries cs ++ [Signal (Message messageType message)]) w)))
     = sent (trace w) ++ map candidateMessage (pendingCandidates w ++ cs).
Proof.
  intros Hd Ho Ht Hsdp Hl Hr.
  destruct (run_discoveries_buffered cs [Signal (Message messageType message)] w Hd)
    as (w1 & Hpc & Hp & Hc & ->).
  cbn [run]. rewrite bind_eq. rewrite <- Hpc in Hl.
  destruct (controlTurn_answer w1 messageType message objmap sdp pc1 pc2 Ho Ht Hsdp Hl Hr)
    as (-> & _ & Hs).
  cbn [ret fst snd]. split; [reflexivity|].
  rewrite Hs, Hp. f_equal.
  rewrite (sent_from_calls w w1 []) by (rewrite app_nil_r; exact Hc). cbn. apply app_nil_r.
Qed.

(** X8: once the session has a remote description, candidates discovered one
    after the other are written at once, in the order of their discovery,
    and none enters the buffer. *)
Theorem X8_candidates_after_negotiation_bypass_the_buffer
    (w : World) (cs : list ICECandidate) :
  is_Some (RemoteDescription (peerConnection w)) ->
  pendingCandidates (snd (run (discoveries cs) w)) = pendingCandidates w
  /\ sent (trace (snd (run (discoveries cs) w))) = sent (trace w) ++ map candidateMessage cs.
Proof.
  intros Hd. destruct (run_discoveries_sent cs [] w Hd) as (w1 & (_ & Hp & Hc) & Hrun).
  rewrite app_nil_r in Hrun. rewrite Hrun. cbn [run ret snd].
  split; [exact Hp|].
  rewrite (sent_from_calls _ _ _ Hc). f_equal.
  rewrite <- (sent_writes (map candidateMessage cs)), map_map. reflexivity.
Qed.

(** X9: in a run whose inputs are handled one at a time and during which the
    control loop keeps going, no discovered candidate is dropped: at the end
    each one is in the buffer or has been written to the websocket. *)
Theorem X9_no_discovered_candidate_is_dropped
    (inputs : list Input) (c : ICECandidate) (w : World) :
  fst (run inputs w) = None ->
  c ∈ discovered inputs ->
  c ∈ pendingCandidates (snd (run inputs w))
  \/ candidateMessage c ∈ sent (trace (snd (run inputs w))).
Proof.
  revert w. induction inputs as [|[r|[c0|]] inputs IH]; intros w Hrun Hc.
  - cbn in Hc. apply elem_of_nil in Hc. contradiction.
  - cbn [run] in Hrun |- *. rewrite bind_eq in Hrun |- *.
    destruct (fst (controlTurn r w)); [|discriminate|discriminate].
    apply IH; assumption.
  - cbn [run] in Hrun |- *. rewrite bind_eq in Hrun |- *.
    change (discovered (Discovered (Some c0) :: inputs)) with (c0 :: discovered inputs) in Hc.
    apply elem_of_cons in Hc. destruct Hc as [-> | Hc]; [|apply IH; assumption].
    destruct (run_keeps inputs (snd (onICECandidate (Some c0) w))) as [Hsent Hpend].
    destruct (RemoteDescription (peerConnection w)) as [desc|] eqn:Hd.
    + right. apply Hsent.
      destruct (onICECandidate_sends c0 desc w Hd) as (_ & _ & Hcalls).
      rewrite (sent_from_calls _ _ _ Hcalls). apply elem_of_app. right.
      cbn. apply list_elem_of_here.
    + left. apply Hpend.
      destruct (onICECandidate_buffers c0 w Hd) as (_ & -> & _).
      apply elem_of_app. right. apply list_elem_of_here.
  - cbn [run] in Hrun |- *. rewrite bind_eq in Hrun |- *.
    apply IH; assumption.
Qed.

(** *** The callback overlapping the answer handler, under any schedule *)

(** What one step of the handler does to the buffer and the websocket. *)
Lemma stepHandler_effect (pc : HandlerPc) (w : World) :
  pendingCandidates (snd (stepHandler pc w)) = pendingCandidates w
  /\ match pc with
     | HSend (c :: rest) =>
         fst (stepHandler pc w) = HSend rest
         /\ sent (trace (snd (stepHandler pc w))) = sent (trace w) ++ [candidateMessage c]
     | HSend [] | HDone =>
         fst (stepHandler pc w) = HDone
         /\ sent (trace (snd (stepHandler pc w))) = sent (trace w)
     | HRange =>
         fst (stepHandler pc w) = HSend (pendingCandidates w)
         /\ sent (trace (snd (stepHandler pc w))) = sent (trace w)
     | _ =>
         (forall rest, fst (stepHandler pc w) <> HSend rest)
         /\ sent (trace (snd (stepHandler pc w))) = sent (trace w)
     end.
Proof.
  destruct pc as [message|sdp|sdp| |[|c rest]|]; cbn [stepHandler].
  - destruct (unmarshalSessionDescription message) as [sdp|e]; run_monad;
      rewrite ?sent_app; cbn; rewrite ?app_nil_r; repeat split; congruence.
  - run_monad. destruct (SetLocalDescription (peerConnection w) sdp) as [pc' [e|]];
      cbn; rewrite ?sent_app; cbn; rewrite ?app_nil_r; repeat split; congruence.
  - run_monad. destruct (SetRemoteDescription (peerConnection w) sdp) as [pc' [e|]];
      cbn; rewrite ?sent_app; cbn; rewrite ?app_nil_r; repeat split; congruence.
  - run_monad. auto.
  - cbn. auto.
  - rewrite bind_eq. cbn [ret fst snd].
    destruct (sendLocalIceCandidate_after c w) as (_ & Hp & Hc).
    split; [exact Hp|]. split; [reflexivity|].
    rewrite (sent_from_calls _ _ _ Hc). reflexivity.
  - cbn. auto.
Qed.

(** What one step of the callback does to the buffer and the websocket. *)
Lemma stepCallback_effect (pc : CallbackPc) (w : World) :
  match pc with
  | CStart x =>
      fst (stepCallback pc w) = match x with Some c => CReadDesc c | None => CDone end
      /\ pendingCandidates (snd (stepCallback pc w)) = pendingCandidates w
      /\ sent (trace (snd (stepCallback pc w))) = sent (trace w)
  | CReadDesc c =>
      (fst (stepCallback pc w) = CAppend c \/ fst (stepCallback pc w) = CSend c)
      /\ pendingCandidates (snd (stepCallback pc w)) = pendingCandidates w
      /\ sent (trace (snd (stepCallback pc w))) = sent (trace w)
  | CAppend c =>
      fst (stepCallback pc w) = CDone
      /\ pendingCandidates (snd (stepCallback pc w)) = pendingCandidates w ++ [c]
      /\ sent (trace (snd (stepCallback pc w))) = sent (trace w)
  | CSend c =>
      fst (stepCallback pc w) = CDone
      /\ pendingCandidates (snd (stepCallback pc w)) = pendingCandidates w
      /\ sent (trace (snd (stepCallback pc w))) = sent (trace w) ++ [candidateMessage c]
  | CDone =>
      fst (stepCallback pc w) = CDone
      /\ pendingCandidates (snd (stepCallback pc w)) = pendingCandidates w
      /\ sent (trace (snd (stepCallback pc w))) = sent (trace w)
  end.
Proof.
  destruct pc as [[c|]|c|c|c|]; cbn [stepCallback].
  - run_monad. rewrite !sent_app. cbn. rewrite !app_nil_r. auto.
  - run_monad. rewrite !sent_app. cbn. rewrite !app_nil_r. auto.
  - run_monad. destruct (RemoteDescription (peerConnection w)); cbn; auto.
  - run_monad. rewrite !sent_app. cbn. rewrite !app_nil_r. auto.
  - rewrite bind_eq. cbn [ret fst snd].
    destruct (sendLocalIceCandidate_after c w) as (_ & Hp & Hc).
    split; [reflexivity|]. split; [exact Hp|].
    rewrite (sent_from_calls _ _ _ Hc). reflexivity.
  - cbn. auto.
Qed.

Lemma overlapInv_start (message : string) (c : ICECandidate) (w : World) :
  overlapInv w c {| handlerPc := HStart message; callbackPc := CStart (Some c); shared := w |}.
Proof.
  exists [], [], false, []. cbn. rewrite !app_nil_r. repeat split; reflexivity.
Qed.

Lemma overlapInv_step (w0 : World) (c : ICECandidate) (t : Tid) (s : Threads) :
  overlapInv w0 c s -> overlapInv w0 c (threadStep t s).
Proof.
  intros (hdone & cw & ap & written & Hs & Hw & Hp & Hc & Hh).
  destruct s as [hpc cpc w]. cbn [handlerPc callbackPc shared] in *.
  destruct t; unfold threadStep; cbn [handlerPc callbackPc shared].
  - pose proof (stepHandler_effect hpc w) as [Hk He].
    destruct (stepHandler hpc w) as [hpc' w']. cbn [fst snd] in *.
    destruct hpc as [message|sdp|sdp| |[|c' rest]|]; cbn [handlerAt] in Hh.
    + destruct He as [Hn He]. exists hdone, cw, ap, written.
      cbn [handlerPc callbackPc shared]. rewrite He, Hk.
      repeat split; try assumption. subst hdone.
      destruct hpc'; cbn; auto. destruct (Hn rest). reflexivity.
    + destruct He as [Hn He]. exists hdone, cw, ap, written.
      cbn [handlerPc callbackPc shared]. rewrite He, Hk.
      repeat split; try assumption. subst hdone.
      destruct hpc'; cbn; auto. destruct (Hn rest). reflexivity.
    + destruct He as [Hn He]. exists hdone, cw, ap, written.
      cbn [handlerPc callbackPc shared]. rewrite He, Hk.
      repeat split; try assumption. subst hdone.
      destruct hpc'; cbn; auto. destruct (Hn rest). reflexivity.
    + destruct He as [-> He]. exists hdone, cw, ap, written.
      cbn [handlerPc callbackPc shared]. rewrite He, Hk.
      repeat split; try assumption. subst hdone. cbn. rewrite Hp.
      destruct ap; [right|left; rewrite app_nil_r]; auto.
    + destruct He as [-> He]. exists hdone, cw, ap, written.
      cbn [handlerPc callbackPc shared]. rewrite He, Hk.
      repeat split; try assumption. cbn. rewrite app_nil_r in Hh.
      destruct Hh as [Hh|Hh]; auto.
    + destruct He as [-> He].
      exists (hdone ++ [c']), cw, ap, (written ++ [candidateMessage c']).
      cbn [handlerPc callbackPc shared]. rewrite He, Hk, Hs.
      split; [rewrite app_assoc; reflexivity|].
      split.
      { rewrite Hw, map_app. cbn. rewrite <- !app_assoc.
        apply Permutation_app_head, Permutation_app_comm. }
      repeat split; try assumption. cbn. rewrite <- !app_assoc. exact Hh.
    + destruct He as [-> He]. exists hdone, cw, ap, written.
      cbn [handlerPc callbackPc shared]. rewrite He, Hk.
      repeat split; assumption.
  - pose proof (stepCallback_effect cpc w) as He.
    destruct (stepCallback cpc w) as [cpc' w']. cbn [fst snd] in *.
    destruct cpc as [x|x|x|x|]; cbn [callbackAt] in Hc.
    + destruct Hc as (-> & -> & ->). destruct He as (-> & Hk & He).
      exists hdone, [], false, written. cbn [handlerPc callbackPc shared].
      rewrite He, Hk. repeat split; assumption || reflexivity.
    + destruct Hc as (-> & -> & ->). destruct He as (Hn & Hk & He).
      exists hdone, [], false, written. cbn [handlerPc callbackPc shared].
      rewrite He, Hk. repeat split; try assumption.
      destruct Hn as [-> | ->]; cbn; auto.
    + destruct Hc as (-> & -> & ->). destruct He as (-> & Hk & He).
      exists hdone, [], true, written. cbn [handlerPc callbackPc shared].
      cbn [app] in Hp. rewrite app_nil_r in Hp. rewrite He, Hk, Hp.
      split; [assumption|]. split; [assumption|]. split; [reflexivity|]. split.
      * cbn. auto.
      * destruct hpc; cbn in *; try assumption.
        -- destruct Hh as [Hh|[_ Hh]]; [left; exact Hh | discriminate Hh].
        -- destruct Hh as [Hh|[Hh|[_ Hh]]]; [auto | auto | discriminate Hh].
    + destruct Hc as (-> & -> & ->). destruct He as (-> & Hk & He).
      exists hdone, [candidateMessage c], false, (written ++ [candidateMessage c]).
      cbn [handlerPc callbackPc shared].
      rewrite He, Hk, Hs. split; [rewrite app_assoc; reflexivity|].
      split; [rewrite Hw, app_nil_r; reflexivity|].
      repeat split; try assumption. cbn. auto.
    + destruct He as (-> & Hk & He). exists hdone, cw, ap, written.
      cbn [handlerPc callbackPc shared]. rewrite He, Hk. repeat split; assumption.
Qed.

Lemma overlapInv_interleave (w0 : World) (c : ICECandidate) (schedule : list Tid) :
  forall s : Threads, overlapInv w0 c s -> overlapInv w0 c (interleave schedule s).
Proof.
  induction schedule as [|t schedule IH]; intros s Hs; [exact Hs|].
  rewrite interleave_cons. apply IH, overlapInv_step, Hs.
Qed.

(** X14: however the steps of the candidate callback and of the answer handler
    interleave, and however far the two have got, what has been written to the
    websocket since they started is within the buffered candidates and the
    new one, each at most once; the buffer still begins with what it held; and
    once the callback is through, the new candidate is in the buffer or has
    been written. *)
Theorem X14_overlap_never_duplicates_or_destroys
    (schedule : list Tid) (message : string) (c : ICECandidate) (w : World) :
  exists written : list string,
    sent (trace (shared (overlapped message c w schedule))) = sent (trace w) ++ written
    /\ written ⊆+ map candidateMessage (pendingCandidates w ++ [c])
    /\ pendingCandidates w `prefix_of` pendingCandidates (shared (overlapped message c w schedule))
    /\ (callbackPc (overlapped message c w schedule) = CDone ->
        c ∈ pendingCandidates (shared (overlapped message c w schedule))
        \/ candidateMessage c ∈ written).
Proof.
  unfold overlapped.
  destruct (overlapInv_interleave w c schedule _ (overlapInv_start message c w))
    as (hdone & cw & ap & written & Hs & Hw & Hp & Hc & Hh).
  set (s := interleave schedule _) in *.
  exists written. split; [exact Hs|].
  assert (Hcw : cw = [] \/ (cw = [candidateMessage c] /\ ap = false)).
  { destruct (callbackPc s); cbn in Hc; intuition. }
  assert (Hd : exists rest, hdone ++ rest = pendingCandidates w
                            \/ (hdone ++ rest = pendingCandidates w ++ [c] /\ ap = true)).
  { destruct (handlerPc s) as [| | | |rest|]; cbn in Hh;
      try (subst hdone; exists (pendingCandidates w); left; reflexivity).
    - exists rest. exact Hh.
    - destruct Hh as [->|[->|[-> ->]]].
      + exists (pendingCandidates w). left. reflexivity.
      + exists []. left. apply app_nil_r.
      + exists []. right. split; [apply app_nil_r | reflexivity]. }
  split.
  { rewrite Hw, map_app. cbn [map].
    destruct Hd as [rest [Hd|[Hd ->]]].
    - apply submseteq_app.
      + rewrite <- Hd, map_app. apply submseteq_inserts_r. reflexivity.
      + destruct Hcw as [->|[-> _]]; [apply submseteq_nil_l | reflexivity].
    - destruct Hcw as [->|[_ Hf]]; [|discriminate Hf].
      rewrite app_nil_r, <- map_app with (l' := [c]), <- Hd, map_app.
      apply submseteq_inserts_r. reflexivity. }
  split; [rewrite Hp; apply prefix_app_r; reflexivity|].
  intros Hdone. rewrite Hdone in Hc. cbn in Hc. destruct Hc as [[-> _]|[_ ->]].
  - right. rewrite Hw. apply elem_of_app. right. apply list_elem_of_here.
  - left. rewrite Hp. apply elem_of_app. right. apply list_elem_of_here.
Qed.

(** *** Candidates found before an offer *)

(** A run that has not ended goes on with the rest of the inputs. *)
Lemma run_app (inputs1 inputs2 : list Input) : forall w : World,
  fst (run inputs1 w) = None ->
  run (inputs1 ++ inputs2) w = run inputs2 (snd (run inputs1 w)).
Proof.
  induction inputs1 as [|[r|c] inputs1 IH]; intros w Hn; cbn [app run] in *.
  - reflexivity.
  - rewrite bind_eq in Hn |- *. rewrite bind_eq.
    destruct (fst (controlTurn r w)); [apply IH; exact Hn | discriminate Hn | discriminate Hn].
  - rewrite bind_eq in Hn |- *. rewrite bind_eq. apply IH. exact Hn.
Qed.

(** What [sendAnswer] does to the buffer and the websocket: it writes the
    encoded answer, or nothing. *)
Lemma sendAnswer_effect (w : World) :
  pendingCandidates (snd (sendAnswer w)) = pendingCandidates w
  /\ exists reply : list string,
       (reply = []
        \/ exists answer text, marshalSessionDescription answer = Ok text /\ reply = [text])
       /\ sent (trace (snd (sendAnswer w))) = sent (trace w) ++ reply.
Proof.
  destruct (CreateAnswer (peerConnection w)) as [pc2 [answer|e]] eqn:Hc.
  - destruct (SetLocalDescription pc2 answer) as [pc3 localErr] eqn:Hl.
    destruct (marshalSessionDescription answer) as [text|e] eqn:Hm.
    + destruct (sendAnswer_writes w answer pc2 pc3 localErr text Hc Hl Hm) as (_ & Hp & Hcalls).
      split; [exact Hp|]. exists [text]. split; [right; exists answer, text; auto|].
      rewrite (sent_from_calls _ _ _ Hcalls). reflexivity.
    + destruct (sendAnswer_not_encoded w answer pc2 pc3 localErr e Hc Hl Hm)
        as (_ & Hp & Hcalls).
      split; [exact Hp|]. exists []. split; [left; reflexivity|].
      rewrite (sent_from_calls _ _ _ Hcalls). reflexivity.
  - destruct (sendAnswer_no_answer w pc2 e Hc) as (_ & Hp & Hcalls).
    split; [exact Hp|]. exists []. split; [left; reflexivity|].
    rewrite (sent_from_calls _ _ _ Hcalls). reflexivity.
Qed.

(** An "offer" whose payload parses, as one turn of the control loop. *)
Lemma controlTurn_offer (w : World) (messageType : Z) (message : string)
    (objmap : gmap string string) (sdp : SessionDescription) :
  unmarshalObject message = Ok objmap ->
  unmarshalString (objmap !!! "type") = Ok "offer" ->
  unmarshalSessionDescription message = Ok sdp ->
  fst (controlTurn (Message messageType message) w) = Next
  /\ pendingCandidates (snd (controlTurn (Message messageType message) w)) = pendingCandidates w
  /\ exists reply : list string,
       (reply = []
        \/ exists answer text, marshalSessionDescription answer = Ok text /\ reply = [text])
       /\ sent (trace (snd (controlTurn (Message messageType message) w)))
          = sent (trace w) ++ reply.
Proof.
  intros Ho Ht Hsdp.
  destruct (controlTurn_dispatch messageType message "offer" objmap w Ho Ht) as (w0 & Hw0 & ->).
  destruct (SetRemoteDescription (peerConnection w0) sdp) as [pc1 remoteErr] eqn:Hr.
  destruct (dispatch_offer w0 message objmap sdp pc1 remoteErr Hsdp Hr)
    as (w1 & (_ & Hp1 & Hc1) & ->).
  cbn [fst snd]. split; [reflexivity|].
  destruct (sendAnswer_effect w1) as (Hp & reply & Hreply & Hs).
  destruct Hw0 as (_ & Hp0 & Hc0).
  split; [rewrite Hp, Hp1, Hp0; reflexivity|].
  exists reply. split; [exact Hreply|].
  rewrite Hs, (sent_from_calls _ _ _ Hc1), (sent_from_calls _ _ _ Hc0). cbn.
  rewrite !app_nil_r. reflexivity.
Qed.

(** X15: only an "answer" drains the buffer.  Candidates discovered while the
    session has no remote description stay in the buffer, unsent, when an
    "offer" is handled, although the offer gives the session its remote
    description and the candidates discovered after it are written at once:
    what is written is the encoded answer, if any, then the later
    candidates. *)
Theorem X15_candidates_before_an_offer_stay_buffered
    (w : World) (before later : list ICECandidate) (messageType : Z) (message : string)
    (objmap : gmap string string) (sdp : SessionDescription) :
  RemoteDescription (peerConnection w) = None ->
  unmarshalObject message = Ok objmap ->
  unmarshalString (objmap !!! "type") = Ok "offer" ->
  unmarshalSessionDescription message = Ok sdp ->
  is_Some (RemoteDescription
             (peerConnection
                (snd (run (discoveries before ++ [Signal (Message messageType message)]) w)))) ->
  exists reply : list string,
    (reply = []
     \/ exists answer text, marshalSessionDescription answer = Ok text /\ reply = [text])
    /\ fst (run (discoveries before ++ [Signal (Message messageType message)]
                 ++ discoveries later) w) = None
    /\ pendingCandidates
         (snd (run (discoveries before ++ [Signal (Message messageType message)]
                    ++ discoveries later) w))
       = pendingCandidates w ++ before
    /\ sent (trace (snd (run (discoveries before ++ [Signal (Message messageType message)]
                              ++ discoveries later) w)))
       = sent (trace w) ++ reply ++ map candidateMessage later.
Proof.
  intros Hd Ho Ht Hsdp Hdesc.
  destruct (run_discoveries_buffered before [] w Hd) as (w1 & _ & Hp1 & Hc1 & Hrun1).
  rewrite app_nil_r in Hrun1. cbn [run] in Hrun1. unfold ret in Hrun1.
  assert (Hrun2 : run (discoveries before ++ [Signal (Message messageType message)]) w
                  = (None, snd (controlTurn (Message messageType message) w1))).
  { rewrite run_app by (rewrite Hrun1; reflexivity). rewrite Hrun1. cbn [snd run].
    rewrite bind_eq.
    destruct (controlTurn_offer w1 messageType message objmap sdp Ho Ht Hsdp) as (-> & _).
    reflexivity. }
  destruct (controlTurn_offer w1 messageType message objmap sdp Ho Ht Hsdp)
    as (_ & Hp2 & reply & Hreply & Hs2).
  rewrite Hrun2 in Hdesc. cbn [snd] in Hdesc.
  destruct (run_discoveries_sent later [] _ Hdesc) as (w3 & (_ & Hp3 & Hc3) & Hrun3).
  rewrite app_nil_r in Hrun3. cbn [run] in Hrun3. unfold ret in Hrun3.
  exists reply. split; [exact Hreply|].
  rewrite app_assoc, run_app by (rewrite Hrun2; reflexivity).
  rewrite Hrun2. cbn [snd]. rewrite Hrun3. cbn [fst snd].
  split; [reflexivity|]. split; [rewrite Hp3, Hp2, Hp1; reflexivity|].
  rewrite (sent_from_calls _ _ _ Hc3), Hs2.
  rewrite (sent_from_calls w w1 []) by (rewrite app_nil_r; exact Hc1). cbn [sent omap].
  rewrite app_nil_r, <- app_assoc. do 2 f_equal.
  rewrite <- (sent_writes (map candidateMessage later)), map_map. reflexivity.
Qed.

(** *** The buffer and the remote description, step by step *)

(** No step of the callback touches the engine. *)
Lemma stepCallback_engine (pc : CallbackPc) (w : World) :
  peerConnection (snd (stepCallback pc w)) = peerConnection w.
Proof.
  destruct pc as [[c|]|c|c|c|]; cbn [stepCallback]; try (run_monad; reflexivity).
  - run_monad. destruct (RemoteDescription (peerConnection w)); reflexivity.
  - rewrite bind_eq. cbn [ret snd].
    destruct (sendLocalIceCandidate_after c w) as (Hpc & _). exact Hpc.
Qed.




(** *** An answer that is applied, under any schedule *)

(** The steps of the handler up to the read of the buffer, when the answer
    parses and the engine accepts it. *)
Lemma stepHandler_parse (message : string) (sdp : SessionDescription) (w : World) :
  unmarshalSessionDescription message = Ok sdp ->
  stepHandler (HStart message) w = (HSetLocal sdp, w).
Proof.
  intros Hs. cbn [stepHandler]. rewrite Hs. reflexivity.
Qed.

Lemma stepHandler_local (sdp : SessionDescription) (pc1 : PeerConnection) (w : World) :
  SetLocalDescription (peerConnection w) sdp = (pc1, None) ->
  fst (stepHandler (HSetLocal sdp) w) = HSetRemote sdp
  /\ peerConnection (snd (stepHandler (HSetLocal sdp) w)) = pc1.
Proof.
  intros Hl. cbn [stepHandler]. run_monad. rewrite Hl. cbn. auto.
Qed.

Lemma stepHandler_remote (sdp : SessionDescription) (pc2 : PeerConnection) (w : World) :
  SetRemoteDescription (peerConnection w) sdp = (pc2, None) ->
  fst (stepHandler (HSetRemote sdp) w) = HRange.
Proof.
  intros Hr. cbn [stepHandler]. run_monad. rewrite Hr. cbn. reflexivity.
Qed.

Lemma appliedInv_start (message : string) (sdp : SessionDescription) (pc1 : PeerConnection)
    (c : ICECandidate) (w : World) :
  appliedInv w message sdp pc1 c
    {| handlerPc := HStart message; callbackPc := CStart (Some c); shared := w |}.
Proof.
  exists [], [], false, []. cbn. rewrite !app_nil_r. repeat split; reflexivity.
Qed.

Lemma appliedInv_step (w0 : World) (message : string) (sdp : SessionDescription)
    (pc1 pc2 : PeerConnection) (c : ICECandidate) (t : Tid) (s : Threads) :
  unmarshalSessionDescription message = Ok sdp ->
  SetLocalDescription (peerConnection w0) sdp = (pc1, None) ->
  SetRemoteDescription pc1 sdp = (pc2, None) ->
  appliedInv w0 message sdp pc1 c s -> appliedInv w0 message sdp pc1 c (threadStep t s).
Proof.
  intros Hsdp Hl Hr (hdone & cw & ap & written & Hs & Hw & Hp & Hc & Hh).
  destruct s as [hpc cpc w]. cbn [handlerPc callbackPc shared] in *.
  destruct t; unfold threadStep; cbn [handlerPc callbackPc shared].
  - pose proof (stepHandler_effect hpc w) as [Hk He].
    destruct hpc as [m|sdp'|sdp'| |[|c' rest]|]; cbn [handlerAtApplied] in Hh.
    + destruct Hh as (-> & Hpc & ->). rewrite (stepHandler_parse message sdp w Hsdp).
      exists [], cw, ap, written. cbn [handlerPc callbackPc shared handlerAtApplied]. auto 10.
    + destruct Hh as (-> & Hpc & ->). destruct He as [_ He]. rewrite <- Hpc in Hl.
      destruct (stepHandler_local sdp pc1 w Hl) as [Hf Hpc1].
      destruct (stepHandler (HSetLocal sdp) w) as [hpc' w']. cbn [fst snd] in *. subst hpc'.
      exists [], cw, ap, written. cbn [handlerPc callbackPc shared handlerAtApplied].
      rewrite He, Hk. auto 10.
    + destruct Hh as (-> & Hpc & ->). destruct He as [_ He]. rewrite <- Hpc in Hr.
      pose proof (stepHandler_remote sdp pc2 w Hr) as Hf.
      destruct (stepHandler (HSetRemote sdp) w) as [hpc' w']. cbn [fst snd] in *. subst hpc'.
      exists [], cw, ap, written. cbn [handlerPc callbackPc shared handlerAtApplied].
      rewrite He, Hk. auto 10.
    + destruct (stepHandler HRange w) as [hpc' w']. cbn [fst snd] in *.
      destruct He as [-> He]. subst hdone. exists [], cw, ap, written.
      cbn [handlerPc callbackPc shared handlerAtApplied]. rewrite He, Hk.
      split; [assumption|]. split; [assumption|]. split; [assumption|]. split; [assumption|].
      cbn [app]. rewrite Hp. destruct ap; [right|left; rewrite app_nil_r]; auto.
    + destruct (stepHandler (HSend []) w) as [hpc' w']. cbn [fst snd] in *.
      destruct He as [-> He]. exists hdone, cw, ap, written.
      cbn [handlerPc callbackPc shared handlerAtApplied]. rewrite He, Hk.
      rewrite app_nil_r in Hh. auto 10.
    + destruct (stepHandler (HSend (c' :: rest)) w) as [hpc' w']. cbn [fst snd] in *.
      destruct He as [-> He].
      exists (hdone ++ [c']), cw, ap, (written ++ [candidateMessage c']).
      cbn [handlerPc callbackPc shared handlerAtApplied]. rewrite He, Hk, Hs.
      split; [rewrite app_assoc; reflexivity|].
      split.
      { rewrite Hw, map_app. cbn. rewrite <- !app_assoc.
        apply Permutation_app_head, Permutation_app_comm. }
      split; [assumption|]. split; [assumption|].
      rewrite <- !app_assoc. exact Hh.
    + destruct (stepHandler HDone w) as [hpc' w']. cbn [fst snd] in *.
      destruct He as [-> He]. exists hdone, cw, ap, written.
      cbn [handlerPc callbackPc shared handlerAtApplied]. rewrite He, Hk. auto 10.
  - pose proof (stepCallback_effect cpc w) as He.
    pose proof (stepCallback_engine cpc w) as Hsame.
    destruct (stepCallback cpc w) as [cpc' w']. cbn [fst snd] in *.
    assert (Hh' : forall ap', (ap = true -> ap' = true) ->
              handlerAtApplied (peerConnection w0) pc1 message sdp (pendingCandidates w0) c
                               w' hpc hdone ap').
    { intros ap' Hap. destruct hpc; cbn [handlerAtApplied] in *; rewrite ?Hsame; try assumption.
      - destruct Hh as [Hh|[Hh Ht]]; auto.
      - destruct Hh as [Hh|[Hh Ht]]; auto. }
    destruct cpc as [x|x|x|x|]; cbn [callbackAt] in Hc.
    + destruct Hc as (-> & -> & ->). destruct He as (-> & Hk & He).
      exists hdone, [], false, written. cbn [handlerPc callbackPc shared].
      rewrite He, Hk. split; [assumption|]. split; [assumption|]. split; [assumption|].
      split; [cbn; auto|]. apply Hh'. auto.
    + destruct Hc as (-> & -> & ->). destruct He as (Hn & Hk & He).
      exists hdone, [], false, written. cbn [handlerPc callbackPc shared].
      rewrite He, Hk. split; [assumption|]. split; [assumption|]. split; [assumption|].
      split; [destruct Hn as [-> | ->]; cbn; auto|]. apply Hh'. auto.
    + destruct Hc as (-> & -> & ->). destruct He as (-> & Hk & He).
      exists hdone, [], true, written. cbn [handlerPc callbackPc shared].
      cbn [app] in Hp. rewrite app_nil_r in Hp. rewrite He, Hk, Hp.
      split; [assumption|]. split; [assumption|]. split; [reflexivity|].
      split; [cbn; auto|]. apply Hh'. auto.
    + destruct Hc as (-> & -> & ->). destruct He as (-> & Hk & He).
      exists hdone, [candidateMessage c], false, (written ++ [candidateMessage c]).
      cbn [handlerPc callbackPc shared].
      rewrite He, Hk, Hs. split; [rewrite app_assoc; reflexivity|].
      split; [rewrite Hw, app_nil_r; reflexivity|].
      split; [assumption|]. split; [cbn; auto|]. apply Hh'. auto.
    + destruct He as (-> & Hk & He). exists hdone, cw, ap, written.
      cbn [handlerPc callbackPc shared]. rewrite He, Hk.
      split; [assumption|]. split; [assumption|]. split; [assumption|].
      split; [assumption|]. apply Hh'. auto.
Qed.

Lemma appliedInv_interleave (w0 : World) (message : string) (sdp : SessionDescription)
    (pc1 pc2 : PeerConnection) (c : ICECandidate) (schedule : list Tid) :
  unmarshalSessionDescription message = Ok sdp ->
  SetLocalDescription (peerConnection w0) sdp = (pc1, None) ->
  SetRemoteDescription pc1 sdp = (pc2, None) ->
  forall s : Threads,
    appliedInv w0 message sdp pc1 c s -> appliedInv w0 message sdp pc1 c (interleave schedule s).
Proof.
  intros Hsdp Hl Hr.
  induction schedule as [|t schedule IH]; intros s Hs; [exact Hs|].
  rewrite interleave_cons. apply IH. eapply appliedInv_step; eassumption.
Qed.

(** What the invariant gives at any point: nothing written twice, nothing
    taken out of the buffer. *)
Lemma overlapInv_written (w : World) (c : ICECandidate) (s : Threads) :
  overlapInv w c s ->
  exists written : list string,
    sent (trace (shared s)) = sent (trace w) ++ written
    /\ written ⊆+ map candidateMessage (pendingCandidates w ++ [c])
    /\ pendingCandidates w `prefix_of` pendingCandidates (shared s)
    /\ (callbackPc s = CDone ->
        c ∈ pendingCandidates (shared s) \/ candidateMessage c ∈ written).
Proof.
  intros (hdone & cw & ap & written & Hs & Hw & Hp & Hc & Hh).
  exists written. split; [exact Hs|].
  assert (Hcw : cw = [] \/ (cw = [candidateMessage c] /\ ap = false)).
  { destruct (callbackPc s); cbn in Hc; intuition. }
  assert (Hd : exists rest, hdone ++ rest = pendingCandidates w
                            \/ (hdone ++ rest = pendingCandidates w ++ [c] /\ ap = true)).
  { destruct (handlerPc s) as [| | | |rest|]; cbn in Hh;
      try (subst hdone; exists (pendingCandidates w); left; reflexivity).
    - exists rest. exact Hh.
    - destruct Hh as [->|[->|[-> ->]]].
      + exists (pendingCandidates w). left. reflexivity.
      + exists []. left. apply app_nil_r.
      + exists []. right. split; [apply app_nil_r | reflexivity]. }
  split.
  { rewrite Hw, map_app. cbn [map].
    destruct Hd as [rest [Hd|[Hd ->]]].
    - apply submseteq_app.
      + rewrite <- Hd, map_app. apply submseteq_inserts_r. reflexivity.
      + destruct Hcw as [->|[-> _]]; [apply submseteq_nil_l | reflexivity].
    - destruct Hcw as [->|[_ Hf]]; [|discriminate Hf].
      rewrite app_nil_r, <- map_app with (l' := [c]), <- Hd, map_app.
      apply submseteq_inserts_r. reflexivity. }
  split; [rewrite Hp; apply prefix_app_r; reflexivity|].
  intros Hdone. rewrite Hdone in Hc. cbn in Hc. destruct Hc as [[-> _]|[_ ->]].
  - right. rewrite Hw. apply elem_of_app. right. apply list_elem_of_here.
  - left. rewrite Hp. apply elem_of_app. right. apply list_elem_of_here.
Qed.

(** C9 (amended): the program takes no lock.  Whatever the interleaving of
    the callback with the answer handler, and however far the two have got,
    nothing is written twice and nothing leaves the buffer: what is written
    is within the buffered candidates and the new one, each at most once, and
    once the callback is through the new candidate is in the buffer or has
    been written.  An interleaving can leave the new candidate unwritten:
    when the answer is applied and both have run to their end, either the
    buffer and the new candidate have been written, each once, or the buffer
    has been written, each entry once, and the new candidate sits in the
    buffer, unwritten.  When the two do not overlap, one running to its end
    before the other starts, the buffer and the new candidate are written,
    each once.  (When the handler runs first, the engine must report the
    remote description it has just accepted.) *)
Theorem C9_overlap_never_duplicates_but_may_strand
    (w : World) (message : string) (c : ICECandidate) (schedule : list Tid) :
  (exists written : list string,
     sent (trace (shared (overlapped message c w schedule))) = sent (trace w) ++ written
     /\ written ⊆+ map candidateMessage (pendingCandidates w ++ [c])
     /\ pendingCandidates w `prefix_of` pendingCandidates (shared (overlapped message c w schedule))
     /\ (callbackPc (overlapped message c w schedule) = CDone ->
         c ∈ pendingCandidates (shared (overlapped message c w schedule))
         \/ candidateMessage c ∈ written))
  /\ (forall (sdp : SessionDescription) (pc1 pc2 : PeerConnection),
        unmarshalSessionDescription message = Ok sdp ->
        SetLocalDescription (peerConnection w) sdp = (pc1, None) ->
        SetRemoteDescription pc1 sdp = (pc2, None) ->
        finished (overlapped message c w schedule) ->
        exists written : list string,
          sent (trace (shared (overlapped message c w schedule))) = sent (trace w) ++ written
          /\ (written ≡ₚ map candidateMessage (pendingCandidates w ++ [c])
              \/ (written ≡ₚ map candidateMessage (pendingCandidates w)
                  /\ pendingCandidates (shared (overlapped message c w schedule))
                     = pendingCandidates w ++ [c])))
  /\ (forall (sdp : SessionDescription) (pc1 pc2 : PeerConnection),
        unmarshalSessionDescription message = Ok sdp ->
        SetLocalDescription (peerConnection w) sdp = (pc1, None) ->
        SetRemoteDescription pc1 sdp = (pc2, None) ->
        is_Some (RemoteDescription pc2) ->
        nonOverlapping schedule ->
        finished (overlapped message c w schedule) ->
        exists written : list string,
          sent (trace (shared (overlapped message c w schedule))) = sent (trace w) ++ written
          /\ written ≡ₚ map candidateMessage (pendingCandidates w ++ [c])).
Proof.
  split; [|split].
  - apply overlapInv_written. unfold overlapped.
    apply overlapInv_interleave, overlapInv_start.
  - intros sdp pc1 pc2 Hsdp Hl Hr [Hhd Hcd]. unfold overlapped in *.
    destruct (appliedInv_interleave w message sdp pc1 pc2 c schedule Hsdp Hl Hr _
                (appliedInv_start message sdp pc1 c w))
      as (hdone & cw & ap & written & Hs & Hw & Hp & Hc & Hh).
    rewrite Hhd in Hh. rewrite Hcd in Hc. cbn in Hh, Hc.
    exists written. split; [exact Hs|].
    destruct Hc as [[-> ->]|[-> ->]].
    + left. destruct Hh as [->|[_ Hf]]; [|discriminate Hf].
      rewrite Hw, map_app. reflexivity.
    + rewrite app_nil_r in Hw. destruct Hh as [->|[-> _]].
      * right. split; [exact Hw | exact Hp].
      * left. exact Hw.
  - intros sdp pc1 pc2 Hsdp Hl Hr Hrd Hno Hfin. unfold overlapped in *.
    exact (non_overlapping_runs_lose_nothing w message c sdp pc1 pc2 schedule
             Hsdp Hl Hr Hrd Hno Hfin).
Qed.

End Signaling.

(** ** The theorems at the sample engine, websocket and decoder *)

#[local] Existing Instance sampleEngine.
#[local] Existing Instance sampleWebsocket.
#[local] Existing Instance sampleJson.

(** C1, an instance: two buffered candidates and an answer the engine
    accepts. *)
Lemma C1_answer_applied_locally_then_remotely_then_drained_witness :
  fst (controlTurn (Message 1 answerText) (sampleWorld freshPc ["candidate:1"; "candidate:2"]))
  = Next
  /\ calls (trace (snd (controlTurn (Message 1 answerText)
                          (sampleWorld freshPc ["candidate:1"; "candidate:2"]))))
     = calls (trace (sampleWorld freshPc ["candidate:1"; "candidate:2"]))
       ++ [CallSetLocalDescription remoteAnswer; CallSetRemoteDescription remoteAnswer]
       ++ map (fun c => CallWriteMessage (candidateMessage c))
              (pendingCandidates (sampleWorld freshPc ["candidate:1"; "candidate:2"]))
  /\ peerConnection (snd (controlTurn (Message 1 answerText)
                            (sampleWorld freshPc ["candidate:1"; "candidate:2"])))
     = {| localDesc := Some remoteAnswer; remoteDesc := Some remoteAnswer;
          refuseLocal := false; refuseRemote := false; failCreateAnswer := false |}.
Proof.
  apply (C1_answer_applied_locally_then_remotely_then_drained
           (sampleWorld freshPc ["candidate:1"; "candidate:2"]) 1 answerText
           {[ "type" := jsonString "answer"; "sdp" := jsonString "v=0 remote" ]}
           remoteAnswer
           {| localDesc := Some remoteAnswer; remoteDesc := None;
              refuseLocal := false; refuseRemote := false; failCreateAnswer := false |}
           {| localDesc := Some remoteAnswer; remoteDesc := Some remoteAnswer;
              refuseLocal := false; refuseRemote := false; failCreateAnswer := false |});
    vm_compute; reflexivity.
Defined.

(** C3, an instance: the same answer applied twice over a buffer of two. *)
Lemma C3_drain_sends_in_order_and_keeps_buffer_witness :
  pendingCandidates (snd (handleRemoteAnswer answerText
                            (sampleWorld freshPc ["candidate:1"; "candidate:2"])))
  = pendingCandidates (sampleWorld freshPc ["candidate:1"; "candidate:2"])
  /\ sent (trace (snd (handleRemoteAnswer answerText
                         (sampleWorld freshPc ["candidate:1"; "candidate:2"]))))
     = sent (trace (sampleWorld freshPc ["candidate:1"; "candidate:2"]))
       ++ map candidateMessage (pendingCandidates (sampleWorld freshPc ["candidate:1"; "candidate:2"]))
  /\ pendingCandidates
       (snd (handleRemoteAnswer answerText
               (snd (handleRemoteAnswer answerText
                       (sampleWorld freshPc ["candidate:1"; "candidate:2"])))))
     = pendingCandidates (sampleWorld freshPc ["candidate:1"; "candidate:2"])
  /\ sent (trace (snd (handleRemoteAnswer answerText
                         (snd (handleRemoteAnswer answerText
                                 (sampleWorld freshPc ["candidate:1"; "candidate:2"]))))))
     = sent (trace (sampleWorld freshPc ["candidate:1"; "candidate:2"]))
       ++ map candidateMessage (pendingCandidates (sampleWorld freshPc ["candidate:1"; "candidate:2"]))
       ++ map candidateMessage (pendingCandidates (sampleWorld freshPc ["candidate:1"; "candidate:2"])).
Proof.
  apply (C3_drain_sends_in_order_and_keeps_buffer
           (sampleWorld freshPc ["candidate:1"; "candidate:2"]) answerText answerText
           remoteAnswer remoteAnswer
           {| localDesc := Some remoteAnswer; remoteDesc := None;
              refuseLocal := false; refuseRemote := false; failCreateAnswer := false |}
           {| localDesc := Some remoteAnswer; remoteDesc := Some remoteAnswer;
              refuseLocal := false; refuseRemote := false; failCreateAnswer := false |}
           {| localDesc := Some remoteAnswer; remoteDesc := Some remoteAnswer;
              refuseLocal := false; refuseRemote := false; failCreateAnswer := false |}
           {| localDesc := Some remoteAnswer; remoteDesc := Some remoteAnswer;
              refuseLocal := false; refuseRemote := false; failCreateAnswer := false |});
    vm_compute; reflexivity.
Defined.

(** C3 as stated fails: after the drain the buffer still holds its candidate,
    and a second answer writes the candidate a second time. *)
Lemma C3_counterexample :
  pendingCandidates (snd (startControlLoop [Message 1 answerText]
                            (sampleWorld freshPc ["candidate:1"])))
  = ["candidate:1"]
  /\ sent (trace (snd (startControlLoop [Message 1 answerText]
                         (sampleWorld freshPc ["candidate:1"]))))
     = [sampleCandidateMessage "candidate:1"]
  /\ sent (trace (snd (startControlLoop [Message 1 answerText; Message 1 answerText]
                         (sampleWorld freshPc ["candidate:1"]))))
     = [sampleCandidateMessage "candidate:1"; sampleCandidateMessage "candidate:1"].
Proof.
  vm_compute. repeat split; reflexivity.
Qed.

(** C4, an instance: an "offer" whose [sdp] is a number, followed by a
    player count that is never read. *)
Lemma C4_malformed_offer_returns_from_loop_witness :
  fst (startControlLoop [Message 1 malformedOfferText; Message 1 playerCountText]
         (sampleWorld freshPc []))
  = (Returned, [Message 1 playerCountText])
  /\ after (sampleWorld freshPc []) []
       (snd (startControlLoop [Message 1 malformedOfferText; Message 1 playerCountText]
               (sampleWorld freshPc [])))
  /\ last (trace (snd (startControlLoop [Message 1 malformedOfferText; Message 1 playerCountText]
                         (sampleWorld freshPc []))))
     = Some (Log ("Error occured during unmarshaling sdp. Error: "
                  +:+ Error (ErrorString "cannot unmarshal number into Go struct field SessionDescription.sdp of type string"))).
Proof.
  apply (C4_malformed_offer_returns_from_loop
           (sampleWorld freshPc []) 1 malformedOfferText
           {[ "type" := jsonString "offer"; "sdp" := "5" ]}
           (ErrorString "cannot unmarshal number into Go struct field SessionDescription.sdp of type string")
           [Message 1 playerCountText]);
    vm_compute; reflexivity.
Defined.

(** The same input with a well-formed offer in place of the malformed one:
    the player count is read. *)
Example well_formed_offer_continues :
  fst (startControlLoop [Message 1 offerText; Message 1 playerCountText]
         (sampleWorld freshPc []))
  = (AwaitingMessage, []).
Proof. vm_compute. reflexivity. Qed.

(** C5, an instance: the engine creates an answer and refuses it as local
    description; the answer is written all the same. *)
Lemma C5_answer_written_whatever_SetLocalDescription_returns_witness :
  fst (controlTurn (Message 1 offerText) (sampleWorld refusingLocalPc [])) = Next
  /\ sent (trace (snd (controlTurn (Message 1 offerText) (sampleWorld refusingLocalPc []))))
     = sent (trace (sampleWorld refusingLocalPc []))
       ++ [jsonObject2 "type" (jsonString "answer") "sdp" (jsonString "v=0 answer")]
  /\ calls (trace (snd (controlTurn (Message 1 offerText) (sampleWorld refusingLocalPc []))))
     = calls (trace (sampleWorld refusingLocalPc []))
       ++ [CallSetRemoteDescription remoteOffer; CallCreateAnswer;
           CallSetLocalDescription sampleAnswer;
           CallWriteMessage (jsonObject2 "type" (jsonString "answer") "sdp" (jsonString "v=0 answer"))].
Proof.
  apply (C5_answer_written_whatever_SetLocalDescription_returns
           (sampleWorld refusingLocalPc []) 1 offerText
           {[ "type" := jsonString "offer"; "sdp" := jsonString "v=0 offer" ]}
           remoteOffer sampleAnswer
           {| localDesc := None; remoteDesc := Some remoteOffer;
              refuseLocal := true; refuseRemote := false; failCreateAnswer := false |}
           {| localDesc := None; remoteDesc := Some remoteOffer;
              refuseLocal := true; refuseRemote := false; failCreateAnswer := false |}
           {| localDesc := None; remoteDesc := Some remoteOffer;
              refuseLocal := true; refuseRemote := false; failCreateAnswer := false |}
           None (Some (ErrorString "InvalidModificationError"))
           (jsonObject2 "type" (jsonString "answer") "sdp" (jsonString "v=0 answer")));
    vm_compute; reflexivity.
Defined.

(** C6, instances: a candidate discovered before and after the remote
    description is set. *)
Example candidate_before_remote_description :
  pendingCandidates (snd (onICECandidate (Some "candidate:1") (sampleWorld freshPc [])))
  = ["candidate:1"]
  /\ sent (trace (snd (onICECandidate (Some "candidate:1") (sampleWorld freshPc [])))) = [].
Proof. vm_compute. split; reflexivity. Qed.

Example candidate_after_remote_description :
  let w := snd (startControlLoop [Message 1 offerText] (sampleWorld freshPc [])) in
  pendingCandidates (snd (onICECandidate (Some "candidate:1") w)) = []
  /\ sent (trace (snd (onICECandidate (Some "candidate:1") w)))
     = sent (trace w) ++ [sampleCandidateMessage "candidate:1"].
Proof. vm_compute. split; reflexivity. Qed.

(** A player count is printed and nothing is sent. *)
Example player_count_is_only_printed :
  let w := snd (startControlLoop [Message 1 playerCountText] (sampleWorld freshPc [])) in
  sent (trace w) = [] /\ last (trace w) = Some (Print "Player count is: 3").
Proof. vm_compute. split; reflexivity. Qed.

(** An offer the engine accepts is answered with one message. *)
Example offer_is_answered_once :
  sent (trace (snd (startControlLoop [Message 1 offerText] (sampleWorld freshPc []))))
  = [jsonObject2 "type" (jsonString "answer") "sdp" (jsonString "v=0 answer")].
Proof. vm_compute. reflexivity. Qed.

(** Two candidates discovered before any remote description, then an answer:
    two candidate messages, in the order of discovery. *)
Example two_candidates_then_answer :
  sent (trace (snd (run [Discovered (Some "candidate:1"); Discovered (Some "candidate:2");
                         Signal (Message 1 answerText)]
                        (sampleWorld freshPc []))))
  = [sampleCandidateMessage "candidate:1"; sampleCandidateMessage "candidate:2"].
Proof. vm_compute. reflexivity. Qed.

(** C9, two instances: the callback runs to its end, then the handler, and
    all is written; under [lossySchedule] the answer is applied and both run
    to their end, which is the second case. *)
Lemma C9_overlap_never_duplicates_but_may_strand_witness :
  (exists written : list string,
     sent (trace (shared (overlapped answerText "candidate:1" (sampleWorld freshPc [])
                            (replicate 3 Callback ++ replicate 6 Handler))))
     = sent (trace (sampleWorld freshPc [])) ++ written
     /\ written ≡ₚ map candidateMessage
                       (pendingCandidates (sampleWorld freshPc []) ++ ["candidate:1"]))
  /\ (exists written : list string,
        sent (trace (shared (overlapped answerText "candidate:1" (sampleWorld freshPc [])
                               lossySchedule)))
        = sent (trace (sampleWorld freshPc [])) ++ written
        /\ (written ≡ₚ map candidateMessage
                          (pendingCandidates (sampleWorld freshPc []) ++ ["candidate:1"])
            \/ (written ≡ₚ map candidateMessage (pendingCandidates (sampleWorld freshPc []))
                /\ pendingCandidates
                     (shared (overlapped answerText "candidate:1" (sampleWorld freshPc [])
                                lossySchedule))
                   = pendingCandidates (sampleWorld freshPc []) ++ ["candidate:1"]))).
Proof.
  split.
  - apply (proj2 (proj2 (C9_overlap_never_duplicates_but_may_strand
                           (sampleWorld freshPc []) answerText "candidate:1"
                           (replicate 3 Callback ++ replicate 6 Handler)))
             remoteAnswer
             {| localDesc := Some remoteAnswer; remoteDesc := None;
                refuseLocal := false; refuseRemote := false; failCreateAnswer := false |}
             {| localDesc := Some remoteAnswer; remoteDesc := Some remoteAnswer;
                refuseLocal := false; refuseRemote := false; failCreateAnswer := false |}).
    + vm_compute. reflexivity.
    + vm_compute. reflexivity.
    + vm_compute. reflexivity.
    + exists remoteAnswer. reflexivity.
    + exists 3%nat, 6%nat. left. reflexivity.
    + split; vm_compute; reflexivity.
  - apply (proj1 (proj2 (C9_overlap_never_duplicates_but_may_strand
                           (sampleWorld freshPc []) answerText "candidate:1" lossySchedule))
             remoteAnswer
             {| localDesc := Some remoteAnswer; remoteDesc := None;
                refuseLocal := false; refuseRemote := false; failCreateAnswer := false |}
             {| localDesc := Some remoteAnswer; remoteDesc := Some remoteAnswer;
                refuseLocal := false; refuseRemote := false; failCreateAnswer := false |}).
    + vm_compute. reflexivity.
    + vm_compute. reflexivity.
    + vm_compute. reflexivity.
    + split; vm_compute; reflexivity.
Defined.

(** C9 as stated fails: under [lossySchedule] both goroutines run to their
    end, the answer is applied and the buffer drained, and the candidate is
    never written; it is left in the buffer. *)
Lemma C9_counterexample :
  handlerPc (interleave lossySchedule sampleThreads) = HDone
  /\ callbackPc (interleave lossySchedule sampleThreads) = CDone
  /\ RemoteDescription (peerConnection (shared (interleave lossySchedule sampleThreads)))
     = Some remoteAnswer
  /\ sent (trace (shared (interleave lossySchedule sampleThreads))) = []
  /\ pendingCandidates (shared (interleave lossySchedule sampleThreads)) = ["candidate:1"].
Proof.
  vm_compute. repeat split; reflexivity.
Qed.


(** ** Further properties of the relay, the feedback and the start of [main] *)

(** X10: a relay without a destination, which is what a track of an
    unsupported kind or a destination that could not be created leaves,
    never writes anything and panics in its first turn; when the frame was
    read and decoded, by the nil dereference. *)
Theorem X10_relay_without_destination_panics_at_once :
  (forall videoUDPConn audioUDPConn, selectConn OtherKind videoUDPConn audioUDPConn = None)
  /\ (forall t rest r, exists r' e,
        relayLoop None (t :: rest) r = (r', Panicked e) /\ written r' = written r)
  /\ (forall t rest r frame p,
        readResult t = ReadOk frame -> (length frame <= length (b r))%nat ->
        Rtp.Unmarshal frame = Ok p ->
        snd (relayLoop None (t :: rest) r) = Panicked nilDereference).
Proof.
  split; [reflexivity|]. split.
  - intros t rest r. cbn [relayLoop]. unfold relayTurn.
    destruct (trackRead (readResult t) (b r)) as [[b1 n]|e]; [|eauto].
    destruct (Rtp.Unmarshal (take n b1)) as [p|e]; eauto.
  - intros t rest r frame p Hr Hl Hu. cbn [relayLoop]. unfold relayTurn, trackRead.
    rewrite Hr.
    assert (Hlt : (length (b r) <? length frame)%nat = false) by (apply Nat.ltb_ge; lia).
    rewrite Hlt, take_app_length, Hu. reflexivity.
Qed.

(** One turn the relay gets through. *)
Lemma relayTurn_relayable (target : udpConn) (t : Turn) (r : Relay) :
  relayable (length (b r)) t ->
  exists r',
    relayTurn (Some target) t r = (r', Continue)
    /\ written r' = written r ++ [(rewritten target (frameOf t), writeError t)]
    /\ length (b r') = length (b r)
    /\ length (rewritten target (frameOf t)) = length (frameOf t).
Proof.
  intros [(frame & p & Hr & Hl & Hu) Hw].
  unfold relayTurn, trackRead, rewritten, frameOf. rewrite Hr.
  assert (Hlt : (length (b r) <? length frame)%nat = false) by (apply Nat.ltb_ge; lia).
  rewrite Hlt, take_app_length, Hu.
  pose proof (packetBytes_length frame p (payloadType target) Hu) as Hpl.
  rewrite MarshalTo_fits by (rewrite Hpl, length_app, length_drop; lia).
  rewrite take_app_length.
  assert (Hb : length (Rtp.packetBytes (Rtp.setPayloadType p (payloadType target))
                       ++ drop (length (Rtp.packetBytes (Rtp.setPayloadType p (payloadType target))))
                               (frame ++ drop (length frame) (b r)))
               = length (b r)).
  { rewrite length_app, length_drop, length_app, length_drop, Hpl. lia. }
  destruct (writeError t) as [e|] eqn:He.
  - rewrite (Hw e eq_refl). eexists. split; [reflexivity|]. cbn [written b]. auto.
  - eexists. split; [reflexivity|]. cbn [written b]. auto.
Qed.

(** X11: with each turn of the loop taken as one step, so that no other
    track's loop assigns the variable [err] they share between an assignment
    and its test here, and as long as every frame is read, fits the buffer
    and decodes, and every write succeeds or is refused, the relay loop never
    stops: it hands the socket one datagram per frame, in the order of
    arrival, each the frame rewritten and of the frame's own length, whatever
    the reused buffer held from earlier frames. *)
Theorem X11_relay_forwards_every_frame_in_order
    (target : udpConn) (turns : list Turn) (r : Relay) :
  Forall (relayable (length (b r))) turns ->
  snd (relayLoop (Some target) turns r) = AwaitingRead
  /\ written (fst (relayLoop (Some target) turns r))
     = written r ++ map (fun t => (rewritten target (frameOf t), writeError t)) turns
  /\ Forall (fun t => length (rewritten target (frameOf t)) = length (frameOf t)) turns.
Proof.
  revert r. induction turns as [|t turns IH]; intros r Hall.
  - cbn. rewrite app_nil_r. auto.
  - inversion Hall as [|? ? Ht Hrest]; subst.
    destruct (relayTurn_relayable target t r Ht) as (r' & Hturn & Hw & Hb & Hlen).
    cbn [relayLoop map]. rewrite Hturn. rewrite <- Hb in Hrest.
    destruct (IH r' Hrest) as (Hend & Hwr & Hlens).
    split; [exact Hend|]. split.
    + rewrite Hwr, Hw, <- app_assoc. reflexivity.
    + constructor; assumption.
Qed.

(** X11, an instance: a long frame whose write is refused, then a shorter
    frame. *)
Lemma X11_relay_forwards_every_frame_in_order_witness :
  let target := {| port := 4002; payloadType := 125 |} in
  let turns := [ {| readResult := ReadOk sampleLongFrame; writeError := Some connectionRefused |};
                 {| readResult := ReadOk sampleFrame; writeError := None |} ] in
  snd (relayLoop (Some target) turns newRelay) = AwaitingRead
  /\ written (fst (relayLoop (Some target) turns newRelay))
     = written newRelay ++ map (fun t => (rewritten target (frameOf t), writeError t)) turns
  /\ Forall (fun t => length (rewritten target (frameOf t)) = length (frameOf t)) turns.
Proof.
  intros target turns.
  apply (X11_relay_forwards_every_frame_in_order target turns newRelay).
  repeat constructor.
  - exists sampleLongFrame. eexists. split; [reflexivity|]. split; [|vm_compute; reflexivity].
    vm_compute. lia.
  - intros e He. inversion He; subst. reflexivity.
  - exists sampleFrame. eexists. split; [reflexivity|]. split; [|vm_compute; reflexivity].
    vm_compute. lia.
  - intros e He. discriminate He.
Defined.

(** The second datagram of that instance is the short frame alone: nothing of
    the longer frame before it is left in it. *)
Example relay_buffer_reuse_leaks_nothing :
  map fst (written (fst (relayLoop (Some {| port := 4002; payloadType := 125 |})
             [ {| readResult := ReadOk sampleLongFrame; writeError := None |};
               {| readResult := ReadOk sampleFrame; writeError := None |} ]
             newRelay)))
  = [ [x80; x7d; x00; x03; x00; x00; x00; x0b; xde; xad; xbe; xef;
       x11; x12; x13; x14; x15; x16; x17; x18];
      [x80; x7d; x00; x01; x00; x00; x00; x0a; xde; xad; xbe; xef; x01; x02; x03; x04] ].
Proof. vm_compute. reflexivity. Qed.

(** The conversion to [float32] is exact up to 24 bits and off by at most
    half a unit in the last place beyond. *)
Lemma float32_accuracy (n : Z) :
  0 < n ->
  (n < 2 ^ 24 -> float32 n = n)
  /\ 2 * Z.abs (float32 n - n) <= 2 ^ (Z.log2 n - 23).
Proof.
  intros Hn. unfold float32.
  destruct (Z.leb_spec (Z.log2 n - 23) 0) as [Hle|Hgt].
  - split; [reflexivity|]. rewrite Z.sub_diag. cbn [Z.abs Z.mul].
    apply Z.pow_nonneg. lia.
  - split.
    + intros Hlt. exfalso.
      assert (Z.log2 n < 24) by (apply Z.log2_lt_pow2; lia). lia.
    + set (e := Z.log2 n - 23) in *.
      rewrite Z.shiftr_div_pow2, Z.land_ones, !Z.shiftl_mul_pow2 by lia.
      rewrite Z.mul_1_l.
      assert (He : 2 ^ e = 2 * 2 ^ (e - 1)).
      { replace e with (Z.succ (e - 1)) at 1 by lia. apply Z.pow_succ_r. lia. }
      assert (Hp : 0 < 2 ^ (e - 1)) by (apply Z.pow_pos_nonneg; lia).
      pose proof (Z.div_mod n (2 ^ e) ltac:(lia)) as Hdm.
      pose proof (Z.mod_pos_bound n (2 ^ e) ltac:(lia)) as Hmb.
      set (q := n / 2 ^ e) in *. set (m := n mod 2 ^ e) in *.
      set (half := 2 ^ (e - 1)) in *.
      destruct (Z.ltb_spec m half) as [H1'|H1'].
      * rewrite He. nia.
      * destruct (Z.ltb_spec half m) as [H2'|H2'].
        -- rewrite He. nia.
        -- destruct (Z.even q); rewrite He; nia.
Qed.

(** X12: when the bandwidth estimate is enabled, each tick sends one estimate
    for the track; it carries the configured bitrate exactly when that is
    below 2^24, and otherwise a value at most half a unit in the last place
    (of 24 significant bits) away from it. *)
Theorem X12_estimate_carries_configured_bitrate (cfg : Config) (ssrc : Z) :
  RTCPSendREMB cfg = true ->
  0 < REMB cfg ->
  exists bitrate,
    [ReceiverEstimatedMaximumBitrate bitrate [uint32 ssrc]] ∈ feedbackTick cfg ssrc
    /\ (REMB cfg < 2 ^ 24 -> bitrate = REMB cfg)
    /\ 2 * Z.abs (bitrate - REMB cfg) <= 2 ^ (Z.log2 (REMB cfg) - 23).
Proof.
  intros Hflag Hpos. exists (float32 (REMB cfg)).
  destruct (float32_accuracy (REMB cfg) Hpos) as [Hexact Hbound].
  split; [|split; assumption].
  unfold feedbackTick. rewrite Hflag. apply elem_of_app. right. apply list_elem_of_here.
Qed.

(** X12, an instance: the default configuration; its bitrate, 400000000, has
    more than 24 bits and is carried exactly all the same. *)
Lemma X12_estimate_carries_configured_bitrate_witness :
  exists bitrate,
    [ReceiverEstimatedMaximumBitrate bitrate [uint32 7]] ∈ feedbackTick defaultConfig 7
    /\ (REMB defaultConfig < 2 ^ 24 -> bitrate = REMB defaultConfig)
    /\ 2 * Z.abs (bitrate - REMB defaultConfig) <= 2 ^ (Z.log2 (REMB defaultConfig) - 23).
Proof.
  apply (X12_estimate_carries_configured_bitrate defaultConfig 7).
  - reflexivity.
  - reflexivity.
Defined.

Section StartupProperties.
Context `{Engine, Websocket, Json, Net}.
Context `{!EngineSetup, !Dialer}.

(** X13: when the video or the audio destination cannot be created, [main]
    panics on the nil destination before the control loop starts: no input
    is handled (no call to the engine, nothing written to the websocket),
    and the deferred calls still close the websocket. *)
Theorem X13_main_panics_without_destination
    (cfg : Config) (inputs : list Input) (wsConn : Conn) (pc : PeerConnection) :
  Dial (serverURL cfg) = Ok wsConn ->
  snd createPeerConnection = Ok pc ->
  fst (setupMediaForwarding cfg) = None \/ snd (setupMediaForwarding cfg) = None ->
  mainExit (main cfg inputs) = Panics nilDereference
  /\ calls (mainTrace (main cfg inputs)) = []
  /\ last (deferredCalls (main cfg inputs)) = Some ClosedWebsocket.
Proof.
  intros Hd Hc Hn. unfold main. rewrite Hd.
  assert (Hlogs : createPeerConnection = ([], Ok pc)).
  { revert Hc. unfold createPeerConnection.
    destruct NewPeerConnection as [pc0|e]; [|discriminate].
    destruct (AddTransceiverFromKind pc0 RTPCodecTypeAudio) as [pc1 [e|]]; [discriminate|].
    destruct (AddTransceiverFromKind pc1 RTPCodecTypeVideo) as [pc2 [e|]]; [discriminate|].
    cbn. intros Hc. inversion Hc. reflexivity. }
  rewrite Hlogs. cbn [app].
  assert (Hquiet : calls (setupMediaForwardingLog cfg) = []).
  { unfold setupMediaForwardingLog.
    destruct (createUDPConnection _ (RTPVideoForwardingPort cfg) _);
      destruct (createUDPConnection _ (RTPAudioForwardingPort cfg) _); reflexivity. }
  destruct (setupMediaForwarding cfg) as [[video|] [audio|]]; cbn [fst snd] in Hn;
    try (destruct Hn; discriminate); cbn [mainExit mainTrace deferredCalls]; auto.
Qed.

End StartupProperties.

(** X13, an instance: the audio port cannot be dialled. *)
Lemma X13_main_panics_without_destination_witness :
  mainExit (@main sampleEngine sampleWebsocket sampleJson noAudioNet sampleSetup sampleDialer
              defaultConfig [Signal (Message 1 offerText)])
  = Panics nilDereference
  /\ calls (mainTrace (@main sampleEngine sampleWebsocket sampleJson noAudioNet sampleSetup
                         sampleDialer defaultConfig [Signal (Message 1 offerText)])) = []
  /\ last (deferredCalls (@main sampleEngine sampleWebsocket sampleJson noAudioNet sampleSetup
                            sampleDialer defaultConfig [Signal (Message 1 offerText)]))
     = Some ClosedWebsocket.
Proof.
  apply (@X13_main_panics_without_destination sampleEngine sampleWebsocket sampleJson noAudioNet
           sampleSetup sampleDialer defaultConfig [Signal (Message 1 offerText)] tt freshPc).
  - reflexivity.
  - reflexivity.
  - right. reflexivity.
Defined.

(** With every destination in place the same input is handled. *)
Example main_handles_the_offer :
  mainExit (@main sampleEngine sampleWebsocket sampleJson openNet sampleSetup sampleDialer
              defaultConfig [Signal (Message 1 offerText)])
  = Waits
  /\ sent (mainTrace (@main sampleEngine sampleWebsocket sampleJson openNet sampleSetup
                        sampleDialer defaultConfig [Signal (Message 1 offerText)]))
     = [jsonObject2 "type" (jsonString "answer") "sdp" (jsonString "v=0 answer")].
Proof. vm_compute. split; reflexivity. Qed.

(** ** The further properties at the sample instances *)

(** X2, an instance: a remote candidate message on a fresh engine. *)
Lemma X2_remote_candidate_is_added_once_witness :
  fst (@controlTurn sampleEngine sampleWebsocket sampleJsonWithCandidates
         (Message 1 candidateText) (sampleWorld freshPc ["candidate:1"]))
  = Next
  /\ reaches (sampleWorld freshPc ["candidate:1"]) freshPc [CallAddICECandidate remoteCandidate]
       (snd (@controlTurn sampleEngine sampleWebsocket sampleJsonWithCandidates
               (Message 1 candidateText) (sampleWorld freshPc ["candidate:1"]))).
Proof.
  assert (Ho : @unmarshalObject sampleJsonWithCandidates candidateText
               = Ok {[ "type" := jsonString "iceCandidate";
                       "candidate" := jsonString "candidate:9" ]})
    by (vm_compute; reflexivity).
  assert (Ht : @unmarshalString sampleJsonWithCandidates
                 (({[ "type" := jsonString "iceCandidate";
                      "candidate" := jsonString "candidate:9" ]} : gmap string string)
                  !!! "type")
               = Ok "iceCandidate")
    by (vm_compute; reflexivity).
  exact (@X2_remote_candidate_is_added_once sampleEngine sampleWebsocket sampleJsonWithCandidates
           (sampleWorld freshPc ["candidate:1"]) 1 candidateText
           {[ "type" := jsonString "iceCandidate"; "candidate" := jsonString "candidate:9" ]}
           Ho Ht).
Defined.

(** X3, an instance: an offer makes calls, and it is of one of the three
    types. *)
Lemma X3_calls_only_for_negotiation_messages_witness :
  (exists e, Message 1 offerText = ReadFailed e)
  \/ exists messageType message objmap ty,
       Message 1 offerText = Message messageType message
       /\ unmarshalObject message = Ok objmap
       /\ unmarshalString (objmap !!! "type") = Ok ty
       /\ (ty = "answer" \/ ty = "iceCandidate" \/ ty = "offer").
Proof.
  apply (X3_calls_only_for_negotiation_messages (Message 1 offerText) (sampleWorld freshPc [])).
  vm_compute. intros Heq. discriminate Heq.
Defined.

(** A player count, text that is not JSON, and an unknown type make no
    call. *)
Example informational_messages_make_no_call :
  calls (trace (snd (startControlLoop
                       [Message 1 playerCountText; Message 1 "not json";
                        Message 1 (jsonObject2 "type" (jsonString "ping") "id" "1")]
                       (sampleWorld freshPc []))))
  = [].
Proof. vm_compute. reflexivity. Qed.

(** X5, an instance: a candidate the encoder gives up on. *)
Lemma X5_unencodable_candidate_sends_empty_message_witness :
  after (sampleWorld negotiatedPc []) [CallWriteMessage ""]
    (snd (@sendLocalIceCandidate sampleEngine sampleWebsocket sampleJsonWithCandidates
            "unencodable" (sampleWorld negotiatedPc [])))
  /\ sent (trace (snd (@sendLocalIceCandidate sampleEngine sampleWebsocket sampleJsonWithCandidates
                         "unencodable" (sampleWorld negotiatedPc []))))
     = sent (trace (sampleWorld negotiatedPc [])) ++ [""].
Proof.
  apply (@X5_unencodable_candidate_sends_empty_message sampleEngine sampleWebsocket
           sampleJsonWithCandidates "unencodable" (ErrorString "json: unsupported value")
           (sampleWorld negotiatedPc [])).
  vm_compute. reflexivity.
Defined.

(** X6, an instance: an offer to an engine that creates no answer. *)
Lemma X6_offer_without_answer_sends_nothing_witness :
  fst (controlTurn (Message 1 offerText) (sampleWorld noAnswerPc [])) = Next
  /\ sent (trace (snd (controlTurn (Message 1 offerText) (sampleWorld noAnswerPc []))))
     = sent (trace (sampleWorld noAnswerPc [])).
Proof.
  apply (X6_offer_without_answer_sends_nothing (sampleWorld noAnswerPc []) 1 offerText
           {[ "type" := jsonString "offer"; "sdp" := jsonString "v=0 offer" ]}
           remoteOffer
           {| localDesc := None; remoteDesc := Some remoteOffer;
              refuseLocal := false; refuseRemote := false; failCreateAnswer := true |}
           None).
  - vm_compute. reflexivity.
  - vm_compute. reflexivity.
  - vm_compute. reflexivity.
  - vm_compute. reflexivity.
  - left. eexists _, _. reflexivity.
Defined.

(** X7, an instance: three candidates, then the answer. *)
Lemma X7_candidates_are_sent_in_discovery_order_witness :
  fst (run (discoveries ["candidate:1"; "candidate:2"; "candidate:3"]
            ++ [Signal (Message 1 answerText)]) (sampleWorld freshPc []))
  = None
  /\ sent (trace (snd (run (discoveries ["candidate:1"; "candidate:2"; "candidate:3"]
                            ++ [Signal (Message 1 answerText)]) (sampleWorld freshPc []))))
     = sent (trace (sampleWorld freshPc []))
       ++ map candidateMessage
              (pendingCandidates (sampleWorld freshPc [])
               ++ ["candidate:1"; "candidate:2"; "candidate:3"]).
Proof.
  apply (X7_candidates_are_sent_in_discovery_order
           (sampleWorld freshPc []) ["candidate:1"; "candidate:2"; "candidate:3"] 1 answerText
           {[ "type" := jsonString "answer"; "sdp" := jsonString "v=0 remote" ]}
           remoteAnswer
           {| localDesc := Some remoteAnswer; remoteDesc := None;
              refuseLocal := false; refuseRemote := false; failCreateAnswer := false |}
           {| localDesc := Some remoteAnswer; remoteDesc := Some remoteAnswer;
              refuseLocal := false; refuseRemote := false; failCreateAnswer := false |});
    vm_compute; reflexivity.
Defined.

(** X8, an instance: two candidates on an engine that holds a remote
    description. *)
Lemma X8_candidates_after_negotiation_bypass_the_buffer_witness :
  pendingCandidates (snd (run (discoveries ["candidate:1"; "candidate:2"])
                              (sampleWorld negotiatedPc [])))
  = pendingCandidates (sampleWorld negotiatedPc [])
  /\ sent (trace (snd (run (discoveries ["candidate:1"; "candidate:2"])
                           (sampleWorld negotiatedPc []))))
     = sent (trace (sampleWorld negotiatedPc []))
       ++ map candidateMessage ["candidate:1"; "candidate:2"].
Proof.
  apply (X8_candidates_after_negotiation_bypass_the_buffer
           (sampleWorld negotiatedPc []) ["candidate:1"; "candidate:2"]).
  exists remoteOffer. reflexivity.
Defined.

(** X9, an instance: a candidate discovered before an offer stays in the
    buffer (an offer drains nothing); it is not lost. *)
Lemma X9_no_discovered_candidate_is_dropped_witness :
  ("candidate:1" : @ICECandidate sampleEngine)
    ∈ pendingCandidates (snd (run [@Discovered sampleEngine (Some "candidate:1");
                                   Signal (Message 1 offerText);
                                   @Discovered sampleEngine (Some "candidate:2")]
                                  (sampleWorld freshPc [])))
  \/ candidateMessage "candidate:1"
       ∈ sent (trace (snd (run [@Discovered sampleEngine (Some "candidate:1");
                                Signal (Message 1 offerText);
                                @Discovered sampleEngine (Some "candidate:2")]
                               (sampleWorld freshPc [])))).
Proof.
  apply (X9_no_discovered_candidate_is_dropped
           [@Discovered sampleEngine (Some "candidate:1"); Signal (Message 1 offerText);
            @Discovered sampleEngine (Some "candidate:2")]
           "candidate:1" (sampleWorld freshPc [])).
  - vm_compute. reflexivity.
  - apply list_elem_of_here.
Defined.

(** X15, an instance: one candidate before the offer and one after it.  The
    first stays in the buffer; the answer and the second are written. *)
Lemma X15_candidates_before_an_offer_stay_buffered_witness :
  exists reply : list string,
    (reply = []
     \/ exists answer text, marshalSessionDescription answer = Ok text /\ reply = [text])
    /\ fst (run (discoveries ["candidate:1"] ++ [Signal (Message 1 offerText)]
                 ++ discoveries ["candidate:2"]) (sampleWorld freshPc [])) = None
    /\ pendingCandidates
         (snd (run (discoveries ["candidate:1"] ++ [Signal (Message 1 offerText)]
                    ++ discoveries ["candidate:2"]) (sampleWorld freshPc [])))
       = pendingCandidates (sampleWorld freshPc []) ++ ["candidate:1"]
    /\ sent (trace (snd (run (discoveries ["candidate:1"] ++ [Signal (Message 1 offerText)]
                              ++ discoveries ["candidate:2"]) (sampleWorld freshPc []))))
       = sent (trace (sampleWorld freshPc [])) ++ reply ++ map candidateMessage ["candidate:2"].
Proof.
  apply (X15_candidates_before_an_offer_stay_buffered
           (sampleWorld freshPc []) ["candidate:1"] ["candidate:2"] 1 offerText
           {[ "type" := jsonString "offer"; "sdp" := jsonString "v=0 offer" ]} remoteOffer);
    try (vm_compute; reflexivity).
  vm_compute. eexists. reflexivity.
Defined.

(** The same run, computed: the answer and the second candidate are written,
    the first candidate is not. *)
Example candidate_before_offer_is_not_sent :
  sent (trace (snd (run (discoveries ["candidate:1"] ++ [Signal (Message 1 offerText)]
                         ++ discoveries ["candidate:2"]) (sampleWorld freshPc []))))
  = [jsonObject2 "type" (jsonString "answer") "sdp" (jsonString "v=0 answer");
     candidateMessage "candidate:2"].
Proof. vm_compute. reflexivity. Qed.
